(** * glow-tts-train: the audio feature engine of [glow_tts_train/config.py]

    [AudioConfig] turns waveforms into normalised log-mel spectrograms
    ([wav2mel]) and back ([mel2wav], by Griffin-Lim).  This development embeds
    the class in Gallina and settles the specification's claims about it.

    Conventions of the embedding.

    - Python floats are idealised as real numbers ([R]); integers are [Z].
    - numpy arrays live in a store; a method receives and returns references
      ([loc]), an array-valued expression allocates a new cell, a basic slice
      is a view on the cell it was taken from, and [+=] writes in place.
    - An exception is a [Raise] result; the store survives it.
    - librosa and numpy routines the class calls but does not define
      ([librosa.filters.mel], [librosa.stft], [librosa.istft],
      [librosa.effects.trim], [np.linalg.pinv], [np.random.rand]) are fields
      of a record [Lib]; every call to one of them is logged in the world's
      trace.  They are taken to be functions of the values they receive. *)

From Stdlib Require Import Reals Lra Lia ZArith List Bool.
From stdpp Require Import base list strings.
Import ListNotations.

#[local] Open Scope R_scope.

(** ** Python values *)

Inductive exception : Set :=
| AssertionError
| UnboundLocalError
| AttributeError
| TypeError
| ValueError
| ParameterError.

Inductive result (A : Type) : Type :=
| Ok (a : A)
| Raise (e : exception).
Arguments Ok {A} a.
Arguments Raise {A} e.

Definition is_ok {A} (r : result A) : bool :=
  match r with Ok _ => true | Raise _ => false end.

(** Reading a local variable that may not have been assigned. *)
Definition read_local {A} (x : option A) : result A :=
  match x with Some v => Ok v | None => Raise UnboundLocalError end.

(** [int(x)] on a float: truncation towards zero. *)
Definition py_int (x : R) : Z :=
  if Rle_dec 0 x then Zfloor x else Zceil x.

(** One bound of a slice [a[start:stop]] on a sequence of length [len]: a
    negative index counts from the end, and both are clamped to [0..len]. *)
Definition slice_index (len i : Z) : Z :=
  if (i <? 0)%Z then Z.max 0 (i + len) else Z.min i len.

(** Offset and length of [a[start:stop]]; the length is 0 when the bounds
    cross. *)
Definition slice_bounds (len start stop : Z) : nat * nat :=
  let lo := slice_index len start in
  let hi := slice_index len stop in
  (Z.to_nat lo, Z.to_nat (hi - lo)).

Definition window {A} (off n : nat) (l : list A) : list A :=
  take n (drop off l).

Definition py_slice {A} (l : list A) (start stop : Z) : list A :=
  let '(off, n) := slice_bounds (Z.of_nat (length l)) start stop in
  window off n l.

(** ** numpy values *)

Record complex : Type := mkC { re : R; im : R }.

Definition Cmul (a b : complex) : complex :=
  mkC (re a * re b - im a * im b) (re a * im b + im a * re b).

Definition Cabs (z : complex) : R := sqrt (re z * re z + im z * im z).

(** [np.exp(1j * t)]. *)
Definition Cexp_i (t : R) : complex := mkC (cos t) (sin t).

(** [np.angle(z)], the two-argument arctangent of [(im z, re z)]. *)
Definition Cangle (z : complex) : R :=
  if Rlt_dec 0 (re z) then atan (im z / re z)
  else if Rlt_dec (re z) 0 then
         if Rle_dec 0 (im z) then atan (im z / re z) + PI
         else atan (im z / re z) - PI
  else if Rlt_dec 0 (im z) then PI / 2
  else if Rlt_dec (im z) 0 then - (PI / 2)
  else 0.

Definition of_real (x : R) : complex := mkC x 0.

Definition matrix : Type := list (list R).
Definition cmatrix : Type := list (list complex).

Inductive ndarray : Type :=
| Vec (v : list R)
| Mat (m : matrix)
| CMat (m : cmatrix).

Definition mmap {A B} (f : A -> B) (m : list (list A)) : list (list B) :=
  map (map f) m.

Definition is_real (a : ndarray) : bool :=
  match a with CMat _ => false | _ => true end.

(** A float function applied to every entry of a float array. *)
Definition amap (f : R -> R) (a : ndarray) : ndarray :=
  match a with
  | Vec v => Vec (map f v)
  | Mat m => Mat (mmap f m)
  | CMat m => CMat m
  end.

Definition mzip {A B C} (f : A -> B -> C) (a : list (list A)) (b : list (list B))
  : list (list C) :=
  zip_with (zip_with f) a b.

Definition nrows {A} (m : list (list A)) : nat := length m.
Definition ncols {A} (m : list (list A)) : nat :=
  match m with [] => 0%nat | r :: _ => length r end.

Definition rows_have {A} (n : nat) (m : list (list A)) : bool :=
  forallb (fun r => Nat.eqb (length r) n) m.

Definition np_clip (x lo hi : R) : R := Rmin (Rmax x lo) hi.
Definition np_maximum (a b : R) : R := Rmax a b.
Definition np_log10 (x : R) : R := ln x / ln 10.
(** [np.power(b, x)] and [b ** x] for a positive base. *)
Definition np_power (b x : R) : R := Rpower b x.

Definition dotv (u v : list R) : R := fold_right Rplus 0 (zip_with Rmult u v).
Definition column (j : nat) (b : matrix) : list R := map (fun r => nth j r 0) b.

(** [np.dot] of two 2-D arrays; the inner dimensions must agree. *)
Definition np_dot (a b : matrix) : result matrix :=
  if rows_have (nrows b) a && rows_have (ncols b) b then
    Ok (map (fun r => map (fun j => dotv r (column j b)) (seq 0 (ncols b))) a)
  else Raise ValueError.

(** ** The dataclass *)

Record AudioConfig : Type := mkAudioConfig {
  filter_length : Z;
  hop_length : Z;
  win_length : Z;
  mel_channels : Z;
  sample_rate : Z;
  sample_bytes : Z;
  channels : Z;
  mel_fmin : R;
  mel_fmax : option R;
  ref_level_db : R;
  spec_gain : R;
  signal_norm : bool;
  min_level_db : R;
  max_norm : R;
  clip_norm : bool;
  symmetric_norm : bool;
  do_dynamic_range_compression : bool;
  convert_db_to_amp : bool;
  do_trim_silence : bool;
  trim_silence_db : R
}.

(** The field defaults of the dataclass. *)
Definition default_config : AudioConfig := {|
  filter_length := 1024; hop_length := 256; win_length := 1024;
  mel_channels := 80; sample_rate := 22050; sample_bytes := 2; channels := 1;
  mel_fmin := 0; mel_fmax := Some 8000; ref_level_db := 20; spec_gain := 1;
  signal_norm := true; min_level_db := -100; max_norm := 1; clip_norm := true;
  symmetric_norm := true; do_dynamic_range_compression := true;
  convert_db_to_amp := true; do_trim_silence := false; trim_silence_db := 60
|}.

(** Default arguments of the methods. *)
Definition amp_floor : R := 1 / 100000.            (* amp_to_db: threshold=1e-5 *)
Definition linear_floor : R := 1 / 10000000000.    (* mel_to_linear: threshold=1e-10 *)
Definition default_margin_sec : R := 1 / 100.      (* trim_silence: margin_sec=0.01 *)
Definition default_keep_sec : R := 1 / 10.         (* trim_silence: keep_sec=0.1 *)
Definition default_power : R := 10.                (* db_to_amp: power=10.0 *)

(** ** The elementwise arithmetic of the methods

    numpy applies the scalar arithmetic of [normalize], [denormalize],
    [amp_to_db] and [db_to_amp] entry by entry; this module is that
    arithmetic at one entry (equally: the method called on a Python float).
    Division is that of the reals, which is total: where the code would
    divide by zero ([min_level_db = 0] in [normalize], [max_norm = 0] in
    [denormalize], [spec_gain = 0] in [db_to_amp]) it raises
    [ZeroDivisionError] on a float and yields [nan] or [inf] in an array, and
    this arithmetic does not describe it; the statements about a quotient
    assume the divisor is not zero. *)

Module Scalar.

Definition normalize (c : AudioConfig) (mel_db : R) : R :=
  let mel_norm :=
    ((mel_db - ref_level_db c) - min_level_db c) / (- min_level_db c) in
  if symmetric_norm c then
    let mel_norm := ((2 * max_norm c) * mel_norm) - max_norm c in
    if clip_norm c then np_clip mel_norm (- max_norm c) (max_norm c)
    else mel_norm
  else
    let mel_norm := max_norm c * mel_norm in
    if clip_norm c then np_clip mel_norm 0 (max_norm c)
    else mel_norm.

(** The local [mel_denorm] is bound only under [if self.clip_norm]. *)
Definition denormalize (c : AudioConfig) (mel_db : R) : result R :=
  let scaled :=
    if symmetric_norm c then
      let mel_denorm :=
        if clip_norm c then Some (np_clip mel_db (- max_norm c) (max_norm c))
        else None in
      match read_local mel_denorm with
      | Ok v =>
          Ok (((v + max_norm c) * - min_level_db c / (2 * max_norm c))
              + min_level_db c)
      | Raise e => Raise e
      end
    else
      let mel_denorm :=
        if clip_norm c then Some (np_clip mel_db 0 (max_norm c))
        else None in
      match read_local mel_denorm with
      | Ok v => Ok ((v * - min_level_db c / max_norm c) + min_level_db c)
      | Raise e => Raise e
      end in
  match scaled with
  | Ok mel_denorm => Ok (mel_denorm + ref_level_db c)
  | Raise e => Raise e
  end.

Definition amp_to_db (c : AudioConfig) (mel_amp threshold : R) : R :=
  spec_gain c * np_log10 (np_maximum threshold mel_amp).

Definition db_to_amp (c : AudioConfig) (mel_db power : R) : R :=
  np_power power (mel_db / spec_gain c).

End Scalar.

(** ** The store *)

(** References are indices into the store. *)
Abbreviation loc := nat.

(** An [AudioConfig] instance: the dataclass fields and the two attributes
    [__post_init__] adds. *)
Record object : Type := mkObject {
  fields : AudioConfig;
  _mel_basis : option loc;
  _inv_mel_basis : option loc
}.

Inductive cell : Type :=
| Array (a : ndarray)
| View (base : loc) (off n : nat)    (* a basic slice of a 1-D array *)
| Object (o : object).

(** Calls that leave the class. *)
Inductive event : Type :=
| call_mel
| call_pinv
| call_trim (y : list R)
| call_stft (y : list R)
| call_istft (s : cmatrix)
| call_rand (r c : nat).

Record Lib : Type := mkLib {
  RandomState : Type;
  (* librosa.filters.mel(sr, n_fft, n_mels=, fmin=, fmax=) *)
  librosa_filters_mel : Z -> Z -> Z -> R -> option R -> result matrix;
  (* np.linalg.pinv(a) *)
  np_linalg_pinv : matrix -> result matrix;
  (* librosa.stft(y=, n_fft=, hop_length=, win_length=, pad_mode="reflect") *)
  librosa_stft : list R -> Z -> Z -> Z -> result cmatrix;
  (* librosa.istft(stft_matrix, hop_length=, win_length=) *)
  librosa_istft : cmatrix -> Z -> Z -> result (list R);
  (* librosa.effects.trim(y, top_db=, frame_length=, hop_length=)[1] *)
  librosa_effects_trim : list R -> R -> Z -> Z -> result (Z * Z);
  (* np.random.rand(r, c) on the process-wide generator *)
  np_random_rand : RandomState -> nat -> nat -> matrix * RandomState
}.

Record world (L : Lib) : Type := mkWorld {
  heap : list cell;
  rng : RandomState L;
  trace : list event
}.
Arguments mkWorld {L} heap rng trace.
Arguments heap {L} w.
Arguments rng {L} w.
Arguments trace {L} w.

Definition M (L : Lib) (A : Type) : Type := world L -> result A * world L.

Definition ret {L A} (a : A) : M L A := fun w => (Ok a, w).

Definition raise {L A} (e : exception) : M L A := fun w => (Raise e, w).

Definition bind {L A B} (m : M L A) (k : A -> M L B) : M L B :=
  fun w =>
    match m w with
    | (Ok a, w') => k a w'
    | (Raise e, w') => (Raise e, w')
    end.

Notation "'do' x <- m ; k" := (bind m (fun x => k))
  (at level 10, x name, m at level 100, k at level 200).
Notation "'do' ' p <- m ; k" := (bind m (fun x => match x with p => k end))
  (at level 10, p pattern, m at level 100, k at level 200).
Notation "'run' m ; k" := (bind m (fun _ => k))
  (at level 10, m at level 100, k at level 200).

Definition lift {L A} (r : result A) : M L A := fun w => (r, w).

Definition set_heap {L} (h : list cell) (w : world L) : world L :=
  mkWorld h (rng w) (trace w).

Definition alloc {L} (c : cell) : M L loc :=
  fun w => (Ok (length (heap w)), set_heap (heap w ++ [c]) w).

Definition store {L} (l : loc) (c : cell) : M L unit :=
  fun w => (Ok tt, set_heap (<[l := c]> (heap w)) w).

Definition extern {L A} (ev : event) (r : result A) : M L A :=
  fun w => (r, mkWorld (heap w) (rng w) (trace w ++ [ev])).

(** The array a reference denotes; a view reads through to its base. *)
Definition deref (h : list cell) (l : loc) : option ndarray :=
  match h !! l with
  | Some (Array a) => Some a
  | Some (View b off n) =>
      match h !! b with
      | Some (Array (Vec v)) => Some (Vec (window off n v))
      | _ => None
      end
  | _ => None
  end.

Definition load {L} (l : loc) : M L ndarray :=
  fun w =>
    match deref (heap w) l with
    | Some a => (Ok a, w)
    | None => (Raise TypeError, w)
    end.

Definition load_vec {L} (l : loc) : M L (list R) :=
  do a <- load l;
  match a with Vec v => ret v | _ => raise TypeError end.

Definition load_mat {L} (l : loc) : M L matrix :=
  do a <- load l;
  match a with Mat m => ret m | _ => raise TypeError end.

Definition load_cmat {L} (l : loc) : M L cmatrix :=
  do a <- load l;
  match a with CMat m => ret m | _ => raise TypeError end.

Definition getobj {L} (self : loc) : M L object :=
  fun w =>
    match heap w !! self with
    | Some (Object o) => (Ok o, w)
    | _ => (Raise TypeError, w)
    end.

Definition getattr {L A} (self : loc) (f : object -> option A) : M L A :=
  do o <- getobj self;
  match f o with Some a => ret a | None => raise AttributeError end.

Definition setattr {L} (self : loc) (f : object -> object) : M L unit :=
  do o <- getobj self;
  store self (Object (f o)).

Definition py_assert {L} (P : Prop) (d : {P} + {~ P}) : M L unit :=
  if d then ret tt else raise AssertionError.

(** An elementwise float expression over one array: a new array. *)
Definition np_unary {L} (f : R -> R) (a : loc) : M L loc :=
  do x <- load a;
  if is_real x then alloc (Array (amap f x)) else raise TypeError.

(** [a += x]: the entries of [a] are overwritten where they are stored. *)
Definition np_iadd {L} (a : loc) (x : R) : M L unit :=
  fun w =>
    match heap w !! a with
    | Some (Array y) =>
        if is_real y then store a (Array (amap (fun v => v + x) y)) w
        else (Raise TypeError, w)
    | Some (View b off n) =>
        match heap w !! b with
        | Some (Array (Vec v)) =>
            store b (Array (Vec (take off v ++ map (fun y => y + x) (window off n v)
                                   ++ drop (off + n) v))) w
        | _ => (Raise TypeError, w)
        end
    | _ => (Raise TypeError, w)
    end.

(** [a[start:stop]] on a 1-D array: a view on the cell that owns the data. *)
Definition slice {L} (a : loc) (start stop : Z) : M L loc :=
  fun w =>
    match heap w !! a with
    | Some (Array (Vec v)) =>
        let '(off, n) := slice_bounds (Z.of_nat (length v)) start stop in
        alloc (View a off n) w
    | Some (View b o k) =>
        match heap w !! b with
        | Some (Array (Vec v)) =>
            let '(off, n) :=
              slice_bounds (Z.of_nat (length (window o k v))) start stop in
            alloc (View b (o + off) n) w
        | _ => (Raise TypeError, w)
        end
    | _ => (Raise TypeError, w)
    end.

Definition len {L} (a : loc) : M L Z :=
  do v <- load_vec a;
  ret (Z.of_nat (length v)).

(** [np.abs]. *)
Definition np_abs {L} (a : loc) : M L loc :=
  do x <- load a;
  match x with
  | Vec v => alloc (Array (Vec (map Rabs v)))
  | Mat m => alloc (Array (Mat (mmap Rabs m)))
  | CMat m => alloc (Array (Mat (mmap Cabs m)))
  end.

(** [a.astype(np.complex)] on a 2-D array. *)
Definition astype_complex {L} (a : loc) : M L loc :=
  do x <- load a;
  match x with
  | Mat m => alloc (Array (CMat (mmap of_real m)))
  | CMat m => alloc (Array (CMat m))
  | Vec _ => raise TypeError
  end.

Definition shape {A} (m : list (list A)) : list nat := map length m.

Definition same_shape {A B} (a : list (list A)) (b : list (list B)) : bool :=
  bool_decide (shape a = shape b).

(** [a * b] on two complex 2-D arrays of one shape (unequal shapes are
    refused: numpy's broadcasting of them is not modelled). *)
Definition np_cmul {L} (a b : loc) : M L loc :=
  do x <- load_cmat a;
  do y <- load_cmat b;
  if same_shape x y then alloc (Array (CMat (mzip Cmul x y)))
  else raise ValueError.

(** [np.exp(2j * np.pi * r)] on a float array. *)
Definition unit_phase (r : matrix) : cmatrix :=
  mmap (fun x => Cexp_i (2 * PI * x)) r.

(** [np.exp(1j * np.angle(s))]. *)
Definition phase_of (s : cmatrix) : cmatrix :=
  mmap (fun z => Cexp_i (Cangle z)) s.

Definition np_phase {L} (s : loc) : M L loc :=
  do x <- load_cmat s;
  alloc (Array (CMat (phase_of x))).

(** [np.random.rand(r, c)]: draws from, and advances, the global generator. *)
Definition np_random_rand_global {L} (r c : nat) : M L matrix :=
  fun w =>
    let '(m, s) := np_random_rand L (rng w) r c in
    (Ok m, mkWorld (heap w) s (trace w ++ [call_rand r c])).

(** ** The methods of [AudioConfig] *)

Section Methods.
Context {L : Lib}.

Definition __post_init__ (self : loc) : M L unit :=
  do o <- getobj self;
  let c := fields o in
  run match mel_fmax c with
      | Some fmax => py_assert _ (Rle_dec fmax (IZR (sample_rate c / 2)))
      | None => ret tt
      end;
  do mb <- extern call_mel
             (librosa_filters_mel L (sample_rate c) (filter_length c)
                (mel_channels c) (mel_fmin c) (mel_fmax c));
  do l <- alloc (Array (Mat mb));
  run setattr self (fun o => mkObject (fields o) (Some l) (_inv_mel_basis o));
  do b <- getattr self _mel_basis;
  do m <- load_mat b;
  do inv <- extern call_pinv (np_linalg_pinv L m);
  do l' <- alloc (Array (Mat inv));
  setattr self (fun o => mkObject (fields o) (_mel_basis o) (Some l')).

(** [AudioConfig(...)]: the generated [__init__] stores the fields and calls
    [__post_init__]. *)
Definition new_AudioConfig (c : AudioConfig) : M L loc :=
  do self <- alloc (Object (mkObject c None None));
  run __post_init__ self;
  ret self.

Definition linear_to_mel (self linear : loc) : M L loc :=
  do b <- getattr self _mel_basis;
  do m <- load_mat b;
  do x <- load_mat linear;
  do d <- lift (np_dot m x);
  alloc (Array (Mat d)).

Definition mel_to_linear (self mel_amp : loc) (threshold : R) : M L loc :=
  do b <- getattr self _inv_mel_basis;
  do m <- load_mat b;
  do x <- load_mat mel_amp;
  do d <- lift (np_dot m x);
  alloc (Array (Mat (mmap (np_maximum threshold) d))).

Definition amp_to_db (self mel_amp : loc) (threshold : R) : M L loc :=
  do o <- getobj self;
  np_unary (fun x => Scalar.amp_to_db (fields o) x threshold) mel_amp.

Definition db_to_amp (self mel_db : loc) (power : R) : M L loc :=
  do o <- getobj self;
  np_unary (fun x => Scalar.db_to_amp (fields o) x power) mel_db.

Definition stft (self wav : loc) : M L loc :=
  do o <- getobj self;
  let c := fields o in
  do y <- load_vec wav;
  do s <- extern (call_stft y)
            (librosa_stft L y (filter_length c) (hop_length c) (win_length c));
  alloc (Array (CMat s)).

Definition istft (self linear : loc) : M L loc :=
  do o <- getobj self;
  let c := fields o in
  do s <- load_cmat linear;
  do y <- extern (call_istft s) (librosa_istft L s (hop_length c) (win_length c));
  alloc (Array (Vec y)).

(** The body of [for _ in range(num_iters)] in [griffin_lim], [n] times. *)
Fixpoint griffin_lim_loop (n : nat) (self linear_complex audio : loc) : M L loc :=
  match n with
  | O => ret audio
  | S k =>
      do s <- stft self audio;
      do angles <- np_phase s;
      do p <- np_cmul linear_complex angles;
      do audio <- istft self p;
      griffin_lim_loop k self linear_complex audio
  end.

Definition griffin_lim (self linear : loc) (num_iters : Z) : M L loc :=
  do m <- load_mat linear;
  do r <- np_random_rand_global (nrows m) (ncols m);
  do angles <- alloc (Array (CMat (unit_phase r)));
  do a <- np_abs linear;
  do linear_complex <- astype_complex a;
  do p <- np_cmul linear_complex angles;
  do audio <- istft self p;
  griffin_lim_loop (Z.to_nat num_iters) self linear_complex audio.

(** The arithmetic of one statement allocates one array; the temporaries of
    the expression are not kept. *)
Definition normalize (self mel_db : loc) : M L loc :=
  do o <- getobj self;
  np_unary (Scalar.normalize (fields o)) mel_db.

Definition denormalize (self mel_db : loc) : M L loc :=
  do o <- getobj self;
  let c := fields o in
  do mel_denorm <-
    (if symmetric_norm c then
       do mel_denorm <-
         (if clip_norm c then
            do l <- np_unary (fun x => np_clip x (- max_norm c) (max_norm c)) mel_db;
            ret (Some l)
          else ret None);
       do v <- lift (read_local mel_denorm);
       np_unary (fun x => ((x + max_norm c) * - min_level_db c / (2 * max_norm c))
                          + min_level_db c) v
     else
       do mel_denorm <-
         (if clip_norm c then
            do l <- np_unary (fun x => np_clip x 0 (max_norm c)) mel_db;
            ret (Some l)
          else ret None);
       do v <- lift (read_local mel_denorm);
       np_unary (fun x => (x * - min_level_db c / max_norm c) + min_level_db c) v);
  run np_iadd mel_denorm (ref_level_db c);
  ret mel_denorm.

Definition trim_silence (self wav : loc) (trim_db margin_sec keep_sec : R)
  : M L loc :=
  do o <- getobj self;
  let c := fields o in
  let margin := py_int (IZR (sample_rate c) * margin_sec) in
  do wav <- slice wav margin (- margin);
  do y <- load_vec wav;
  do ' (t0, t1) <- extern (call_trim y)
                     (librosa_effects_trim L y trim_db (win_length c) (hop_length c));
  let keep_samples := py_int (IZR (sample_rate c) * keep_sec) in
  do n <- len wav;
  let trim_start := Z.max 0 (t0 - keep_samples) in
  let trim_end := Z.min n (t1 + keep_samples) in
  slice wav trim_start trim_end.

Definition wav2mel (self wav : loc) : M L loc :=
  do o <- getobj self;
  let c := fields o in
  do wav <- (if do_trim_silence c
             then trim_silence self wav (trim_silence_db c)
                    default_margin_sec default_keep_sec
             else ret wav);
  do linear <- stft self wav;
  do a <- np_abs linear;
  do mel_amp <- linear_to_mel self a;
  do mel_db <- amp_to_db self mel_amp amp_floor;
  if signal_norm c then normalize self mel_db else ret mel_db.

Definition mel2wav (self mel_db : loc) (num_iters : Z) (power : R) : M L loc :=
  do o <- getobj self;
  let c := fields o in
  do mel_db <- (if signal_norm c then denormalize self mel_db else ret mel_db);
  do mel_amp <- db_to_amp self mel_db default_power;
  do lin <- mel_to_linear self mel_amp linear_floor;
  do linear <- np_unary (fun x => np_power x power) lin;
  griffin_lim self linear num_iters.

End Methods.

(** ** Vocabulary of the statements *)

(** No call that builds the filterbank or its pseudo-inverse. *)
Definition no_build (ev : event) : Prop :=
  match ev with call_mel | call_pinv => False | _ => True end.

Definition is_rand (ev : event) : bool :=
  match ev with call_rand _ _ => true | _ => false end.

Definition is_stft (ev : event) : bool :=
  match ev with call_stft _ => true | _ => false end.

Definition is_istft (ev : event) : bool :=
  match ev with call_istft _ => true | _ => false end.

Definition count (p : event -> bool) (evs : list event) : nat :=
  length (filter (fun ev => p ev = true) evs).

(** A 2-D array has rows of one length. *)
Definition rectangular {A} (m : list (list A)) : Prop :=
  shape m = replicate (nrows m) (ncols m).

Definition has_zero_row (m : matrix) : Prop :=
  Exists (Forall (fun x => x = 0)) m.

(** The guard of [__post_init__]: [mel_fmax] unset, or at most
    [sample_rate // 2]. *)
Definition fmax_admissible (c : AudioConfig) : Prop :=
  match mel_fmax c with
  | Some fmax => fmax <= IZR (sample_rate c / 2)
  | None => True
  end.

Definition unwrap {A} (d : A) (r : result A) : A :=
  match r with Ok a => a | Raise _ => d end.

(** The value [denormalize] gives an entry, where it gives one. *)
Definition denorm_value (c : AudioConfig) (v : R) : R :=
  unwrap 0 (Scalar.denormalize c v).

(** The magnitude spectrogram [mel2wav] hands to [griffin_lim], from the
    pseudo-inverse [inv] and the mel spectrogram [x]. *)
Definition mel2wav_magnitude (c : AudioConfig) (inv x : matrix) (power : R)
  : result matrix :=
  let mel_db := if signal_norm c then mmap (denorm_value c) x else x in
  let mel_amp := mmap (fun v => Scalar.db_to_amp c v default_power) mel_db in
  match np_dot inv mel_amp with
  | Ok d => Ok (mmap (fun v => np_power v power)
                  (mmap (np_maximum linear_floor) d))
  | Raise e => Raise e
  end.

Section Vocabulary.
Context {L : Lib}.

(** [w'] is [w] after a run that only allocated: the cells of [w] are where
    and what they were, the generator is in state [g], and [evs] are the
    library calls made. *)
Definition grows (w w' : world L) (g : RandomState L) (evs : list event) : Prop :=
  heap w `prefix_of` heap w' /\ rng w' = g /\ trace w' = trace w ++ evs.

(** A computation that writes to no cell that existed before it, makes no
    filterbank call, and reads the trace nowhere: from a store and a generator
    state it has one outcome, whatever was logged before. *)
Definition tidy {A} (m : M L A) : Prop :=
  forall h g, exists r h' g' evs,
    h `prefix_of` h' /\ Forall no_build evs /\
    forall t, m (mkWorld h g t) = (r, mkWorld h' g' (t ++ evs)).

(** A reference-valued computation that, run on a store of at least [k]
    cells, returns none of the first [k]. *)
Definition fresh_above (k : nat) (m : M L loc) : Prop :=
  forall w l, (k <= length (heap w))%nat -> (m w).1 = Ok l -> (k <= l)%nat.

(** The shape of both branches of [denormalize]: clip (or leave the local
    unbound), rescale, add in place. *)
Definition clip_scale_shift (b : bool) (f1 f2 : R -> R) (x : R) (mel_db : loc)
  : M L loc :=
  do mel_denorm <-
    (do mel_denorm <-
       (if b then do l <- np_unary f1 mel_db; ret (Some l) else ret None);
     do v <- lift (read_local mel_denorm);
     np_unary f2 v);
  run np_iadd mel_denorm x;
  ret mel_denorm.

Definition stft_val (c : AudioConfig) (y : list R) : cmatrix :=
  unwrap [] (librosa_stft L y (filter_length c) (hop_length c) (win_length c)).

Definition istft_val (c : AudioConfig) (s : cmatrix) : list R :=
  unwrap [] (librosa_istft L s (hop_length c) (win_length c)).

(** One Griffin-Lim refinement of the waveform [y] for the magnitude [mag]:
    analyse, keep the phase, synthesise with [mag]. *)
Definition gl_spectrum (c : AudioConfig) (mag : cmatrix) (y : list R) : cmatrix :=
  mzip Cmul mag (phase_of (stft_val c y)).

Definition gl_refine (c : AudioConfig) (mag : cmatrix) (y : list R) : list R :=
  istft_val c (gl_spectrum c mag y).

Fixpoint refinements (n : nat) (c : AudioConfig) (mag : cmatrix) (y : list R)
  : list R :=
  match n with
  | O => y
  | S k => refinements k c mag (gl_refine c mag y)
  end.

(** The library calls of [n] refinements starting from [y]. *)
Fixpoint gl_events (n : nat) (c : AudioConfig) (mag : cmatrix) (y : list R)
  : list event :=
  match n with
  | O => []
  | S k =>
      call_stft y :: call_istft (gl_spectrum c mag y)
        :: gl_events k c mag (gl_refine c mag y)
  end.

(** What Griffin-Lim needs of the library on spectrograms of shape [sh]:
    [rand] returns the shape asked for, [istft] accepts the shape, and the
    analysis of a synthesised waveform has the shape again. *)
Definition well_behaved (c : AudioConfig) (sh : list nat) : Prop :=
  (forall st r k, shape (np_random_rand L st r k).1 = replicate r k) /\
  (forall s, shape s = sh ->
     is_ok (librosa_istft L s (hop_length c) (win_length c)) = true) /\
  (forall s y, shape s = sh ->
     librosa_istft L s (hop_length c) (win_length c) = Ok y ->
     exists s', librosa_stft L y (filter_length c) (hop_length c) (win_length c)
                = Ok s' /\ shape s' = sh).

End Vocabulary.

Arguments stft_val : clear implicits.
Arguments istft_val : clear implicits.
Arguments gl_spectrum : clear implicits.
Arguments gl_refine : clear implicits.
Arguments refinements : clear implicits.
Arguments gl_events : clear implicits.
Arguments well_behaved : clear implicits.

Create HintDb tidy.

(** ** A small library instance

    One-bin spectrograms: the filterbank is the given matrix, analysis keeps
    the first sample, synthesis the real parts, the trimmer finds no frame
    above the threshold, and the generator state is the next draw. *)

Definition stub (fb : matrix) : Lib := {|
  RandomState := R;
  librosa_filters_mel := fun _ _ _ _ _ => Ok fb;
  np_linalg_pinv := fun m => Ok m;
  librosa_stft := fun y _ _ _ => Ok [[of_real (hd 0 y)]];
  librosa_istft := fun s _ _ => Ok (map re (concat s));
  librosa_effects_trim := fun _ _ _ _ => Ok (0%Z, 0%Z);
  np_random_rand := fun st r c => (replicate r (replicate c st), st + 1 / 2)
|}.

(** An instance at reference 0, its 1x1 filterbank and pseudo-inverse at 1
    and 2, a 1x1 mel spectrogram at 3 and a five-sample waveform at 4. *)
Definition stub_heap (c : AudioConfig) : list cell :=
  [ Object (mkObject c (Some 1%nat) (Some 2%nat));
    Array (Mat [[1]]);
    Array (Mat [[1]]);
    Array (Mat [[0]]);
    Array (Vec [0; 0; 0; 0; 0]) ].

Definition stub_world (c : AudioConfig) (seed : R) (log : list event)
  : world (stub [[1]]) :=
  @mkWorld (stub [[1]]) (stub_heap c) seed log.

Definition empty_world (fb : matrix) : world (stub fb) :=
  @mkWorld (stub fb) [] 0 [].

(** Variations of the default configuration. *)
Definition with_clip_norm (b : bool) (c : AudioConfig) : AudioConfig :=
  mkAudioConfig (filter_length c) (hop_length c) (win_length c) (mel_channels c)
    (sample_rate c) (sample_bytes c) (channels c) (mel_fmin c) (mel_fmax c)
    (ref_level_db c) (spec_gain c) (signal_norm c) (min_level_db c) (max_norm c)
    b (symmetric_norm c) (do_dynamic_range_compression c) (convert_db_to_amp c)
    (do_trim_silence c) (trim_silence_db c).

Definition with_rate (sr : Z) (fmax : option R) (c : AudioConfig) : AudioConfig :=
  mkAudioConfig (filter_length c) (hop_length c) (win_length c) (mel_channels c)
    sr (sample_bytes c) (channels c) (mel_fmin c) fmax
    (ref_level_db c) (spec_gain c) (signal_norm c) (min_level_db c) (max_norm c)
    (clip_norm c) (symmetric_norm c) (do_dynamic_range_compression c)
    (convert_db_to_amp c) (do_trim_silence c) (trim_silence_db c).

(** The float entries of an array, row by row. *)
Definition entries (a : ndarray) : list R :=
  match a with
  | Vec v => v
  | Mat m => concat m
  | CMat _ => []
  end.

(** The lower end of the range [normalize] and [denormalize] clip to. *)
Definition norm_floor (c : AudioConfig) : R :=
  if symmetric_norm c then - max_norm c else 0.

(** What the clipping of [normalize] and [denormalize] does to one entry. *)
Definition norm_clip (c : AudioConfig) (v : R) : R :=
  np_clip v (norm_floor c) (max_norm c).

(** The default configuration with [do_trim_silence] set. *)
Definition with_trim_silence (b : bool) (c : AudioConfig) : AudioConfig :=
  mkAudioConfig (filter_length c) (hop_length c) (win_length c) (mel_channels c)
    (sample_rate c) (sample_bytes c) (channels c) (mel_fmin c) (mel_fmax c)
    (ref_level_db c) (spec_gain c) (signal_norm c) (min_level_db c) (max_norm c)
    (clip_norm c) (symmetric_norm c) (do_dynamic_range_compression c)
    (convert_db_to_amp c) b (trim_silence_db c).

(** The store of [stub_world] with one more mel spectrogram, at 5, whose
    entry lies above [max_norm]. *)
Definition overshoot_world (c : AudioConfig) : world (stub [[1]]) :=
  @mkWorld (stub [[1]]) (stub_heap c ++ [Array (Mat [[5]])]) 0 [].

Definition with_signal_norm (b : bool) (c : AudioConfig) : AudioConfig :=
  mkAudioConfig (filter_length c) (hop_length c) (win_length c) (mel_channels c)
    (sample_rate c) (sample_bytes c) (channels c) (mel_fmin c) (mel_fmax c)
    (ref_level_db c) (spec_gain c) b (min_level_db c) (max_norm c)
    (clip_norm c) (symmetric_norm c) (do_dynamic_range_compression c)
    (convert_db_to_amp c) (do_trim_silence c) (trim_silence_db c).

(** A store whose filterbank (at 1, one mel channel over two bins) and
    pseudo-inverse (at 2) belong to another [filter_length] than the one the
    library's transform works with, a mel spectrogram with two channels at 3
    and a waveform at 4. *)
Definition mismatch_world (c : AudioConfig) : world (stub [[1]]) :=
  @mkWorld (stub [[1]])
    [ Object (mkObject c (Some 1%nat) (Some 2%nat));
      Array (Mat [[1; 1]]);
      Array (Mat [[1]; [1]]);
      Array (Mat [[0]; [0]]);
      Array (Vec [0; 0; 0; 0; 0]) ] 0 [].

(** ** JSON values and [TrainingConfig.recursive_update]

    A parsed JSON document, as [json.load] returns it and [to_dict] builds it:
    a tree without sharing.  A Python [dict] keeps its keys in insertion
    order, each key once. *)

#[warnings="-register-all"]
Inductive json : Type :=
| JNull
| JBool (b : bool)
| JInt (z : Z)
| JFloat (x : R)
| JStr (s : string)
| JList (l : list json)
| JDict (items : list (string * json)).

(** [isinstance(v, collections.Mapping)], on an interpreter that has the
    name ([collections.Mapping] is [collections.abc.Mapping] up to Python
    3.9): of the values [json.load] builds, the dicts. *)
Definition is_mapping (v : json) : bool :=
  match v with JDict _ => true | _ => false end.

(** [d.get(k)]. *)
Fixpoint dict_get (k : string) (d : list (string * json)) : option json :=
  match d with
  | [] => None
  | (k', v) :: rest => if decide (k = k') then Some v else dict_get k rest
  end.

(** [d.get(k) is not None]. *)
Definition is_not_none (o : option json) : bool :=
  match o with
  | None | Some JNull => false
  | Some _ => true
  end.

(** [d[k] = v]: an existing key keeps its place, a new one goes last. *)
Fixpoint dict_set (k : string) (v : json) (d : list (string * json))
  : list (string * json) :=
  match d with
  | [] => [(k, v)]
  | (k', v') :: rest =>
      if decide (k = k') then (k', v) :: rest else (k', v') :: dict_set k v rest
  end.

Definition dict_keys (d : list (string * json)) : list string := map fst d.

(** [recursive_update(base_dict, new_dict)], as the value of [base_dict] once
    the call has returned (the method updates it in place and returns
    [None]).  [new_dict.items()] needs a mapping; [base_dict.get] and
    [base_dict[k] = v] need a [dict].  When the call raises, the keys already
    written stay written in Python; the result here does not say which. *)
Fixpoint recursive_update (base_dict new_dict : json) {struct new_dict}
  : result json :=
  match new_dict with
  | JDict items =>
      (fix loop (items : list (string * json)) (base_dict : json) {struct items}
         : result json :=
         match items with
         | [] => Ok base_dict
         | (k, v) :: rest =>
             match v with
             | JDict _ =>
                 match base_dict with
                 | JDict b =>
                     match dict_get k b with
                     | Some bk =>
                         if is_not_none (Some bk) then
                           match recursive_update bk v with
                           | Ok bk' => loop rest (JDict (dict_set k bk' b))
                           | Raise e => Raise e
                           end
                         else loop rest (JDict (dict_set k v b))
                     | None => loop rest (JDict (dict_set k v b))
                     end
                 | _ => Raise AttributeError
                 end
             | _ =>
                 match base_dict with
                 | JDict b => loop rest (JDict (dict_set k v b))
                 | _ => Raise TypeError
                 end
             end
         end) items base_dict
  | _ => Raise AttributeError
  end.

(** The loop of [load_and_merge] over the documents read from the
    configuration files, in order. *)
Fixpoint merge_all (base_dict : json) (docs : list json) : result json :=
  match docs with
  | [] => Ok base_dict
  | new_dict :: rest =>
      match recursive_update base_dict new_dict with
      | Ok base_dict' => merge_all base_dict' rest
      | Raise e => Raise e
      end
  end.

(** [load_and_merge(config, config_files)]; [to_dict] and [from_dict] are
    those of [dataclasses_json], and [docs] what [json.load] read from each
    file. *)
Definition load_and_merge {Cfg : Type} (to_dict : Cfg -> json)
    (from_dict : json -> result Cfg) (config : Cfg) (docs : list json)
  : result Cfg :=
  match merge_all (to_dict config) docs with
  | Ok base_dict => from_dict base_dict
  | Raise e => Raise e
  end.

(** Every [dict] of the tree has each key once. *)
#[warnings="-register-all"]
Inductive unique_keys : json -> Prop :=
| uk_null : unique_keys JNull
| uk_bool b : unique_keys (JBool b)
| uk_int z : unique_keys (JInt z)
| uk_float x : unique_keys (JFloat x)
| uk_str s : unique_keys (JStr s)
| uk_list l : Forall unique_keys l -> unique_keys (JList l)
| uk_dict items :
    NoDup (dict_keys items) ->
    Forall (fun kv => unique_keys kv.2) items ->
    unique_keys (JDict items).

(** The one step of the loop, on a [dict] base. *)
Definition update_key (b : list (string * json)) (k : string) (v : json)
  : result (list (string * json)) :=
  if is_mapping v && is_not_none (dict_get k b) then
    match dict_get k b with
    | Some bk =>
        match recursive_update bk v with
        | Ok bk' => Ok (dict_set k bk' b)
        | Raise e => Raise e
        end
    | None => Ok (dict_set k v b)
    end
  else Ok (dict_set k v b).

(** [new_dict] can be laid over [base_dict]: it is a mapping, and wherever one
    of its mappings meets a value of [base_dict] that is present and not
    [None], it can be laid over that value; on anything but a [dict] only the
    empty mapping can. *)
Fixpoint fits (base_dict new_dict : json) {struct new_dict} : bool :=
  match new_dict with
  | JDict items =>
      match base_dict with
      | JDict b =>
          (fix all (items : list (string * json)) : bool :=
             match items with
             | [] => true
             | (k, v) :: rest =>
                 (if is_mapping v then
                    match dict_get k b with
                    | Some bk => if is_not_none (Some bk) then fits bk v else true
                    | None => true
                    end
                  else true) && all rest
             end) items
      | _ => match items with [] => true | _ :: _ => false end
      end
  | _ => false
  end.

(** [unique_keys], as a check. *)
Fixpoint unique_keysb (j : json) : bool :=
  match j with
  | JList l =>
      (fix all (l : list json) : bool :=
         match l with
         | [] => true
         | x :: rest => unique_keysb x && all rest
         end) l
  | JDict items =>
      bool_decide (NoDup (dict_keys items)) &&
      (fix all (items : list (string * json)) : bool :=
         match items with
         | [] => true
         | (_, v) :: rest => unique_keysb v && all rest
         end) items
  | _ => true
  end.

(** A fragment of what [to_dict] gives for a [TrainingConfig], an overlay as
    [json.load] may read it, and the fragment with the overlay laid over it. *)
Definition example_base : list (string * json) :=
  [("seed", JInt 1234); ("best_loss", JNull);
   ("audio", JDict [("sample_rate", JInt 22050); ("mel_channels", JInt 80)])]%string.

Definition example_overlay : list (string * json) :=
  [("audio", JDict [("sample_rate", JInt 16000)]); ("seed", JInt 1);
   ("scheduler", JDict [])]%string.

Definition example_merged : list (string * json) :=
  [("seed", JInt 1); ("best_loss", JNull);
   ("audio", JDict [("sample_rate", JInt 16000); ("mel_channels", JInt 80)]);
   ("scheduler", JDict [])]%string.

(** An overlay that puts an object where the configuration has a number. *)
Definition example_clash : list (string * json) :=
  [("seed", JDict [("value", JInt 1)])]%string.

(** * Properties *)

(** ** The store and the monad *)

Section Store.
Context {L : Lib}.
Implicit Types (w : world L) (h : list cell).

Lemma grows_refl w : grows w w (rng w) [].
Proof. repeat split; [done | by rewrite app_nil_r]. Qed.

Lemma grows_trans w1 w2 w3 g2 g3 e1 e2 :
  grows w1 w2 g2 e1 -> grows w2 w3 g3 e2 -> grows w1 w3 g3 (e1 ++ e2).
Proof.
  intros (Hh1 & Hr1 & Ht1) (Hh2 & Hr2 & Ht2). repeat split.
  - by etrans.
  - done.
  - rewrite Ht2, Ht1. by rewrite app_assoc.
Qed.

(** Steps that leave the generator alone compose. *)
Lemma grows_quiet w1 w2 w3 e1 e2 e :
  grows w1 w2 (rng w1) e1 -> grows w2 w3 (rng w2) e2 -> e = e1 ++ e2 ->
  grows w1 w3 (rng w1) e.
Proof.
  intros G1 G2 ->. destruct (grows_trans _ _ _ _ _ _ _ G1 G2) as (Hh & Hr & Ht).
  destruct G1 as (_ & Hr1 & _). repeat split; [done| congruence |done].
Qed.

Lemma grows_alloc w c : grows w (set_heap (heap w ++ [c]) w) (rng w) [].
Proof. repeat split; simpl; [by apply prefix_app_r | by rewrite app_nil_r]. Qed.

Lemma grows_lookup w w' g evs l c :
  grows w w' g evs -> heap w !! l = Some c -> heap w' !! l = Some c.
Proof. intros (Hp & _) Hl. by eapply prefix_lookup_Some. Qed.

Lemma deref_prefix h h' l a :
  deref h l = Some a -> h `prefix_of` h' -> deref h' l = Some a.
Proof.
  unfold deref. intros Hd Hp.
  destruct (h !! l) as [c|] eqn:Hl; [|done].
  rewrite (prefix_lookup_Some _ _ _ _ Hl Hp).
  destruct c as [x|b off n|o]; try done.
  destruct (h !! b) as [cb|] eqn:Hb; [|done].
  by rewrite (prefix_lookup_Some _ _ _ _ Hb Hp).
Qed.

Lemma grows_deref w w' g evs l a :
  grows w w' g evs -> deref (heap w) l = Some a -> deref (heap w') l = Some a.
Proof. intros (Hp & _) Hd. by eapply deref_prefix. Qed.

Lemma deref_fresh h a : deref (h ++ [Array a]) (length h) = Some a.
Proof. unfold deref. by rewrite list_lookup_middle. Qed.

Lemma bind_ok {A B} (m : M L A) (k : A -> M L B) w a w' :
  m w = (Ok a, w') -> bind m k w = k a w'.
Proof. intros H. unfold bind. by rewrite H. Qed.

Lemma bind_raise {A B} (m : M L A) (k : A -> M L B) w e w' :
  m w = (Raise e, w') -> bind m k w = (Raise e, w').
Proof. intros H. unfold bind. by rewrite H. Qed.

Lemma getobj_ok self w o :
  heap w !! self = Some (Object o) -> getobj self w = (Ok o, w).
Proof. intros H. unfold getobj. by rewrite H. Qed.

Lemma getattr_ok {A} self (f : object -> option A) w o a :
  heap w !! self = Some (Object o) -> f o = Some a ->
  getattr self f w = (Ok a, w).
Proof.
  intros Hs Hf. unfold getattr.
  rewrite (bind_ok _ _ _ _ _ (getobj_ok _ _ _ Hs)). by rewrite Hf.
Qed.

Lemma load_ok l w a : deref (heap w) l = Some a -> load l w = (Ok a, w).
Proof. intros H. unfold load. by rewrite H. Qed.

Lemma load_vec_ok l w v :
  deref (heap w) l = Some (Vec v) -> load_vec l w = (Ok v, w).
Proof.
  intros H. unfold load_vec. by rewrite (bind_ok _ _ _ _ _ (load_ok _ _ _ H)).
Qed.

Lemma load_mat_ok l w m :
  deref (heap w) l = Some (Mat m) -> load_mat l w = (Ok m, w).
Proof.
  intros H. unfold load_mat. by rewrite (bind_ok _ _ _ _ _ (load_ok _ _ _ H)).
Qed.

Lemma load_cmat_ok l w m :
  deref (heap w) l = Some (CMat m) -> load_cmat l w = (Ok m, w).
Proof.
  intros H. unfold load_cmat. by rewrite (bind_ok _ _ _ _ _ (load_ok _ _ _ H)).
Qed.

(** An allocation returns the next free reference and changes nothing else. *)
Lemma alloc_run w a :
  exists w', alloc (Array a) w = (Ok (length (heap w)), w') /\
    deref (heap w') (length (heap w)) = Some a /\ grows w w' (rng w) [].
Proof.
  eexists. split; [reflexivity|]. split.
  - apply deref_fresh.
  - apply grows_alloc.
Qed.

End Store.

(** ** Computations that only allocate *)

Section Tidy.
Context {L : Lib}.
Implicit Types (w : world L) (h : list cell).

Lemma tidy_ret {A} (a : A) : tidy (L:=L) (ret a).
Proof.
  intros h g. exists (Ok a), h, g, []. split; [done|split; [constructor|]].
  intros t. by rewrite app_nil_r.
Qed.

Lemma tidy_lift {A} (r : result A) : tidy (L:=L) (lift r).
Proof.
  intros h g. exists r, h, g, []. split; [done|split; [constructor|]].
  intros t. by rewrite app_nil_r.
Qed.

Lemma tidy_raise {A} e : tidy (L:=L) (raise (A:=A) e).
Proof. apply (tidy_lift (Raise e)). Qed.

Lemma tidy_bind {A B} (m : M L A) (k : A -> M L B) :
  tidy m -> (forall a, tidy (k a)) -> tidy (bind m k).
Proof.
  intros Hm Hk h g.
  destruct (Hm h g) as (r & h1 & g1 & e1 & Hp1 & Hn1 & Hrun1).
  destruct r as [a|e].
  - destruct (Hk a h1 g1) as (r2 & h2 & g2 & e2 & Hp2 & Hn2 & Hrun2).
    exists r2, h2, g2, (e1 ++ e2). split; [|split].
    + by etrans.
    + by apply Forall_app.
    + intros t. unfold bind. rewrite Hrun1, Hrun2. by rewrite app_assoc.
  - exists (Raise e), h1, g1, e1. split; [done|split; [done|]].
    intros t. unfold bind. by rewrite Hrun1.
Qed.

Lemma tidy_alloc c : tidy (L:=L) (alloc c).
Proof.
  intros h g. exists (Ok (length h)), (h ++ [c]), g, [].
  split; [by apply prefix_app_r|split; [constructor|]].
  intros t. unfold alloc, set_heap. simpl. by rewrite app_nil_r.
Qed.

Lemma tidy_extern {A} ev (r : result A) : no_build ev -> tidy (L:=L) (extern ev r).
Proof.
  intros Hev h g. exists r, h, g, [ev]. split; [done|split; [by repeat constructor|done]].
Qed.

Lemma tidy_getobj self : tidy (L:=L) (getobj self).
Proof.
  intros h g.
  destruct (h !! self) as [[a|b off n|o]|] eqn:Hs.
  all: eexists _, h, g, []; split; [done|split; [constructor|]];
    intros t; unfold getobj; simpl; rewrite Hs, app_nil_r; reflexivity.
Qed.

Lemma tidy_load l : tidy (L:=L) (load l).
Proof.
  intros h g.
  destruct (deref h l) as [a|] eqn:Hd.
  all: eexists _, h, g, []; split; [done|split; [constructor|]];
    intros t; unfold load; simpl; rewrite Hd, app_nil_r; reflexivity.
Qed.

Lemma tidy_slice a start stop : tidy (L:=L) (slice a start stop).
Proof.
  intros h g. unfold slice. simpl.
  destruct (h !! a) as [[[v|m|m]|b off n|o]|] eqn:Ha.
  2,3,5,6: eexists _, h, g, []; split; [done|split; [constructor|]];
    intros t; rewrite app_nil_r; reflexivity.
  - exact (tidy_alloc _ h g).
  - destruct (h !! b) as [[[v|m|m]|b' off' n'|o]|] eqn:Hb.
    2-6: eexists _, h, g, []; split; [done|split; [constructor|]];
      intros t; rewrite app_nil_r; reflexivity.
    exact (tidy_alloc _ h g).
Qed.

Lemma tidy_rand r c : tidy (L:=L) (np_random_rand_global r c).
Proof.
  intros h g. unfold np_random_rand_global. simpl.
  destruct (np_random_rand L g r c) as [m s].
  exists (Ok m), h, s, [call_rand r c]. split; [done|split; [by repeat constructor|done]].
Qed.

End Tidy.

#[local] Hint Resolve tidy_ret tidy_lift tidy_raise tidy_alloc tidy_getobj
  tidy_load tidy_slice tidy_rand : tidy.
(* A computation is decomposed along its binds and case distinctions. *)
#[local] Hint Extern 1 (tidy (bind _ _)) => apply tidy_bind; [|intros ?] : tidy.
#[local] Hint Extern 1 (tidy (extern _ _)) => apply tidy_extern; exact I : tidy.
#[local] Hint Extern 2 (tidy (match ?x with _ => _ end)) => destruct x : tidy.
#[local] Hint Extern 3 (tidy _) => progress cbv zeta : tidy.

Lemma tidy_getattr {L : Lib} {A} self (f : object -> option A) :
  tidy (L:=L) (getattr self f).
Proof. unfold getattr. auto 20 with tidy. Qed.

Lemma tidy_load_vec {L : Lib} l : tidy (L:=L) (load_vec l).
Proof. unfold load_vec. auto 20 with tidy. Qed.

Lemma tidy_load_mat {L : Lib} l : tidy (L:=L) (load_mat l).
Proof. unfold load_mat. auto 20 with tidy. Qed.

Lemma tidy_load_cmat {L : Lib} l : tidy (L:=L) (load_cmat l).
Proof. unfold load_cmat. auto 20 with tidy. Qed.

#[local] Hint Resolve tidy_getattr tidy_load_vec tidy_load_mat tidy_load_cmat : tidy.

Lemma tidy_np_unary {L : Lib} f a : tidy (L:=L) (np_unary f a).
Proof. unfold np_unary. auto 20 with tidy. Qed.

Lemma tidy_np_abs {L : Lib} a : tidy (L:=L) (np_abs a).
Proof. unfold np_abs. auto 20 with tidy. Qed.

Lemma tidy_astype_complex {L : Lib} a : tidy (L:=L) (astype_complex a).
Proof. unfold astype_complex. auto 20 with tidy. Qed.

Lemma tidy_np_cmul {L : Lib} a b : tidy (L:=L) (np_cmul a b).
Proof. unfold np_cmul. auto 20 with tidy. Qed.

Lemma tidy_np_phase {L : Lib} s : tidy (L:=L) (np_phase s).
Proof. unfold np_phase. auto 20 with tidy. Qed.

Lemma tidy_len {L : Lib} a : tidy (L:=L) (len a).
Proof. unfold len. auto 20 with tidy. Qed.

#[local] Hint Resolve tidy_np_unary tidy_np_abs tidy_astype_complex tidy_np_cmul
  tidy_np_phase tidy_len : tidy.

Lemma tidy_linear_to_mel {L : Lib} self linear :
  tidy (L:=L) (linear_to_mel self linear).
Proof. unfold linear_to_mel. auto 20 with tidy. Qed.

Lemma tidy_mel_to_linear {L : Lib} self mel_amp threshold :
  tidy (L:=L) (mel_to_linear self mel_amp threshold).
Proof. unfold mel_to_linear. auto 20 with tidy. Qed.

Lemma tidy_amp_to_db {L : Lib} self mel_amp threshold :
  tidy (L:=L) (amp_to_db self mel_amp threshold).
Proof. unfold amp_to_db. auto 20 with tidy. Qed.

Lemma tidy_db_to_amp {L : Lib} self mel_db power :
  tidy (L:=L) (db_to_amp self mel_db power).
Proof. unfold db_to_amp. auto 20 with tidy. Qed.

Lemma tidy_stft {L : Lib} self wav : tidy (L:=L) (stft self wav).
Proof. unfold stft. auto 20 with tidy. Qed.

Lemma tidy_istft {L : Lib} self linear : tidy (L:=L) (istft self linear).
Proof. unfold istft. auto 20 with tidy. Qed.

Lemma tidy_normalize {L : Lib} self mel_db : tidy (L:=L) (normalize self mel_db).
Proof. unfold normalize. auto 20 with tidy. Qed.

#[local] Hint Resolve tidy_linear_to_mel tidy_mel_to_linear tidy_amp_to_db
  tidy_db_to_amp tidy_stft tidy_istft tidy_normalize : tidy.

Lemma tidy_griffin_lim_loop {L : Lib} n self lc audio :
  tidy (L:=L) (griffin_lim_loop n self lc audio).
Proof.
  revert audio. induction n as [|n IH]; intros audio; simpl; auto 20 with tidy.
Qed.

#[local] Hint Resolve tidy_griffin_lim_loop : tidy.

Lemma tidy_griffin_lim {L : Lib} self linear num_iters :
  tidy (L:=L) (griffin_lim self linear num_iters).
Proof. unfold griffin_lim. auto 30 with tidy. Qed.

Lemma tidy_trim_silence {L : Lib} self wav trim_db margin_sec keep_sec :
  tidy (L:=L) (trim_silence self wav trim_db margin_sec keep_sec).
Proof. unfold trim_silence. auto 30 with tidy. Qed.

#[local] Hint Resolve tidy_griffin_lim tidy_trim_silence : tidy.

(** ** The in-place addition of [denormalize] *)

Section InPlace.
Context {L : Lib}.
Implicit Types (w : world L) (h : list cell).

Lemma is_real_amap f a : is_real (amap f a) = is_real a.
Proof. by destruct a. Qed.

Lemma np_unary_eq f a w :
  np_unary f a w =
  match deref (heap w) a with
  | Some x =>
      if is_real x
      then (Ok (length (heap w)), set_heap (heap w ++ [Array (amap f x)]) w)
      else (Raise TypeError, w)
  | None => (Raise TypeError, w)
  end.
Proof.
  unfold np_unary, bind, load.
  destruct (deref (heap w) a) as [x|]; [|done]. by destruct (is_real x).
Qed.

Lemma np_iadd_array a x w y :
  heap w !! a = Some (Array y) -> is_real y = true ->
  np_iadd a x w
  = (Ok tt, set_heap (<[a := Array (amap (fun v => v + x) y)]> (heap w)) w).
Proof. intros Ha Hy. unfold np_iadd. by rewrite Ha, Hy. Qed.

Lemma insert_last h (c c' : cell) : <[length h := c']> (h ++ [c]) = h ++ [c'].
Proof.
  rewrite insert_app_r_alt by lia. by rewrite Nat.sub_diag.
Qed.

Lemma clip_scale_shift_eq b f1 f2 x mel_db w :
  clip_scale_shift b f1 f2 x mel_db w =
  if b then
    match deref (heap w) mel_db with
    | Some y =>
        if is_real y then
          (Ok (S (length (heap w))),
           set_heap (heap w ++ [Array (amap f1 y);
                                Array (amap (fun v => v + x) (amap f2 (amap f1 y)))]) w)
        else (Raise TypeError, w)
    | None => (Raise TypeError, w)
    end
  else (Raise UnboundLocalError, w).
Proof.
  unfold clip_scale_shift. destruct b; [|done].
  unfold bind at 1 2 3. rewrite np_unary_eq.
  destruct (deref (heap w) mel_db) as [y|] eqn:Hd; [|done].
  destruct (is_real y) eqn:Hy; [|done].
  unfold ret, lift, read_local. unfold bind. rewrite np_unary_eq. simpl.
  rewrite deref_fresh, is_real_amap, Hy.
  erewrite np_iadd_array.
  - unfold set_heap. simpl. rewrite length_app. simpl.
    replace (length (heap w) + 1)%nat with (S (length (heap w))) by lia.
    f_equal. f_equal.
    replace (S (length (heap w))) with (length (heap w ++ [Array (amap f1 y)]))
      by (rewrite length_app; simpl; lia).
    rewrite insert_last. by rewrite <- app_assoc.
  - simpl. rewrite length_app. simpl.
    replace (length (heap w) + 1)%nat with (length (heap w ++ [Array (amap f1 y)]))
      by (rewrite length_app; simpl; lia).
    apply list_lookup_middle. done.
  - by rewrite !is_real_amap.
Qed.

Lemma tidy_clip_scale_shift b f1 f2 x mel_db :
  tidy (L:=L) (clip_scale_shift b f1 f2 x mel_db).
Proof.
  intros h g.
  pose proof (fun t => clip_scale_shift_eq b f1 f2 x mel_db (mkWorld h g t)) as E.
  simpl in E.
  destruct b; [destruct (deref h mel_db) as [y|]; [destruct (is_real y)|]|].
  2-4: eexists _, h, g, []; split; [done|split; [constructor|]];
    intros t; rewrite E, app_nil_r; reflexivity.
  eexists _, _, g, []; split; [|split; [constructor|]].
  2: intros t; rewrite E, app_nil_r; reflexivity.
  by apply prefix_app_r.
Qed.

Lemma denormalize_eq self mel_db w :
  denormalize self mel_db w =
  match heap w !! self with
  | Some (Object o) =>
      let c := fields o in
      if symmetric_norm c then
        clip_scale_shift (clip_norm c)
          (fun x => np_clip x (- max_norm c) (max_norm c))
          (fun x => ((x + max_norm c) * - min_level_db c / (2 * max_norm c))
                    + min_level_db c)
          (ref_level_db c) mel_db w
      else
        clip_scale_shift (clip_norm c)
          (fun x => np_clip x 0 (max_norm c))
          (fun x => (x * - min_level_db c / max_norm c) + min_level_db c)
          (ref_level_db c) mel_db w
  | _ => (Raise TypeError, w)
  end.
Proof.
  unfold denormalize. unfold bind at 1. unfold getobj.
  destruct (heap w !! self) as [[a|b off n|o]|]; try done.
  simpl. by destruct (symmetric_norm (fields o)).
Qed.

Lemma tidy_denormalize self mel_db : tidy (L:=L) (denormalize self mel_db).
Proof.
  intros h g.
  pose proof (fun t => denormalize_eq self mel_db (mkWorld h g t)) as E.
  simpl in E.
  destruct (h !! self) as [[a|b off n|o]|].
  1,2,4: eexists _, h, g, []; split; [done|split; [constructor|]];
    intros t; rewrite E, app_nil_r; reflexivity.
  simpl in E. destruct (symmetric_norm (fields o)).
  - destruct (tidy_clip_scale_shift (clip_norm (fields o))
      (fun x => np_clip x (- max_norm (fields o)) (max_norm (fields o)))
      (fun x => ((x + max_norm (fields o)) * - min_level_db (fields o)
                   / (2 * max_norm (fields o))) + min_level_db (fields o))
      (ref_level_db (fields o)) mel_db h g) as (r & h' & g' & evs & Hp & Hn & Hr).
    exists r, h', g', evs. split; [done|split; [done|]].
    intros t. by rewrite E, Hr.
  - destruct (tidy_clip_scale_shift (clip_norm (fields o))
      (fun x => np_clip x 0 (max_norm (fields o)))
      (fun x => (x * - min_level_db (fields o) / max_norm (fields o))
                + min_level_db (fields o))
      (ref_level_db (fields o)) mel_db h g) as (r & h' & g' & evs & Hp & Hn & Hr).
    exists r, h', g', evs. split; [done|split; [done|]].
    intros t. by rewrite E, Hr.
Qed.

End InPlace.

#[local] Hint Resolve tidy_denormalize : tidy.

Section Facade.
Context {L : Lib}.

Lemma tidy_wav2mel self wav : tidy (L:=L) (wav2mel self wav).
Proof. unfold wav2mel. auto 30 with tidy. Qed.

Lemma tidy_mel2wav self mel_db num_iters power :
  tidy (L:=L) (mel2wav self mel_db num_iters power).
Proof. unfold mel2wav. auto 30 with tidy. Qed.

End Facade.

(** ** Results are new cells *)

Section Fresh.
Context {L : Lib}.
Implicit Types (w : world L) (h : list cell).

Lemma tidy_heap_length {A} (m : M L A) w :
  tidy m -> (length (heap w) <= length (heap (m w).2))%nat.
Proof.
  intros Hm. destruct w as [h g t].
  destruct (Hm h g) as (r & h' & g' & evs & Hp & _ & Hr).
  rewrite Hr. simpl. by apply prefix_length.
Qed.

Lemma fresh_above_alloc k c : fresh_above (L:=L) k (alloc c).
Proof. intros w l Hk Hl. simpl in Hl. injection Hl as <-. exact Hk. Qed.

Lemma fresh_above_ret k l : (k <= l)%nat -> fresh_above (L:=L) k (ret l).
Proof. intros Hkl w l' _ Hl. injection Hl as <-. exact Hkl. Qed.

Lemma fresh_above_raise k e : fresh_above (L:=L) k (raise e).
Proof. intros w l _ Hl. discriminate Hl. Qed.

Lemma fresh_above_bind {A} k (m : M L A) (f : A -> M L loc) :
  tidy m -> (forall a, fresh_above k (f a)) -> fresh_above k (bind m f).
Proof.
  intros Hm Hf w l Hk Hl.
  pose proof (tidy_heap_length m w Hm) as Hlen.
  unfold bind in Hl. destruct (m w) as [[a|e] w1]; [|discriminate Hl].
  apply (Hf a w1 l); [simpl in Hlen; lia | exact Hl].
Qed.

Lemma fresh_above_bind_loc k (m : M L loc) (f : loc -> M L loc) :
  tidy m -> fresh_above k m ->
  (forall a, (k <= a)%nat -> fresh_above k (f a)) -> fresh_above k (bind m f).
Proof.
  intros Hm Hfm Hf w l Hk Hl.
  pose proof (tidy_heap_length m w Hm) as Hlen.
  pose proof (Hfm w) as Hres.
  unfold bind in Hl. destruct (m w) as [[a|e] w1]; [|discriminate Hl].
  apply (Hf a (Hres a Hk eq_refl) w1 l); [simpl in Hlen; lia | exact Hl].
Qed.

Lemma fresh_above_np_unary k f a : fresh_above (L:=L) k (np_unary f a).
Proof.
  unfold np_unary. apply fresh_above_bind; [solve [auto 30 with tidy]|].
  intros x. destruct (is_real x);
    [apply fresh_above_alloc | apply fresh_above_raise].
Qed.

Lemma fresh_above_istft k self linear : fresh_above (L:=L) k (istft self linear).
Proof.
  unfold istft. repeat (apply fresh_above_bind; [solve [auto 30 with tidy]|intros ?]).
  apply fresh_above_alloc.
Qed.

Lemma fresh_above_griffin_lim_loop k n self lc audio :
  (k <= audio)%nat -> fresh_above (L:=L) k (griffin_lim_loop n self lc audio).
Proof.
  revert audio. induction n as [|n IH]; intros audio Ha; simpl.
  - by apply fresh_above_ret.
  - do 3 (apply fresh_above_bind; [solve [auto 30 with tidy]|intros ?]).
    apply fresh_above_bind_loc; [solve [auto 30 with tidy]|apply fresh_above_istft|].
    intros a' Ha'. by apply IH.
Qed.

Lemma fresh_above_griffin_lim k self linear num_iters :
  fresh_above (L:=L) k (griffin_lim self linear num_iters).
Proof.
  unfold griffin_lim.
  do 6 (apply fresh_above_bind; [solve [auto 30 with tidy]|intros ?]).
  apply fresh_above_bind_loc; [solve [auto 30 with tidy]|apply fresh_above_istft|].
  intros a' Ha'. by apply fresh_above_griffin_lim_loop.
Qed.

Lemma fresh_above_amp_to_db k self mel_amp threshold :
  fresh_above (L:=L) k (amp_to_db self mel_amp threshold).
Proof.
  unfold amp_to_db. apply fresh_above_bind; [solve [auto 30 with tidy]|intros ?].
  apply fresh_above_np_unary.
Qed.

Lemma fresh_above_normalize k self mel_db :
  fresh_above (L:=L) k (normalize self mel_db).
Proof.
  unfold normalize. apply fresh_above_bind; [solve [auto 30 with tidy]|intros ?].
  apply fresh_above_np_unary.
Qed.

Lemma fresh_above_wav2mel k self wav : fresh_above (L:=L) k (wav2mel self wav).
Proof.
  unfold wav2mel.
  do 5 (apply fresh_above_bind; [solve [auto 30 with tidy]|intros ?]).
  apply fresh_above_bind_loc; [solve [auto 30 with tidy]|apply fresh_above_amp_to_db|].
  intros mel_db Hm.
  match goal with |- context [signal_norm ?c] => destruct (signal_norm c) end.
  - apply fresh_above_normalize.
  - by apply fresh_above_ret.
Qed.

Lemma fresh_above_mel2wav k self mel_db num_iters power :
  fresh_above (L:=L) k (mel2wav self mel_db num_iters power).
Proof.
  unfold mel2wav.
  do 5 (apply fresh_above_bind; [solve [auto 30 with tidy]|intros ?]).
  apply fresh_above_griffin_lim.
Qed.

End Fresh.

(** ** C10: [wav2mel] and [mel2wav] write to nothing that existed before *)

Section Frame.
Context {L : Lib}.

Lemma tidy_run {A} (m : M L A) (w : world L) :
  tidy m ->
  heap w `prefix_of` heap (m w).2 /\
  exists evs, trace (m w).2 = trace w ++ evs /\ Forall no_build evs.
Proof.
  intros Hm. destruct w as [h g t].
  destruct (Hm h g) as (r & h' & g' & evs & Hp & Hn & Hr).
  rewrite Hr. simpl. split; [done|]. by exists evs.
Qed.

(** C10. Whatever the arguments and whatever the outcome, after [wav2mel] and
    after [mel2wav] every cell of the store the call started from -- the input
    array, the instance with its fields, the filterbank and its pseudo-inverse
    -- is where and what it was; neither call asks the library for a
    filterbank or a pseudo-inverse again; and a returned array is a cell the
    call allocated. *)
Theorem wav2mel_mel2wav_frame (self x : loc) (num_iters : Z) (power : R)
    (w : world L) :
  let w1 := (wav2mel self x w).2 in
  let w2 := (mel2wav self x num_iters power w).2 in
  (forall l c, heap w !! l = Some c ->
     heap w1 !! l = Some c /\ heap w2 !! l = Some c) /\
  (exists e1 e2, trace w1 = trace w ++ e1 /\ trace w2 = trace w ++ e2 /\
     Forall no_build (e1 ++ e2)) /\
  (forall l, (wav2mel self x w).1 = Ok l \/
             (mel2wav self x num_iters power w).1 = Ok l ->
     (length (heap w) <= l)%nat).
Proof.
  intros w1 w2.
  destruct (tidy_run _ w (tidy_wav2mel self x)) as (Hp1 & e1 & Ht1 & Hn1).
  destruct (tidy_run _ w (tidy_mel2wav self x num_iters power))
    as (Hp2 & e2 & Ht2 & Hn2).
  split; [|split].
  - intros l c Hl. split; by eapply prefix_lookup_Some.
  - exists e1, e2. split; [done|split; [done|]]. by apply Forall_app.
  - intros l [Hl|Hl].
    + by apply (fresh_above_wav2mel _ self x w l).
    + by apply (fresh_above_mel2wav _ self x num_iters power w l).
Qed.

End Frame.

(** ** What the methods return *)

Section Runs.
Context {L : Lib}.
Implicit Types (w : world L) (h : list cell).

Lemma extern_run {A} ev (a : A) w :
  exists w', extern ev (Ok a) w = (Ok a, w') /\
    heap w' = heap w /\ grows w w' (rng w) [ev].
Proof.
  eexists. split; [reflexivity|]. split; [done|]. by repeat split.
Qed.

Lemma np_unary_run f a w x :
  deref (heap w) a = Some x -> is_real x = true ->
  exists l w', np_unary f a w = (Ok l, w') /\
    deref (heap w') l = Some (amap f x) /\ grows w w' (rng w) [].
Proof.
  intros Hd Hr. rewrite np_unary_eq, Hd, Hr.
  eexists _, _. split; [reflexivity|].
  split; [apply deref_fresh | apply grows_alloc].
Qed.

Lemma np_abs_cmat_run a w s :
  deref (heap w) a = Some (CMat s) ->
  exists l w', np_abs a w = (Ok l, w') /\
    deref (heap w') l = Some (Mat (mmap Cabs s)) /\ grows w w' (rng w) [].
Proof.
  intros Hd. unfold np_abs. rewrite (bind_ok _ _ _ _ _ (load_ok _ _ _ Hd)).
  eexists _, _. split; [reflexivity|].
  split; [apply deref_fresh | apply grows_alloc].
Qed.

Lemma np_abs_mat_run a w m :
  deref (heap w) a = Some (Mat m) ->
  exists l w', np_abs a w = (Ok l, w') /\
    deref (heap w') l = Some (Mat (mmap Rabs m)) /\ grows w w' (rng w) [].
Proof.
  intros Hd. unfold np_abs. rewrite (bind_ok _ _ _ _ _ (load_ok _ _ _ Hd)).
  eexists _, _. split; [reflexivity|].
  split; [apply deref_fresh | apply grows_alloc].
Qed.

Lemma astype_complex_run a w m :
  deref (heap w) a = Some (Mat m) ->
  exists l w', astype_complex a w = (Ok l, w') /\
    deref (heap w') l = Some (CMat (mmap of_real m)) /\ grows w w' (rng w) [].
Proof.
  intros Hd. unfold astype_complex.
  rewrite (bind_ok _ _ _ _ _ (load_ok _ _ _ Hd)).
  eexists _, _. split; [reflexivity|].
  split; [apply deref_fresh | apply grows_alloc].
Qed.

Lemma np_cmul_run a b w x y :
  deref (heap w) a = Some (CMat x) -> deref (heap w) b = Some (CMat y) ->
  shape x = shape y ->
  exists l w', np_cmul a b w = (Ok l, w') /\
    deref (heap w') l = Some (CMat (mzip Cmul x y)) /\ grows w w' (rng w) [].
Proof.
  intros Ha Hb Hs. unfold np_cmul.
  rewrite (bind_ok _ _ _ _ _ (load_cmat_ok _ _ _ Ha)).
  rewrite (bind_ok _ _ _ _ _ (load_cmat_ok _ _ _ Hb)).
  unfold same_shape. rewrite bool_decide_eq_true_2 by exact Hs.
  eexists _, _. split; [reflexivity|].
  split; [apply deref_fresh | apply grows_alloc].
Qed.

Lemma np_phase_run a w s :
  deref (heap w) a = Some (CMat s) ->
  exists l w', np_phase a w = (Ok l, w') /\
    deref (heap w') l = Some (CMat (phase_of s)) /\ grows w w' (rng w) [].
Proof.
  intros Hd. unfold np_phase.
  rewrite (bind_ok _ _ _ _ _ (load_cmat_ok _ _ _ Hd)).
  eexists _, _. split; [reflexivity|].
  split; [apply deref_fresh | apply grows_alloc].
Qed.

Lemma stft_run self wav w o y s :
  heap w !! self = Some (Object o) ->
  deref (heap w) wav = Some (Vec y) ->
  librosa_stft L y (filter_length (fields o)) (hop_length (fields o))
    (win_length (fields o)) = Ok s ->
  exists l w', stft self wav w = (Ok l, w') /\
    deref (heap w') l = Some (CMat s) /\ grows w w' (rng w) [call_stft y].
Proof.
  intros Hself Hwav Hlib. unfold stft.
  rewrite (bind_ok _ _ _ _ _ (getobj_ok _ _ _ Hself)).
  rewrite (bind_ok _ _ _ _ _ (load_vec_ok _ _ _ Hwav)).
  rewrite Hlib.
  destruct (extern_run (call_stft y) s w) as (w1 & E1 & Hh1 & G1).
  rewrite (bind_ok _ _ _ _ _ E1).
  destruct (alloc_run w1 (CMat s)) as (w2 & E2 & D2 & G2).
  exists (length (heap w1)), w2. split; [exact E2|]. split; [exact D2|].
  by eapply grows_quiet.
Qed.

Lemma istft_run self linear w o s y :
  heap w !! self = Some (Object o) ->
  deref (heap w) linear = Some (CMat s) ->
  librosa_istft L s (hop_length (fields o)) (win_length (fields o)) = Ok y ->
  exists l w', istft self linear w = (Ok l, w') /\
    deref (heap w') l = Some (Vec y) /\ grows w w' (rng w) [call_istft s].
Proof.
  intros Hself Hlin Hlib. unfold istft.
  rewrite (bind_ok _ _ _ _ _ (getobj_ok _ _ _ Hself)).
  rewrite (bind_ok _ _ _ _ _ (load_cmat_ok _ _ _ Hlin)).
  rewrite Hlib.
  destruct (extern_run (call_istft s) y w) as (w1 & E1 & Hh1 & G1).
  rewrite (bind_ok _ _ _ _ _ E1).
  destruct (alloc_run w1 (Vec y)) as (w2 & E2 & D2 & G2).
  exists (length (heap w1)), w2. split; [exact E2|]. split; [exact D2|].
  by eapply grows_quiet.
Qed.

Lemma stft_raise self wav w o y e :
  heap w !! self = Some (Object o) ->
  deref (heap w) wav = Some (Vec y) ->
  librosa_stft L y (filter_length (fields o)) (hop_length (fields o))
    (win_length (fields o)) = Raise e ->
  exists w', stft self wav w = (Raise e, w') /\ grows w w' (rng w) [call_stft y].
Proof.
  intros Hself Hwav Hlib. unfold stft.
  rewrite (bind_ok _ _ _ _ _ (getobj_ok _ _ _ Hself)).
  rewrite (bind_ok _ _ _ _ _ (load_vec_ok _ _ _ Hwav)).
  rewrite Hlib. eexists. split; [reflexivity|]. by repeat split.
Qed.

Lemma linear_to_mel_run self linear w o b m x d :
  heap w !! self = Some (Object o) -> _mel_basis o = Some b ->
  deref (heap w) b = Some (Mat m) -> deref (heap w) linear = Some (Mat x) ->
  np_dot m x = Ok d ->
  exists l w', linear_to_mel self linear w = (Ok l, w') /\
    deref (heap w') l = Some (Mat d) /\ grows w w' (rng w) [].
Proof.
  intros Hself Hb Hm Hx Hd. unfold linear_to_mel.
  rewrite (bind_ok _ _ _ _ _ (getattr_ok _ _ _ _ _ Hself Hb)).
  rewrite (bind_ok _ _ _ _ _ (load_mat_ok _ _ _ Hm)).
  rewrite (bind_ok _ _ _ _ _ (load_mat_ok _ _ _ Hx)).
  rewrite Hd. unfold lift, bind.
  destruct (alloc_run w (Mat d)) as (w2 & E2 & D2 & G2). eauto.
Qed.

Lemma mel_to_linear_run self mel_amp threshold w o b m x d :
  heap w !! self = Some (Object o) -> _inv_mel_basis o = Some b ->
  deref (heap w) b = Some (Mat m) -> deref (heap w) mel_amp = Some (Mat x) ->
  np_dot m x = Ok d ->
  exists l w', mel_to_linear self mel_amp threshold w = (Ok l, w') /\
    deref (heap w') l = Some (Mat (mmap (np_maximum threshold) d)) /\
    grows w w' (rng w) [].
Proof.
  intros Hself Hb Hm Hx Hd. unfold mel_to_linear.
  rewrite (bind_ok _ _ _ _ _ (getattr_ok _ _ _ _ _ Hself Hb)).
  rewrite (bind_ok _ _ _ _ _ (load_mat_ok _ _ _ Hm)).
  rewrite (bind_ok _ _ _ _ _ (load_mat_ok _ _ _ Hx)).
  rewrite Hd. unfold lift, bind.
  destruct (alloc_run w (Mat (mmap (np_maximum threshold) d)))
    as (w2 & E2 & D2 & G2). eauto.
Qed.

Lemma amp_to_db_run self mel_amp threshold w o x :
  heap w !! self = Some (Object o) ->
  deref (heap w) mel_amp = Some x -> is_real x = true ->
  exists l w', amp_to_db self mel_amp threshold w = (Ok l, w') /\
    deref (heap w') l
    = Some (amap (fun v => Scalar.amp_to_db (fields o) v threshold) x) /\
    grows w w' (rng w) [].
Proof.
  intros Hself Hx Hr. unfold amp_to_db.
  rewrite (bind_ok _ _ _ _ _ (getobj_ok _ _ _ Hself)).
  by apply np_unary_run.
Qed.

Lemma db_to_amp_run self mel_db power w o x :
  heap w !! self = Some (Object o) ->
  deref (heap w) mel_db = Some x -> is_real x = true ->
  exists l w', db_to_amp self mel_db power w = (Ok l, w') /\
    deref (heap w') l
    = Some (amap (fun v => Scalar.db_to_amp (fields o) v power) x) /\
    grows w w' (rng w) [].
Proof.
  intros Hself Hx Hr. unfold db_to_amp.
  rewrite (bind_ok _ _ _ _ _ (getobj_ok _ _ _ Hself)).
  by apply np_unary_run.
Qed.

Lemma normalize_run self mel_db w o x :
  heap w !! self = Some (Object o) ->
  deref (heap w) mel_db = Some x -> is_real x = true ->
  exists l w', normalize self mel_db w = (Ok l, w') /\
    deref (heap w') l = Some (amap (Scalar.normalize (fields o)) x) /\
    grows w w' (rng w) [].
Proof.
  intros Hself Hx Hr. unfold normalize.
  rewrite (bind_ok _ _ _ _ _ (getobj_ok _ _ _ Hself)).
  by apply np_unary_run.
Qed.

End Runs.

(** ** Slices *)

Section Slices.
Context {L : Lib}.
Implicit Types (w : world L) (h : list cell).

Lemma slice_index_range len i :
  (0 <= len)%Z -> (0 <= slice_index len i <= len)%Z.
Proof. intros Hlen. unfold slice_index. destruct (i <? 0)%Z eqn:E; lia. Qed.

(** A slice lies inside the sequence it is taken from. *)
Lemma slice_bounds_inside len start stop :
  (0 <= len)%Z ->
  ((slice_bounds len start stop).1 + (slice_bounds len start stop).2
   <= Z.to_nat len)%nat.
Proof.
  intros Hlen. unfold slice_bounds. simpl.
  pose proof (slice_index_range len start Hlen).
  pose proof (slice_index_range len stop Hlen). lia.
Qed.

Lemma length_window {A} off n (l : list A) :
  length (window off n l) = Nat.min n (length l - off).
Proof. unfold window. by rewrite length_take, length_drop. Qed.

Lemma length_py_slice {A} (l : list A) start stop :
  (length (py_slice l start stop) <= length l)%nat.
Proof.
  unfold py_slice.
  destruct (slice_bounds (Z.of_nat (length l)) start stop) as [off n].
  rewrite length_window. lia.
Qed.

Lemma window_window {A} o k off n (l : list A) :
  (off + n <= length (window o k l))%nat ->
  window (o + off) n l = window off n (window o k l).
Proof.
  rewrite length_window. intros Hle. unfold window.
  rewrite <- drop_drop, skipn_firstn_comm, take_take.
  f_equal. lia.
Qed.

Lemma slice_run a start stop w v :
  deref (heap w) a = Some (Vec v) ->
  exists l w', slice a start stop w = (Ok l, w') /\
    deref (heap w') l = Some (Vec (py_slice v start stop)) /\
    grows w w' (rng w) [].
Proof.
  unfold deref, slice. intros Hd.
  destruct (heap w !! a) as [[[v0|m|m]|b o k|ob]|] eqn:Ha; try done.
  - injection Hd as ->.
    destruct (slice_bounds (Z.of_nat (length v)) start stop) as [off n] eqn:Hsb.
    eexists _, _. split; [reflexivity|]. split; [|apply grows_alloc].
    simpl. rewrite list_lookup_middle by done.
    rewrite (lookup_app_l_Some _ _ _ _ Ha).
    unfold py_slice. by rewrite Hsb.
  - destruct (heap w !! b) as [[[vb|m|m]|b' o' k'|ob]|] eqn:Hb; try done.
    injection Hd as <-.
    pose proof (slice_bounds_inside (Z.of_nat (length (window o k vb))) start stop
                  ltac:(lia)) as Hin.
    destruct (slice_bounds (Z.of_nat (length (window o k vb))) start stop)
      as [off n] eqn:Hsb.
    eexists _, _. split; [reflexivity|]. split; [|apply grows_alloc].
    simpl. rewrite list_lookup_middle by done.
    rewrite (lookup_app_l_Some _ _ _ _ Hb).
    unfold py_slice. rewrite Hsb. simpl in Hin.
    rewrite (window_window o k off n vb) by lia. done.
Qed.

Lemma len_ok a w v :
  deref (heap w) a = Some (Vec v) -> len a w = (Ok (Z.of_nat (length v)), w).
Proof.
  intros Hd. unfold len. by rewrite (bind_ok _ _ _ _ _ (load_vec_ok _ _ _ Hd)).
Qed.

(** [trim_silence] when the library's trimmer returns an interval. *)
Lemma trim_silence_run self wav trim_db margin_sec keep_sec w o v t0 t1 :
  heap w !! self = Some (Object o) ->
  deref (heap w) wav = Some (Vec v) ->
  let c := fields o in
  let margin := py_int (IZR (sample_rate c) * margin_sec) in
  let keep := py_int (IZR (sample_rate c) * keep_sec) in
  let y := py_slice v margin (- margin) in
  librosa_effects_trim L y trim_db (win_length c) (hop_length c) = Ok (t0, t1) ->
  exists l w', trim_silence self wav trim_db margin_sec keep_sec w = (Ok l, w') /\
    deref (heap w') l
    = Some (Vec (py_slice y (Z.max 0 (t0 - keep))
                   (Z.min (Z.of_nat (length y)) (t1 + keep)))) /\
    grows w w' (rng w) [call_trim y].
Proof.
  intros Hself Hwav c margin keep y Hlib. unfold trim_silence.
  rewrite (bind_ok _ _ _ _ _ (getobj_ok _ _ _ Hself)).
  destruct (slice_run wav margin (- margin) w v Hwav) as (l1 & w1 & E1 & D1 & G1).
  fold c margin. rewrite (bind_ok _ _ _ _ _ E1).
  rewrite (bind_ok _ _ _ _ _ (load_vec_ok _ _ _ D1)).
  fold y. rewrite Hlib.
  destruct (extern_run (call_trim y) (t0, t1) w1) as (w2 & E2 & Hh2 & G2).
  rewrite (bind_ok _ _ _ _ _ E2).
  assert (D2 : deref (heap w2) l1 = Some (Vec y)) by (by rewrite Hh2).
  rewrite (bind_ok _ _ _ _ _ (len_ok _ _ _ D2)).
  destruct (slice_run l1 (Z.max 0 (t0 - keep))
              (Z.min (Z.of_nat (length y)) (t1 + keep)) w2 y D2)
    as (l3 & w3 & E3 & D3 & G3).
  exists l3, w3. split; [exact E3|]. split; [exact D3|].
  eapply grows_quiet; [exact G1| |reflexivity].
  by eapply grows_quiet.
Qed.

(** ... and when it raises. *)
Lemma trim_silence_raise self wav trim_db margin_sec keep_sec w o v e :
  heap w !! self = Some (Object o) ->
  deref (heap w) wav = Some (Vec v) ->
  let c := fields o in
  let margin := py_int (IZR (sample_rate c) * margin_sec) in
  librosa_effects_trim L (py_slice v margin (- margin)) trim_db
    (win_length c) (hop_length c) = Raise e ->
  (trim_silence self wav trim_db margin_sec keep_sec w).1 = Raise e.
Proof.
  intros Hself Hwav c margin Hlib. unfold trim_silence.
  rewrite (bind_ok _ _ _ _ _ (getobj_ok _ _ _ Hself)).
  destruct (slice_run wav margin (- margin) w v Hwav) as (l1 & w1 & E1 & D1 & G1).
  fold c margin. rewrite (bind_ok _ _ _ _ _ E1).
  rewrite (bind_ok _ _ _ _ _ (load_vec_ok _ _ _ D1)).
  rewrite Hlib. reflexivity.
Qed.

End Slices.

(** ** C4: [trim_silence] *)

Section TrimSilence.
Context {L : Lib}.

Lemma py_int_eq (z : Z) (x : R) :
  0 <= x -> IZR z <= x < IZR z + 1 -> py_int x = z.
Proof.
  intros Hx Hz. unfold py_int.
  destruct (Rle_dec 0 x) as [_|Hn]; [|contradiction].
  by apply Zfloor_eq.
Qed.

(** A margin of at least half the samples leaves nothing. *)
Lemma py_slice_margin_empty {A} (v : list A) (margin : Z) :
  (Z.of_nat (length v) <= 2 * margin)%Z -> py_slice v margin (- margin) = [].
Proof.
  intros Hm. unfold py_slice, slice_bounds, slice_index, window.
  destruct (margin <? 0)%Z eqn:E1; [lia|].
  destruct (- margin <? 0)%Z eqn:E2.
  - replace (Z.to_nat _) with 0%nat by lia. apply take_0.
  - replace (Z.to_nat (Z.min (- margin) _ - _)) with 0%nat by lia. apply take_0.
Qed.

(** C4, as the code has it. [trim_silence] checks nothing itself: it strips
    [int(sample_rate * margin_sec)] samples from both ends by slicing (which
    leaves an empty signal, not an error, when the margin is at least half the
    samples), asks the library for the non-silent interval, widens it by
    [int(sample_rate * keep_sec)] and returns that slice, never longer than
    the stripped signal; it raises exactly when the library's trimmer does. *)
Theorem trim_silence_outcome (self wav : loc) (trim_db margin_sec keep_sec : R)
    (w : world L) (o : object) (v : list R) :
  heap w !! self = Some (Object o) ->
  deref (heap w) wav = Some (Vec v) ->
  let c := fields o in
  let margin := py_int (IZR (sample_rate c) * margin_sec) in
  let keep := py_int (IZR (sample_rate c) * keep_sec) in
  let y := py_slice v margin (- margin) in
  ((Z.of_nat (length v) <= 2 * margin)%Z -> y = []) /\
  match librosa_effects_trim L y trim_db (win_length c) (hop_length c) with
  | Ok (t0, t1) =>
      exists l w' out,
        trim_silence self wav trim_db margin_sec keep_sec w = (Ok l, w') /\
        deref (heap w') l = Some (Vec out) /\
        out = py_slice y (Z.max 0 (t0 - keep))
                (Z.min (Z.of_nat (length y)) (t1 + keep)) /\
        (length out <= length y)%nat
  | Raise e =>
      (trim_silence self wav trim_db margin_sec keep_sec w).1 = Raise e
  end.
Proof.
  intros Hself Hwav c margin keep y. split.
  - apply py_slice_margin_empty.
  - destruct (librosa_effects_trim L y trim_db (win_length c) (hop_length c))
      as [[t0 t1]|e] eqn:Hlib.
    + destruct (trim_silence_run self wav trim_db margin_sec keep_sec w o v t0 t1
                  Hself Hwav Hlib) as (l & w' & E & D & _).
      exists l, w', (py_slice y (Z.max 0 (t0 - keep))
                       (Z.min (Z.of_nat (length y)) (t1 + keep))).
      repeat split; [exact E | exact D | apply length_py_slice].
    + by apply (trim_silence_raise self wav trim_db margin_sec keep_sec w o v e).
Qed.

End TrimSilence.

Lemma stub_rate_margin : py_int (100 * (1 / 100)) = 1%Z.
Proof. apply py_int_eq; lra. Qed.

Lemma stub_rate_wide_margin : py_int (100 * (26 / 1000)) = 2%Z.
Proof. apply py_int_eq; lra. Qed.

Lemma stub_rate_keep : py_int (100 * (1 / 10)) = 10%Z.
Proof. apply py_int_eq; lra. Qed.

Lemma trim_silence_outcome_witness :
  exists l w' out,
    trim_silence 0%nat 4%nat 60 (1 / 100) (1 / 10)
      (stub_world (with_rate 100 (Some 50) default_config) 0 [])
    = (Ok l, w') /\
    deref (heap w') l = Some (Vec out) /\
    (length out <= 3)%nat.
Proof.
  destruct (trim_silence_outcome (L:=stub [[1]]) 0%nat 4%nat 60 (1 / 100) (1 / 10)
              (stub_world (with_rate 100 (Some 50) default_config) 0 [])
              _ [0; 0; 0; 0; 0] eq_refl eq_refl) as [_ H].
  simpl in H. destruct H as (l & w' & out & E & D & _ & Hlen).
  exists l, w', out. split; [exact E|]. split; [exact D|].
  rewrite stub_rate_margin in Hlen. exact Hlen.
Defined.

(** At 100 samples per second, on five samples of silence (0.05 s) and with
    a trimmer that finds no frame above the threshold: a margin of 0.026 s,
    more than half the duration, strips two samples from each end and the
    call returns the one sample left; with the default margin the call
    returns the three samples the margin left.  Neither call raises. *)
Lemma trim_silence_counterexample :
  IZR (Z.of_nat (length [0; 0; 0; 0; 0])) / 100 / 2 < 26 / 1000 /\
  (exists l w',
     trim_silence 0%nat 4%nat 60 (26 / 1000) (1 / 10)
       (stub_world (with_rate 100 (Some 50) default_config) 0 [])
     = (Ok l, w') /\
     deref (heap w') l = Some (Vec [0])) /\
  (exists l w',
     trim_silence 0%nat 4%nat 60 (1 / 100) (1 / 10)
       (stub_world (with_rate 100 (Some 50) default_config) 0 [])
     = (Ok l, w') /\
     deref (heap w') l = Some (Vec [0; 0; 0])).
Proof.
  split.
  { change (IZR (Z.of_nat (length [0; 0; 0; 0; 0]))) with (IZR 5). lra. }
  split.
  - destruct (trim_silence_run (L:=stub [[1]]) 0%nat 4%nat 60 (26 / 1000) (1 / 10)
                (stub_world (with_rate 100 (Some 50) default_config) 0 [])
                _ [0; 0; 0; 0; 0] 0%Z 0%Z eq_refl eq_refl eq_refl)
      as (l & w' & E & D & _).
    exists l, w'. split; [exact E|]. rewrite D.
    simpl. rewrite stub_rate_wide_margin, stub_rate_keep. reflexivity.
  - destruct (trim_silence_run (L:=stub [[1]]) 0%nat 4%nat 60 (1 / 100) (1 / 10)
                (stub_world (with_rate 100 (Some 50) default_config) 0 [])
                _ [0; 0; 0; 0; 0] 0%Z 0%Z eq_refl eq_refl eq_refl)
      as (l & w' & E & D & _).
    exists l, w'. split; [exact E|]. rewrite D.
    simpl. rewrite stub_rate_margin, stub_rate_keep. reflexivity.
Qed.

(** ** C5: the forward transform on short signals *)

Section ShortSignals.
Context {L : Lib}.
Implicit Types (w : world L).

(** [wav2mel] without trimming, when the library's transform returns. *)
Lemma wav2mel_run self wav w o y s b m d :
  heap w !! self = Some (Object o) ->
  let c := fields o in
  do_trim_silence c = false ->
  deref (heap w) wav = Some (Vec y) ->
  librosa_stft L y (filter_length c) (hop_length c) (win_length c) = Ok s ->
  _mel_basis o = Some b -> deref (heap w) b = Some (Mat m) ->
  np_dot m (mmap Cabs s) = Ok d ->
  exists l w', wav2mel self wav w = (Ok l, w') /\
    deref (heap w') l
    = Some (Mat (mmap (fun v =>
                         let db := Scalar.amp_to_db c v amp_floor in
                         if signal_norm c then Scalar.normalize c db else db) d)) /\
    grows w w' (rng w) [call_stft y].
Proof.
  intros Hself c Htrim Hwav Hlib Hb Hm Hd. unfold wav2mel.
  rewrite (bind_ok _ _ _ _ _ (getobj_ok _ _ _ Hself)). fold c. rewrite Htrim.
  unfold ret at 1. unfold bind at 1.
  destruct (stft_run self wav w o y s Hself Hwav Hlib) as (l1 & w1 & E1 & D1 & G1).
  rewrite (bind_ok _ _ _ _ _ E1).
  destruct (np_abs_cmat_run l1 w1 s D1) as (l2 & w2 & E2 & D2 & G2).
  rewrite (bind_ok _ _ _ _ _ E2).
  pose proof (grows_quiet _ _ _ _ _ _ G1 G2 eq_refl) as G12.
  destruct (linear_to_mel_run self l2 w2 o b m (mmap Cabs s) d
              (grows_lookup _ _ _ _ _ _ G12 Hself) Hb
              (grows_deref _ _ _ _ _ _ G12 Hm) D2 Hd) as (l3 & w3 & E3 & D3 & G3).
  rewrite (bind_ok _ _ _ _ _ E3).
  pose proof (grows_quiet _ _ _ _ _ _ G12 G3 eq_refl) as G13.
  destruct (amp_to_db_run self l3 amp_floor w3 o (Mat d)
              (grows_lookup _ _ _ _ _ _ G13 Hself) D3 eq_refl)
    as (l4 & w4 & E4 & D4 & G4).
  rewrite (bind_ok _ _ _ _ _ E4).
  pose proof (grows_quiet _ _ _ _ _ _ G13 G4 eq_refl) as G14.
  fold c in D4. simpl in D4.
  destruct (signal_norm c) eqn:Hn.
  - destruct (normalize_run self l4 w4 o _
                (grows_lookup _ _ _ _ _ _ G14 Hself) D4 eq_refl)
      as (l5 & w5 & E5 & D5 & G5).
    exists l5, w5. split; [exact E5|]. split.
    + rewrite D5. simpl. unfold mmap. rewrite map_map. f_equal. f_equal.
      apply map_ext. intros r. by rewrite map_map.
    + by eapply grows_quiet.
  - exists l4, w4. split; [reflexivity|]. split; [exact D4|exact G14].
Qed.

Lemma wav2mel_raise self wav w o y e :
  heap w !! self = Some (Object o) ->
  let c := fields o in
  do_trim_silence c = false ->
  deref (heap w) wav = Some (Vec y) ->
  librosa_stft L y (filter_length c) (hop_length c) (win_length c) = Raise e ->
  (wav2mel self wav w).1 = Raise e.
Proof.
  intros Hself c Htrim Hwav Hlib. unfold wav2mel.
  rewrite (bind_ok _ _ _ _ _ (getobj_ok _ _ _ Hself)). fold c. rewrite Htrim.
  unfold ret at 1. unfold bind at 1.
  destruct (stft_raise self wav w o y e Hself Hwav Hlib) as (w1 & E1 & _).
  by rewrite (bind_raise _ _ _ _ _ E1).
Qed.

(** C5, as the code has it. [stft] compares no length with [win_length]: on
    a signal of any length it hands the samples to [librosa.stft] and returns
    what that returns -- its spectrogram, or its exception; there is no
    [InsufficientSamples] error.  [wav2mel] (trimming off) goes on to the mel
    spectrogram whenever the transform returned. *)
Theorem stft_unchecked (self wav : loc) (w : world L) (o : object) (y : list R) :
  heap w !! self = Some (Object o) ->
  deref (heap w) wav = Some (Vec y) ->
  let c := fields o in
  match librosa_stft L y (filter_length c) (hop_length c) (win_length c) with
  | Ok s =>
      (exists l w', stft self wav w = (Ok l, w') /\
         deref (heap w') l = Some (CMat s)) /\
      (forall b m d,
         do_trim_silence c = false ->
         _mel_basis o = Some b -> deref (heap w) b = Some (Mat m) ->
         np_dot m (mmap Cabs s) = Ok d ->
         exists l w', wav2mel self wav w = (Ok l, w') /\
           deref (heap w') l
           = Some (Mat (mmap (fun v =>
                                let db := Scalar.amp_to_db c v amp_floor in
                                if signal_norm c then Scalar.normalize c db
                                else db) d)))
  | Raise e =>
      (stft self wav w).1 = Raise e /\
      (do_trim_silence c = false -> (wav2mel self wav w).1 = Raise e)
  end.
Proof.
  intros Hself Hwav c.
  destruct (librosa_stft L y (filter_length c) (hop_length c) (win_length c))
    as [s|e] eqn:Hlib.
  - split.
    + destruct (stft_run self wav w o y s Hself Hwav Hlib) as (l & w' & E & D & _).
      by exists l, w'.
    + intros b m d Htrim Hb Hm Hd.
      destruct (wav2mel_run self wav w o y s b m d Hself Htrim Hwav Hlib Hb Hm Hd)
        as (l & w' & E & D & _).
      by exists l, w'.
  - split.
    + destruct (stft_raise self wav w o y e Hself Hwav Hlib) as (w' & E & _).
      by rewrite E.
    + intros Htrim. by apply (wav2mel_raise self wav w o y e).
Qed.

End ShortSignals.

Lemma stft_unchecked_witness :
  exists l w',
    stft 0%nat 4%nat (stub_world default_config 0 []) = (Ok l, w') /\
    deref (heap w') l = Some (CMat [[of_real 0]]).
Proof.
  exact (proj1 (stft_unchecked (L:=stub [[1]]) 0%nat 4%nat
                  (stub_world default_config 0 []) _ [0; 0; 0; 0; 0]
                  eq_refl eq_refl)).
Defined.

(** Five samples against the default [win_length] of 1024, with a library
    whose transform pads short input as [librosa.stft] does when centred:
    [stft] and [wav2mel] return spectrograms. *)
Lemma stft_short_counterexample :
  (Z.of_nat (length [0; 0; 0; 0; 0]) < win_length default_config)%Z /\
  (exists l w' s,
     stft 0%nat 4%nat (stub_world default_config 0 []) = (Ok l, w') /\
     deref (heap w') l = Some (CMat s)) /\
  (exists l w' mel,
     wav2mel 0%nat 4%nat (stub_world default_config 0 []) = (Ok l, w') /\
     deref (heap w') l = Some (Mat mel)).
Proof.
  split; [simpl; lia|]. split.
  - destruct (stft_run (L:=stub [[1]]) 0%nat 4%nat (stub_world default_config 0 [])
                _ [0; 0; 0; 0; 0] [[of_real 0]] eq_refl eq_refl eq_refl)
      as (l & w' & E & D & _).
    by exists l, w', [[of_real 0]].
  - destruct (wav2mel_run (L:=stub [[1]]) 0%nat 4%nat
                (stub_world default_config 0 []) _ [0; 0; 0; 0; 0]
                [[of_real 0]] 1%nat [[1]] [[1 * Cabs (of_real 0) + 0]]
                eq_refl eq_refl eq_refl eq_refl eq_refl eq_refl eq_refl)
      as (l & w' & E & D & _).
    eexists l, w', _. split; [exact E|exact D].
Qed.

(** ** C9: the floor of [mel_to_linear] *)

Section MelToLinear.
Context {L : Lib}.
Implicit Types (w : world L).

Lemma shape_mmap {A B} (f : A -> B) (m : list (list A)) :
  shape (mmap f m) = shape m.
Proof.
  unfold shape, mmap. rewrite map_map. apply map_ext.
  intros r. apply length_map.
Qed.

Lemma np_dot_conformable (a b : matrix) :
  rows_have (nrows b) a = true -> rows_have (ncols b) b = true ->
  exists d, np_dot a b = Ok d /\ shape d = replicate (nrows a) (ncols b).
Proof.
  intros Ha Hb. unfold np_dot. rewrite Ha, Hb. simpl.
  eexists. split; [reflexivity|].
  unfold shape, nrows. rewrite map_map. clear Ha.
  induction a as [|r a IH]; simpl; [done|].
  by rewrite length_map, length_seq, IH.
Qed.

Lemma mmap_maximum_floor (t : R) (d : matrix) :
  Forall (Forall (fun v => t <= v)) (mmap (np_maximum t) d).
Proof.
  unfold mmap. apply Forall_map, Forall_forall. intros r _.
  apply Forall_map, Forall_forall. intros v _. apply Rmax_l.
Qed.

(** C9. On a mel spectrogram whose shape fits the pseudo-inverse,
    [mel_to_linear] with the default threshold returns the product of the
    pseudo-inverse with the spectrogram, clamped entry by entry from below at
    [1e-10]: the matrix returned is [max(1e-10, d)] at every entry of the
    product [d], so every entry of it is at least [1e-10], hence positive,
    whatever the sign of the product. *)
Theorem mel_to_linear_floor (self mel_amp : loc) (w : world L) (o : object)
    (b : loc) (inv x : matrix) :
  heap w !! self = Some (Object o) ->
  _inv_mel_basis o = Some b ->
  deref (heap w) b = Some (Mat inv) ->
  deref (heap w) mel_amp = Some (Mat x) ->
  rows_have (nrows x) inv = true ->
  rows_have (ncols x) x = true ->
  exists l w' d out,
    mel_to_linear self mel_amp linear_floor w = (Ok l, w') /\
    np_dot inv x = Ok d /\
    out = mmap (np_maximum linear_floor) d /\
    deref (heap w') l = Some (Mat out) /\
    shape out = replicate (nrows inv) (ncols x) /\
    Forall (Forall (fun v => linear_floor <= v /\ 0 < v)) out.
Proof.
  intros Hself Hb Hinv Hx Hrows Hcols.
  destruct (np_dot_conformable inv x Hrows Hcols) as (d & Hd & Hshape).
  destruct (mel_to_linear_run self mel_amp linear_floor w o b inv x d
              Hself Hb Hinv Hx Hd) as (l & w' & E & D & _).
  exists l, w', d, (mmap (np_maximum linear_floor) d).
  split; [exact E|]. split; [exact Hd|]. split; [reflexivity|].
  split; [exact D|]. split.
  - by rewrite shape_mmap.
  - eapply Forall_impl; [apply mmap_maximum_floor|].
    intros r Hr. eapply Forall_impl; [exact Hr|].
    intros v Hv. simpl in Hv. split; [exact Hv|].
    unfold linear_floor in *. lra.
Qed.

End MelToLinear.

Lemma mel_to_linear_floor_witness :
  exists l w' d out,
    mel_to_linear 0%nat 3%nat linear_floor (stub_world default_config 0 [])
    = (Ok l, w') /\
    np_dot [[1]] [[0]] = Ok d /\
    out = mmap (np_maximum linear_floor) d /\
    deref (heap w') l = Some (Mat out) /\
    shape out = [1%nat] /\
    Forall (Forall (fun v => linear_floor <= v /\ 0 < v)) out.
Proof.
  exact (mel_to_linear_floor (L:=stub [[1]]) 0%nat 3%nat
           (stub_world default_config 0 []) _ 2%nat [[1]] [[0]]
           eq_refl eq_refl eq_refl eq_refl eq_refl eq_refl).
Defined.

(** ** C8: the iterations of [griffin_lim] *)

Section GriffinLim.
Context {L : Lib}.
Implicit Types (w : world L).

Lemma shape_mzip {A B C} (f : A -> B -> C) (a : list (list A)) (b : list (list B)) :
  shape a = shape b -> shape (mzip f a b) = shape a.
Proof.
  unfold shape, mzip. revert b.
  induction a as [|r a IH]; intros [|r' b] Hs; simpl in *; try done.
  injection Hs as Hr Hs. rewrite (IH b Hs). f_equal.
  rewrite length_zip_with. lia.
Qed.

Lemma shape_phase_of s : shape (phase_of s) = shape s.
Proof. apply shape_mmap. Qed.

Lemma shape_unit_phase r : shape (unit_phase r) = shape r.
Proof. apply shape_mmap. Qed.

Lemma griffin_lim_loop_run n self lc o mag :
  forall audio w y s,
    heap w !! self = Some (Object o) ->
    deref (heap w) lc = Some (CMat mag) ->
    deref (heap w) audio = Some (Vec y) ->
    well_behaved L (fields o) (shape mag) ->
    shape s = shape mag ->
    librosa_istft L s (hop_length (fields o)) (win_length (fields o)) = Ok y ->
    exists l w', griffin_lim_loop n self lc audio w = (Ok l, w') /\
      deref (heap w') l = Some (Vec (refinements L n (fields o) mag y)) /\
      grows w w' (rng w) (gl_events L n (fields o) mag y).
Proof.
  induction n as [|n IH]; intros audio w y s Hself Hlc Haudio Hwb Hs Hy.
  - exists audio, w. split; [reflexivity|]. split; [exact Haudio|apply grows_refl].
  - simpl. destruct Hwb as (Hrand & Hsyn & Hana).
    destruct (Hana s y Hs Hy) as (s' & Hstft & Hs').
    destruct (stft_run self audio w o y s' Hself Haudio Hstft)
      as (l1 & w1 & E1 & D1 & G1).
    rewrite (bind_ok _ _ _ _ _ E1).
    destruct (np_phase_run l1 w1 s' D1) as (l2 & w2 & E2 & D2 & G2).
    rewrite (bind_ok _ _ _ _ _ E2).
    pose proof (grows_quiet _ _ _ _ _ _ G1 G2 eq_refl) as G12.
    assert (Hsh : shape mag = shape (phase_of s'))
      by (by rewrite shape_phase_of).
    destruct (np_cmul_run lc l2 w2 mag (phase_of s')
                (grows_deref _ _ _ _ _ _ G12 Hlc) D2 Hsh)
      as (l3 & w3 & E3 & D3 & G3).
    rewrite (bind_ok _ _ _ _ _ E3).
    pose proof (grows_quiet _ _ _ _ _ _ G12 G3 eq_refl) as G13.
    assert (Hsp : gl_spectrum L (fields o) mag y = mzip Cmul mag (phase_of s'))
      by (unfold gl_spectrum, stft_val; by rewrite Hstft).
    assert (Hsh' : shape (mzip Cmul mag (phase_of s')) = shape mag)
      by (by apply shape_mzip).
    pose proof (Hsyn _ Hsh') as Hok.
    destruct (librosa_istft L (mzip Cmul mag (phase_of s'))
                (hop_length (fields o)) (win_length (fields o)))
      as [y'|e] eqn:Hy'; [|discriminate Hok].
    destruct (istft_run self l3 w3 o _ y'
                (grows_lookup _ _ _ _ _ _ G13 Hself) D3 Hy')
      as (l4 & w4 & E4 & D4 & G4).
    rewrite (bind_ok _ _ _ _ _ E4).
    pose proof (grows_quiet _ _ _ _ _ _ G13 G4 eq_refl) as G14.
    assert (Hre : gl_refine L (fields o) mag y = y')
      by (unfold gl_refine, istft_val; by rewrite Hsp, Hy').
    destruct (IH l4 w4 y' _
                (grows_lookup _ _ _ _ _ _ G14 Hself)
                (grows_deref _ _ _ _ _ _ G14 Hlc) D4
                (conj Hrand (conj Hsyn Hana)) Hsh' Hy')
      as (l5 & w5 & E5 & D5 & G5).
    exists l5, w5. split; [exact E5|]. rewrite Hre, Hsp. split; [exact D5|].
    eapply grows_quiet; [exact G14|exact G5|reflexivity].
Qed.

End GriffinLim.

Section GriffinLimRun.
Context {L : Lib}.
Implicit Types (w : world L).

Lemma rand_run r k w :
  exists w', np_random_rand_global r k w
             = (Ok (np_random_rand L (rng w) r k).1, w') /\
    heap w' = heap w /\ rng w' = (np_random_rand L (rng w) r k).2 /\
    trace w' = trace w ++ [call_rand r k].
Proof.
  unfold np_random_rand_global.
  destruct (np_random_rand L (rng w) r k) as [m g]. by eexists.
Qed.

Lemma count_gl_events n c mag y :
  count is_stft (gl_events L n c mag y) = n /\
  count is_istft (gl_events L n c mag y) = n /\
  count is_rand (gl_events L n c mag y) = 0%nat.
Proof.
  revert y. induction n as [|n IH]; intros y; [done|].
  destruct (IH (gl_refine L c mag y)) as (H1 & H2 & H3).
  unfold count in *. simpl. rewrite !filter_cons. simpl.
  repeat case_decide; try done. simpl. by rewrite H1, H2, H3.
Qed.

(** [griffin_lim] on a library that behaves on the spectrogram's shape. *)
Lemma griffin_lim_run self linear num_iters w o m :
  heap w !! self = Some (Object o) ->
  deref (heap w) linear = Some (Mat m) ->
  rectangular m ->
  well_behaved L (fields o) (shape m) ->
  let c := fields o in
  let draw := np_random_rand L (rng w) (nrows m) (ncols m) in
  let mag := mmap of_real (mmap Rabs m) in
  let s0 := mzip Cmul mag (unit_phase draw.1) in
  let y0 := istft_val L c s0 in
  exists l w', griffin_lim self linear num_iters w = (Ok l, w') /\
    deref (heap w') l
    = Some (Vec (refinements L (Z.to_nat num_iters) c mag y0)) /\
    grows w w' draw.2
      (call_rand (nrows m) (ncols m) :: call_istft s0
         :: gl_events L (Z.to_nat num_iters) c mag y0).
Proof.
  intros Hself Hlin Hrect Hwb c draw mag s0 y0. unfold griffin_lim.
  rewrite (bind_ok _ _ _ _ _ (load_mat_ok _ _ _ Hlin)).
  destruct (rand_run (nrows m) (ncols m) w) as (w1 & E1 & Hh1 & Hr1 & Ht1).
  rewrite (bind_ok _ _ _ _ _ E1). fold draw in Hr1 |- *.
  assert (Hself1 : heap w1 !! self = Some (Object o)) by (by rewrite Hh1).
  assert (Hlin1 : deref (heap w1) linear = Some (Mat m)) by (by rewrite Hh1).
  destruct (alloc_run w1 (CMat (unit_phase draw.1))) as (w2 & E2 & D2 & G2).
  rewrite (bind_ok _ _ _ _ _ E2).
  destruct (np_abs_mat_run linear w2 m (grows_deref _ _ _ _ _ _ G2 Hlin1))
    as (l3 & w3 & E3 & D3 & G3).
  rewrite (bind_ok _ _ _ _ _ E3).
  pose proof (grows_quiet _ _ _ _ _ _ G2 G3 eq_refl) as G23.
  destruct (astype_complex_run l3 w3 _ D3) as (l4 & w4 & E4 & D4 & G4).
  rewrite (bind_ok _ _ _ _ _ E4). fold mag in D4.
  pose proof (grows_quiet _ _ _ _ _ _ G23 G4 eq_refl) as G24.
  assert (Hmag : shape mag = shape m)
    by (unfold mag; by rewrite !shape_mmap).
  pose proof Hwb as (Hrand & Hsyn & Hana).
  assert (Hsh : shape mag = shape (unit_phase draw.1)).
  { rewrite shape_unit_phase, Hmag. unfold draw. by rewrite Hrand. }
  destruct (np_cmul_run l4 (length (heap w1)) w4 mag (unit_phase draw.1) D4
              (grows_deref _ _ _ _ _ _ (grows_quiet _ _ _ _ _ _ G3 G4 eq_refl) D2)
              Hsh) as (l5 & w5 & E5 & D5 & G5).
  rewrite (bind_ok _ _ _ _ _ E5). fold s0 in D5.
  pose proof (grows_quiet _ _ _ _ _ _ G24 G5 eq_refl) as G25.
  assert (Hs0 : shape s0 = shape m)
    by (unfold s0; by rewrite shape_mzip).
  pose proof (Hsyn s0 Hs0) as Hok.
  assert (Hy0 : librosa_istft L s0 (hop_length c) (win_length c) = Ok y0).
  { revert Hok. unfold y0, istft_val, c.
    destruct (librosa_istft L s0 (hop_length (fields o)) (win_length (fields o)))
      as [y|e]; [reflexivity|discriminate]. }
  destruct (istft_run self l5 w5 o s0 y0
              (grows_lookup _ _ _ _ _ _ G25 Hself1) D5 Hy0)
    as (l6 & w6 & E6 & D6 & G6).
  rewrite (bind_ok _ _ _ _ _ E6).
  pose proof (grows_quiet _ _ _ _ _ _ G25 G6 eq_refl) as G26.
  assert (Hwb' : well_behaved L (fields o) (shape mag)) by (by rewrite Hmag).
  destruct (griffin_lim_loop_run (Z.to_nat num_iters) self l4 o mag l6 w6 y0 s0
              (grows_lookup _ _ _ _ _ _ G26 Hself1)
              (grows_deref _ _ _ _ _ _
                 (grows_quiet _ _ _ _ _ _ G5 G6 eq_refl) D4)
              D6 Hwb' (eq_trans Hs0 (eq_sym Hmag)) Hy0)
    as (l7 & w7 & E7 & D7 & G7).
  exists l7, w7. split; [exact E7|]. split; [exact D7|].
  pose proof (grows_quiet _ _ _ _ _ _ G26 G7 eq_refl) as (Hh & Hr & Ht).
  repeat split.
  - by rewrite <- Hh1.
  - by rewrite Hr.
  - rewrite Ht, Ht1. by rewrite <- app_assoc.
Qed.

(** C8. On a library that behaves on the spectrogram's shape, [griffin_lim]
    returns after one draw of the phase, one synthesis from it, and exactly
    [num_iters] rounds (none for a negative budget) of one analysis of the
    current waveform followed by one synthesis from the magnitude given and
    the phase just analysed; the waveform returned is the [num_iters]-th
    refinement.  Nothing in the code tests for convergence. *)
Theorem griffin_lim_iterations (self linear : loc) (num_iters : Z) (w : world L)
    (o : object) (m : matrix) :
  heap w !! self = Some (Object o) ->
  deref (heap w) linear = Some (Mat m) ->
  rectangular m ->
  well_behaved L (fields o) (shape m) ->
  let c := fields o in
  let n := Z.to_nat num_iters in
  let mag := mmap of_real (mmap Rabs m) in
  let s0 := mzip Cmul mag
              (unit_phase (np_random_rand L (rng w) (nrows m) (ncols m)).1) in
  let y0 := istft_val L c s0 in
  exists l w' evs,
    griffin_lim self linear num_iters w = (Ok l, w') /\
    deref (heap w') l = Some (Vec (refinements L n c mag y0)) /\
    trace w' = trace w ++ call_rand (nrows m) (ncols m) :: call_istft s0 :: evs /\
    evs = gl_events L n c mag y0 /\
    count is_stft evs = n /\ count is_istft evs = n /\ count is_rand evs = 0%nat.
Proof.
  intros Hself Hlin Hrect Hwb c n mag s0 y0.
  destruct (griffin_lim_run self linear num_iters w o m Hself Hlin Hrect Hwb)
    as (l & w' & E & D & (_ & _ & Ht)).
  exists l, w', (gl_events L n c mag y0).
  split; [exact E|]. split; [exact D|]. split; [exact Ht|]. split; [done|].
  apply count_gl_events.
Qed.

End GriffinLimRun.

Lemma stub_well_behaved fb c : well_behaved (stub fb) c [1%nat].
Proof.
  split; [|split].
  - intros st r k. simpl. unfold shape.
    induction r as [|r IH]; simpl; [done|]. by rewrite length_replicate, IH.
  - done.
  - intros s y _ _. by eexists.
Qed.

Lemma griffin_lim_iterations_witness :
  exists l w' evs,
    griffin_lim 0%nat 3%nat 2 (stub_world default_config 0 []) = (Ok l, w') /\
    (exists y, deref (heap w') l = Some (Vec y)) /\
    (exists s0, trace w' = call_rand 1 1 :: call_istft s0 :: evs) /\
    count is_stft evs = 2%nat /\ count is_istft evs = 2%nat.
Proof.
  destruct (griffin_lim_iterations (L:=stub [[1]]) 0%nat 3%nat 2
              (stub_world default_config 0 []) _ [[0]]
              eq_refl eq_refl eq_refl (stub_well_behaved _ _))
    as (l & w' & evs & E & D & Ht & _ & H1 & H2 & _).
  exists l, w', evs. split; [exact E|]. split; [eexists; exact D|].
  split; [eexists; exact Ht|]. split; [exact H1|exact H2].
Defined.

(** ** C3: construction *)

Section Construction.
Context {L : Lib}.
Implicit Types (w : world L) (h : list cell).

Lemma lookup_snoc h (c : cell) : (h ++ [c]) !! length h = Some c.
Proof. by apply list_lookup_middle. Qed.

Lemma lookup_snoc2 h (c c' : cell) : (h ++ [c; c']) !! length h = Some c.
Proof. by apply list_lookup_middle. Qed.

Lemma lookup_snoc2' h (c c' : cell) : (h ++ [c; c']) !! S (length h) = Some c'.
Proof.
  replace (h ++ [c; c']) with ((h ++ [c]) ++ [c']) by (by rewrite <- app_assoc).
  apply list_lookup_middle. rewrite length_app. simpl. lia.
Qed.

Lemma insert_snoc2 h (c c' d : cell) :
  <[length h := d]> (h ++ [c; c']) = h ++ [d; c'].
Proof. rewrite insert_app_r_alt by lia. by rewrite Nat.sub_diag. Qed.

Lemma lookup_snoc3 h (c c' c'' : cell) :
  (h ++ [c; c'; c'']) !! length h = Some c.
Proof. by apply list_lookup_middle. Qed.

Lemma lookup_snoc3' h (c c' c'' : cell) :
  (h ++ [c; c'; c'']) !! S (length h) = Some c'.
Proof.
  replace (h ++ [c; c'; c'']) with ((h ++ [c]) ++ c' :: [c''])
    by (by rewrite <- app_assoc).
  apply list_lookup_middle. rewrite length_app. simpl. lia.
Qed.

Lemma lookup_snoc3'' h (c c' c'' : cell) :
  (h ++ [c; c'; c'']) !! S (S (length h)) = Some c''.
Proof.
  replace (h ++ [c; c'; c'']) with ((h ++ [c; c']) ++ [c''])
    by (by rewrite <- app_assoc).
  apply list_lookup_middle. rewrite length_app. simpl. lia.
Qed.

Lemma insert_snoc3 h (c c' c'' d : cell) :
  <[length h := d]> (h ++ [c; c'; c'']) = h ++ [d; c'; c''].
Proof. rewrite insert_app_r_alt by lia. by rewrite Nat.sub_diag. Qed.

Lemma floor_half_le (z : Z) : IZR (z / 2) <= IZR z / 2.
Proof.
  assert (H : (2 * (z / 2) <= z)%Z) by (apply Z.mul_div_le; lia).
  apply IZR_le in H. rewrite mult_IZR in H. lra.
Qed.

Lemma assert_fmax_ok c w :
  fmax_admissible c ->
  match mel_fmax c with
  | Some fmax => py_assert _ (Rle_dec fmax (IZR (sample_rate c / 2)))
  | None => ret tt
  end w = (Ok tt, w).
Proof.
  unfold fmax_admissible, py_assert. destruct (mel_fmax c) as [fmax|]; [|done].
  intros Hle. by destruct (Rle_dec fmax (IZR (sample_rate c / 2))).
Qed.

Lemma assert_fmax_raise c w fmax :
  mel_fmax c = Some fmax -> IZR (sample_rate c / 2) < fmax ->
  match mel_fmax c with
  | Some fmax => py_assert _ (Rle_dec fmax (IZR (sample_rate c / 2)))
  | None => ret tt
  end w = (Raise AssertionError, w).
Proof.
  intros -> Hlt. unfold py_assert.
  destruct (Rle_dec fmax (IZR (sample_rate c / 2))); [lra|done].
Qed.

Lemma setattr_ok self f w o :
  heap w !! self = Some (Object o) ->
  setattr self f w = (Ok tt, set_heap (<[self := Object (f o)]> (heap w)) w).
Proof.
  intros Hs. unfold setattr. by rewrite (bind_ok _ _ _ _ _ (getobj_ok _ _ _ Hs)).
Qed.

Lemma post_init_ok c h g t mb inv :
  fmax_admissible c ->
  librosa_filters_mel L (sample_rate c) (filter_length c) (mel_channels c)
    (mel_fmin c) (mel_fmax c) = Ok mb ->
  np_linalg_pinv L mb = Ok inv ->
  let n := length h in
  __post_init__ n (@mkWorld L (h ++ [Object (mkObject c None None)]) g t)
  = (Ok tt,
     @mkWorld L (h ++ [Object (mkObject c (Some (S n)) (Some (S (S n))));
                    Array (Mat mb); Array (Mat inv)])
       g (t ++ [call_mel; call_pinv])).
Proof.
  intros Hadm Hmel Hpinv n. subst n. unfold __post_init__.
  erewrite bind_ok by (apply getobj_ok; apply lookup_snoc).
  simpl fields.
  erewrite bind_ok by (by apply assert_fmax_ok).
  rewrite Hmel.
  erewrite bind_ok by reflexivity.
  erewrite bind_ok by reflexivity.
  unfold set_heap. simpl. rewrite <- app_assoc. simpl.
  rewrite length_app. simpl. replace (length h + 1)%nat with (S (length h)) by lia.
  erewrite bind_ok by (apply setattr_ok; apply lookup_snoc2).
  unfold set_heap. simpl. rewrite insert_snoc2.
  erewrite bind_ok by (eapply getattr_ok; [apply lookup_snoc2|reflexivity]).
  erewrite bind_ok
    by (apply load_mat_ok; unfold deref; simpl; by rewrite lookup_snoc2').
  rewrite Hpinv.
  erewrite bind_ok by reflexivity.
  erewrite bind_ok by reflexivity.
  simpl.
  erewrite setattr_ok
    by (unfold set_heap; simpl; apply lookup_app_l_Some; apply lookup_snoc2).
  unfold set_heap. simpl.
  rewrite <- app_assoc. simpl. rewrite insert_snoc3.
  rewrite length_app. simpl. replace (length h + 2)%nat with (S (S (length h))) by lia.
  by rewrite <- app_assoc.
Qed.

Lemma new_AudioConfig_ok c w mb inv :
  fmax_admissible c ->
  librosa_filters_mel L (sample_rate c) (filter_length c) (mel_channels c)
    (mel_fmin c) (mel_fmax c) = Ok mb ->
  np_linalg_pinv L mb = Ok inv ->
  let n := length (heap w) in
  new_AudioConfig c w
  = (Ok n,
     @mkWorld L (heap w ++ [Object (mkObject c (Some (S n)) (Some (S (S n))));
                            Array (Mat mb); Array (Mat inv)])
       (rng w) (trace w ++ [call_mel; call_pinv])).
Proof.
  intros Hadm Hmel Hpinv n. unfold new_AudioConfig.
  erewrite bind_ok by reflexivity.
  unfold set_heap.
  erewrite bind_ok by (by apply post_init_ok).
  reflexivity.
Qed.

(** A failed assertion: the instance was allocated, nothing was built. *)
Lemma new_AudioConfig_raise c w fmax :
  mel_fmax c = Some fmax -> IZR (sample_rate c / 2) < fmax ->
  new_AudioConfig c w
  = (Raise AssertionError,
     set_heap (heap w ++ [Object (mkObject c None None)]) w).
Proof.
  intros Hf Hlt. unfold new_AudioConfig.
  erewrite bind_ok by reflexivity.
  erewrite bind_raise; [reflexivity|].
  unfold __post_init__.
  erewrite bind_ok by (apply getobj_ok; apply lookup_snoc).
  simpl fields.
  erewrite bind_raise; [reflexivity|]. exact (assert_fmax_raise c _ fmax Hf Hlt).
Qed.

(** C3, as the code has it. Constructing an [AudioConfig] raises
    [AssertionError], before any filterbank is asked for, whenever [mel_fmax]
    is set above [sample_rate / 2].  When [mel_fmax] is unset or at most
    [sample_rate // 2] and the library returns a filterbank and a
    pseudo-inverse, construction returns the instance holding exactly these
    two matrices, built by one call each: the filterbank's rows are not
    inspected, so one with an all-zero row is accepted like any other. *)
Theorem construction_outcome (c : AudioConfig) (w : world L) :
  (forall fmax,
     mel_fmax c = Some fmax -> IZR (sample_rate c) / 2 < fmax ->
     (new_AudioConfig c w).1 = Raise AssertionError /\
     trace (new_AudioConfig c w).2 = trace w) /\
  (forall mb inv,
     fmax_admissible c ->
     librosa_filters_mel L (sample_rate c) (filter_length c) (mel_channels c)
       (mel_fmin c) (mel_fmax c) = Ok mb ->
     np_linalg_pinv L mb = Ok inv ->
     exists self w' b b',
       new_AudioConfig c w = (Ok self, w') /\
       heap w' !! self = Some (Object (mkObject c (Some b) (Some b'))) /\
       deref (heap w') b = Some (Mat mb) /\
       deref (heap w') b' = Some (Mat inv) /\
       heap w `prefix_of` heap w' /\
       trace w' = trace w ++ [call_mel; call_pinv]).
Proof.
  split.
  - intros fmax Hf Hlt.
    rewrite (new_AudioConfig_raise c w fmax Hf);
      [done | pose proof (floor_half_le (sample_rate c)); lra].
  - intros mb inv Hadm Hmel Hpinv.
    eexists _, _, _, _. split; [by apply new_AudioConfig_ok|].
    simpl. split; [apply lookup_snoc3|]. split; [|split; [|split]].
    + unfold deref. by rewrite lookup_snoc3'.
    + unfold deref. by rewrite lookup_snoc3''.
    + by apply prefix_app_r.
    + done.
Qed.

End Construction.

Lemma default_fmax_admissible : fmax_admissible default_config.
Proof.
  unfold fmax_admissible. simpl.
  change (22050 / 2)%Z with 11025%Z. lra.
Qed.

Lemma construction_outcome_witness :
  (new_AudioConfig (with_rate 22050 (Some 12000) default_config)
     (empty_world [[1]])).1 = Raise AssertionError /\
  exists self w' b b',
    new_AudioConfig default_config (empty_world [[1]]) = (Ok self, w') /\
    heap w' !! self = Some (Object (mkObject default_config (Some b) (Some b'))) /\
    deref (heap w') b = Some (Mat [[1]]) /\
    deref (heap w') b' = Some (Mat [[1]]) /\
    heap (empty_world [[1]]) `prefix_of` heap w' /\
    trace w' = trace (empty_world [[1]]) ++ [call_mel; call_pinv].
Proof.
  split.
  - refine (proj1 (proj1 (construction_outcome (L:=stub [[1]])
                            (with_rate 22050 (Some 12000) default_config)
                            (empty_world [[1]]))
                     12000 eq_refl _)).
    simpl. lra.
  - exact (proj2 (construction_outcome (L:=stub [[1]]) default_config
                    (empty_world [[1]]))
             [[1]] [[1]] default_fmax_admissible eq_refl eq_refl).
Defined.

(** With a library whose filterbank for the default configuration is one
    all-zero row, construction returns an instance holding it.  And at a
    sample rate of 22051 with [mel_fmax = 11025.5], which is [sample_rate / 2],
    construction raises: the assertion compares with [22051 // 2 = 11025]. *)
Lemma construction_counterexample :
  (exists self w' o b mb,
     new_AudioConfig default_config (empty_world [[0]]) = (Ok self, w') /\
     heap w' !! self = Some (Object o) /\ _mel_basis o = Some b /\
     deref (heap w') b = Some (Mat mb) /\ has_zero_row mb) /\
  ((forall fmax,
      mel_fmax (with_rate 22051 (Some (22051 / 2)) default_config) = Some fmax ->
      fmax <= IZR (sample_rate (with_rate 22051 (Some (22051 / 2)) default_config))
              / 2) /\
   (new_AudioConfig (with_rate 22051 (Some (22051 / 2)) default_config)
      (empty_world [[1]])).1 = Raise AssertionError).
Proof.
  split.
  - eexists _, _, _, _, [[0]].
    split; [exact (new_AudioConfig_ok (L:=stub [[0]]) default_config
                     (empty_world [[0]]) [[0]] [[0]]
                     default_fmax_admissible eq_refl eq_refl)|].
    simpl. split; [reflexivity|]. split; [reflexivity|]. split; [reflexivity|].
    apply Exists_cons_hd. by constructor.
  - split.
    + intros fmax Hf. simpl in *. injection Hf as <-. lra.
    + rewrite (new_AudioConfig_raise (L:=stub [[1]])
                 (with_rate 22051 (Some (22051 / 2)) default_config)
                 (empty_world [[1]]) (22051 / 2) eq_refl); [done|].
      simpl. change (22051 / 2)%Z with 11025%Z. lra.
Qed.

(** ** C6: where the initial phase comes from *)

Section Generator.
Context {L : Lib}.
Implicit Types (w : world L) (h : list cell).

Lemma amap_amap f g a : amap g (amap f a) = amap (fun v => g (f v)) a.
Proof.
  destruct a as [v|m|m]; simpl; [| |done].
  - by rewrite map_map.
  - unfold mmap. rewrite map_map. f_equal. apply map_ext.
    intros r. by rewrite map_map.
Qed.

Lemma amap_ext f g a : (forall v, f v = g v) -> amap f a = amap g a.
Proof.
  intros Hfg. destruct a as [v|m|m]; simpl; [| |done].
  - f_equal. by apply map_ext.
  - f_equal. unfold mmap. apply map_ext. intros r. by apply map_ext.
Qed.

Lemma denorm_value_clipped c v :
  clip_norm c = true ->
  denorm_value c v
  = (if symmetric_norm c
     then ((np_clip v (- max_norm c) (max_norm c) + max_norm c) * - min_level_db c
           / (2 * max_norm c)) + min_level_db c
     else (np_clip v 0 (max_norm c) * - min_level_db c / max_norm c)
          + min_level_db c)
    + ref_level_db c.
Proof.
  intros Hc. unfold denorm_value, Scalar.denormalize. rewrite Hc.
  by destruct (symmetric_norm c).
Qed.

Lemma denormalize_run self mel_db w o y :
  heap w !! self = Some (Object o) ->
  clip_norm (fields o) = true ->
  deref (heap w) mel_db = Some y -> is_real y = true ->
  exists l w', denormalize self mel_db w = (Ok l, w') /\
    deref (heap w') l = Some (amap (denorm_value (fields o)) y) /\
    grows w w' (rng w) [].
Proof.
  intros Hself Hclip Hy Hr.
  rewrite denormalize_eq, Hself. cbv zeta.
  destruct (symmetric_norm (fields o)) eqn:Hsym.
  all: rewrite clip_scale_shift_eq, Hclip, Hy, Hr.
  all: eexists _, _; split; [reflexivity|]; split;
    [|repeat split; simpl; [by apply prefix_app_r|by rewrite app_nil_r]].
  all: unfold deref; simpl; rewrite lookup_snoc2'; f_equal.
  all: rewrite !amap_amap; apply amap_ext; intros v.
  all: by rewrite denorm_value_clipped, Hsym.
Qed.

Lemma grows_then w1 w2 w3 g e :
  grows w1 w2 (rng w1) [] -> grows w2 w3 g e -> grows w1 w3 g e.
Proof. intros G1 G2. exact (grows_trans _ _ _ _ _ _ _ G1 G2). Qed.

(** [mel2wav] on a library that behaves on the spectrogram's shape. *)
Lemma mel2wav_run self mel_db num_iters power w o b inv x lin :
  heap w !! self = Some (Object o) ->
  let c := fields o in
  (signal_norm c = true -> clip_norm c = true) ->
  _inv_mel_basis o = Some b ->
  deref (heap w) b = Some (Mat inv) ->
  deref (heap w) mel_db = Some (Mat x) ->
  mel2wav_magnitude c inv x power = Ok lin ->
  rectangular lin ->
  well_behaved L c (shape lin) ->
  let draw := np_random_rand L (rng w) (nrows lin) (ncols lin) in
  let mag := mmap of_real (mmap Rabs lin) in
  let s0 := mzip Cmul mag (unit_phase draw.1) in
  let y0 := istft_val L c s0 in
  exists l w', mel2wav self mel_db num_iters power w = (Ok l, w') /\
    deref (heap w') l = Some (Vec (refinements L (Z.to_nat num_iters) c mag y0)) /\
    grows w w' draw.2
      (call_rand (nrows lin) (ncols lin) :: call_istft s0
         :: gl_events L (Z.to_nat num_iters) c mag y0).
Proof.
  intros Hself c Hnorm Hb Hinv Hx Hmag Hrect Hwb draw mag s0 y0.
  unfold mel2wav. rewrite (bind_ok _ _ _ _ _ (getobj_ok _ _ _ Hself)). fold c.
  unfold mel2wav_magnitude in Hmag.
  set (x1 := if signal_norm c then mmap (denorm_value c) x else x) in Hmag.
  assert (Hden : exists l1 w1,
             (if signal_norm c then denormalize self mel_db else ret mel_db) w
             = (Ok l1, w1) /\
             deref (heap w1) l1 = Some (Mat x1) /\ grows w w1 (rng w) []).
  { unfold x1. destruct (signal_norm c) eqn:Hs.
    - destruct (denormalize_run self mel_db w o (Mat x) Hself (Hnorm eq_refl)
                  Hx eq_refl) as (l1 & w1 & E1 & D1 & G1).
      by exists l1, w1.
    - exists mel_db, w. split; [reflexivity|]. split; [exact Hx|apply grows_refl]. }
  destruct Hden as (l1 & w1 & E1 & D1 & G1).
  rewrite (bind_ok _ _ _ _ _ E1).
  destruct (db_to_amp_run self l1 default_power w1 o (Mat x1)
              (grows_lookup _ _ _ _ _ _ G1 Hself) D1 eq_refl)
    as (l2 & w2 & E2 & D2 & G2).
  rewrite (bind_ok _ _ _ _ _ E2). simpl in D2. fold c in D2.
  pose proof (grows_quiet _ _ _ _ _ _ G1 G2 eq_refl) as G12.
  destruct (np_dot inv (mmap (fun v => Scalar.db_to_amp c v default_power) x1))
    as [d|e] eqn:Hd; [|discriminate Hmag].
  injection Hmag as Hlin.
  destruct (mel_to_linear_run self l2 linear_floor w2 o b inv _ d
              (grows_lookup _ _ _ _ _ _ G12 Hself) Hb
              (grows_deref _ _ _ _ _ _ G12 Hinv) D2 Hd)
    as (l3 & w3 & E3 & D3 & G3).
  rewrite (bind_ok _ _ _ _ _ E3).
  pose proof (grows_quiet _ _ _ _ _ _ G12 G3 eq_refl) as G13.
  destruct (np_unary_run (fun v => np_power v power) l3 w3 _ D3 eq_refl)
    as (l4 & w4 & E4 & D4 & G4).
  rewrite (bind_ok _ _ _ _ _ E4). simpl in D4. rewrite Hlin in D4.
  pose proof (grows_quiet _ _ _ _ _ _ G13 G4 eq_refl) as G14.
  destruct (griffin_lim_run self l4 num_iters w4 o lin
              (grows_lookup _ _ _ _ _ _ G14 Hself) D4 Hrect Hwb)
    as (l5 & w5 & E5 & D5 & G5).
  destruct G14 as (Hh14 & Hr14 & Ht14).
  rewrite Hr14 in D5, G5.
  exists l5, w5. split; [exact E5|]. split; [exact D5|].
  apply (grows_then w w4 w5); [|exact G5].
  repeat split; [exact Hh14|exact Hr14|exact Ht14].
Qed.

Lemma tidy_deterministic {A} (m : M L A) w1 w2 :
  tidy m -> heap w1 = heap w2 -> rng w1 = rng w2 ->
  (m w1).1 = (m w2).1 /\ heap (m w1).2 = heap (m w2).2 /\
  rng (m w1).2 = rng (m w2).2.
Proof.
  intros Hm Hh Hr. destruct w1 as [h1 g1 t1], w2 as [h2 g2 t2].
  simpl in Hh, Hr. subst h2 g2.
  destruct (Hm h1 g1) as (r & h' & g' & evs & _ & _ & Hrun).
  by rewrite !Hrun.
Qed.

(** C6, as the code has it. Neither [griffin_lim] nor [mel2wav] takes a seed
    or a random source: the initial phase is one draw of the spectrogram's
    shape from numpy's process-wide generator, which the call leaves advanced
    by that draw.  The result is a function of the arguments, the store and
    the generator's state: two calls started with the generator in the same
    state return the same waveform and leave the same state behind. *)
Theorem mel2wav_global_generator (self mel_db : loc) (num_iters : Z) (power : R) :
  (forall w1 w2,
     heap w1 = heap w2 -> rng w1 = rng w2 ->
     (mel2wav self mel_db num_iters power w1).1
     = (mel2wav self mel_db num_iters power w2).1 /\
     heap (mel2wav self mel_db num_iters power w1).2
     = heap (mel2wav self mel_db num_iters power w2).2 /\
     rng (mel2wav self mel_db num_iters power w1).2
     = rng (mel2wav self mel_db num_iters power w2).2) /\
  (forall w o b inv x lin,
     heap w !! self = Some (Object o) ->
     (signal_norm (fields o) = true -> clip_norm (fields o) = true) ->
     _inv_mel_basis o = Some b ->
     deref (heap w) b = Some (Mat inv) ->
     deref (heap w) mel_db = Some (Mat x) ->
     mel2wav_magnitude (fields o) inv x power = Ok lin ->
     rectangular lin ->
     well_behaved L (fields o) (shape lin) ->
     let draw := np_random_rand L (rng w) (nrows lin) (ncols lin) in
     let mag := mmap of_real (mmap Rabs lin) in
     let y0 := istft_val L (fields o) (mzip Cmul mag (unit_phase draw.1)) in
     exists l w' evs,
       mel2wav self mel_db num_iters power w = (Ok l, w') /\
       deref (heap w') l
       = Some (Vec (refinements L (Z.to_nat num_iters) (fields o) mag y0)) /\
       rng w' = draw.2 /\
       trace w' = trace w ++ evs /\ count is_rand evs = 1%nat).
Proof.
  split.
  - intros w1 w2. apply tidy_deterministic, tidy_mel2wav.
  - intros w o b inv x lin Hself Hnorm Hb Hinv Hx Hmag Hrect Hwb draw mag y0.
    destruct (mel2wav_run self mel_db num_iters power w o b inv x lin
                Hself Hnorm Hb Hinv Hx Hmag Hrect Hwb)
      as (l & w' & E & D & (_ & Hr & Ht)).
    eexists l, w', _. split; [exact E|]. split; [exact D|].
    split; [exact Hr|]. split; [exact Ht|].
    unfold count. rewrite !filter_cons. simpl.
    repeat case_decide; try done. simpl. f_equal.
    apply count_gl_events.
Qed.

End Generator.

Lemma stub_magnitude :
  exists a, 0 < a /\ mel2wav_magnitude default_config [[1]] [[0]] 1 = Ok [[a]].
Proof.
  exists (np_power
            (np_maximum linear_floor
               (1 * Scalar.db_to_amp default_config
                      (denorm_value default_config 0) default_power + 0)) 1).
  split; [apply exp_pos | reflexivity].
Qed.

Lemma mel2wav_global_generator_witness :
  (mel2wav 0%nat 3%nat 2 1 (stub_world default_config 0 [])).1
  = (mel2wav 0%nat 3%nat 2 1 (stub_world default_config 0 [call_mel])).1 /\
  exists l w' evs,
    mel2wav 0%nat 3%nat 2 1 (stub_world default_config 0 []) = (Ok l, w') /\
    rng w' = 0 + 1 / 2 /\ trace w' = evs /\ count is_rand evs = 1%nat.
Proof.
  split.
  - exact (proj1 (proj1 (mel2wav_global_generator (L:=stub [[1]]) 0%nat 3%nat 2 1)
                    (stub_world default_config 0 [])
                    (stub_world default_config 0 [call_mel]) eq_refl eq_refl)).
  - destruct stub_magnitude as (a & _ & Hmag).
    destruct (proj2 (mel2wav_global_generator (L:=stub [[1]]) 0%nat 3%nat 2 1)
                (stub_world default_config 0 []) _ 2%nat [[1]] [[0]] [[a]]
                eq_refl (fun _ => eq_refl) eq_refl eq_refl eq_refl Hmag eq_refl
                (stub_well_behaved _ _))
      as (l & w' & evs & E & _ & Hr & Ht & Hc).
    exists l, w', evs. split; [exact E|]. split; [exact Hr|].
    split; [exact Ht|exact Hc].
Defined.

Lemma stub_first_wave fb c x t :
  istft_val (stub fb) c [[Cmul (of_real x) (Cexp_i t)]]
  = [x * cos t - 0 * sin t].
Proof. reflexivity. Qed.

(** Two [mel2wav] calls in a row on the same spectrogram, no refinement
    rounds: the generator's state, 0 before the first call, is 1/2 before the
    second, and the two waveforms are opposite in sign. *)
Lemma mel2wav_counterexample :
  exists l1 w1 l2 w2 y1 y2,
    mel2wav 0%nat 3%nat 0 1 (stub_world default_config 0 []) = (Ok l1, w1) /\
    mel2wav 0%nat 3%nat 0 1 w1 = (Ok l2, w2) /\
    deref (heap w1) l1 = Some (Vec [y1]) /\
    deref (heap w2) l2 = Some (Vec [y2]) /\
    y1 <> y2.
Proof.
  destruct stub_magnitude as (a & Ha & Hmag).
  destruct (mel2wav_run (L:=stub [[1]]) 0%nat 3%nat 0 1
              (stub_world default_config 0 []) _ 2%nat [[1]] [[0]] [[a]]
              eq_refl (fun _ => eq_refl) eq_refl eq_refl eq_refl Hmag eq_refl
              (stub_well_behaved _ _ ))
    as (l1 & w1 & E1 & D1 & G1).
  pose proof G1 as (Hh1 & Hr1 & _).
  assert (Hself1 : heap w1 !! 0%nat
                   = Some (Object (mkObject default_config (Some 1%nat) (Some 2%nat))))
    by (by eapply prefix_lookup_Some; [|exact Hh1]).
  assert (Hinv1 : deref (heap w1) 2%nat = Some (Mat [[1]]))
    by (by eapply deref_prefix; [|exact Hh1]).
  assert (Hmel1 : deref (heap w1) 3%nat = Some (Mat [[0]]))
    by (by eapply deref_prefix; [|exact Hh1]).
  destruct (mel2wav_run (L:=stub [[1]]) 0%nat 3%nat 0 1 w1 _ 2%nat [[1]] [[0]] [[a]]
              Hself1 (fun _ => eq_refl) eq_refl Hinv1 Hmel1 Hmag eq_refl
              (stub_well_behaved _ _ ))
    as (l2 & w2 & E2 & D2 & G2).
  cbv zeta in D1, D2. simpl refinements in D1, D2. simpl fields in D1, D2.
  rewrite Hr1 in D2.
  change (np_random_rand (stub [[1]]) (rng (stub_world default_config 0 []))
            (nrows [[a]]) (ncols [[a]])).2 with (0 + 1 / 2) in D2.
  rewrite stub_first_wave in D1, D2.
  eexists l1, w1, l2, w2, _, _.
  split; [exact E1|]. split; [exact E2|]. split; [exact D1|]. split; [exact D2|].
  replace (2 * PI * 0) with 0 by lra.
  replace (2 * PI * (0 + 1 / 2)) with PI by lra.
  rewrite cos_0, cos_PI, sin_0, sin_PI.
  assert (0 < Rabs a) by (apply Rabs_pos_lt; lra). lra.
Qed.

(** ** C1, C2, C7: the arithmetic at one entry *)

Lemma np_clip_inside x lo hi : lo <= x <= hi -> np_clip x lo hi = x.
Proof.
  intros [Hlo Hhi]. unfold np_clip.
  rewrite Rmax_left by exact Hlo. by rewrite Rmin_left.
Qed.

Lemma np_clip_above x lo hi : lo <= hi -> hi <= x -> np_clip x lo hi = hi.
Proof.
  intros Hb Hx. unfold np_clip.
  rewrite Rmax_left by lra. by rewrite Rmin_right.
Qed.

(** The rescaling both modes start from, as a fraction of the range
    [ref_level_db + min_level_db .. ref_level_db]. *)
Lemma normalize_fraction (c : AudioConfig) (x : R) :
  min_level_db c <> 0 ->
  ((x - ref_level_db c) - min_level_db c) / (- min_level_db c)
  = (ref_level_db c + min_level_db c - x) / min_level_db c.
Proof. intros H. by field. Qed.

(** C1, as the code has it. In the scenario's configuration (symmetric,
    [max_norm = 1], [min_level_db = -100], [ref_level_db = 20]) the decibel
    value [ref_level_db + min_level_db = -80] normalises to exactly
    [-max_norm] and [ref_level_db = 20] to exactly [+max_norm], clipped or
    not; [ref_level_db + (-min_level_db) = 120] normalises to [3 * max_norm]
    before clipping and to [+max_norm] only once clipped. *)
Theorem normalize_scenario (c : AudioConfig) :
  symmetric_norm c = true -> max_norm c = 1 ->
  min_level_db c = -100 -> ref_level_db c = 20 ->
  Scalar.normalize c (ref_level_db c + min_level_db c) = - max_norm c /\
  Scalar.normalize c (ref_level_db c) = max_norm c /\
  Scalar.normalize c (ref_level_db c + - min_level_db c)
  = if clip_norm c then max_norm c else 3 * max_norm c.
Proof.
  intros Hs Hm Hmin Href. unfold Scalar.normalize.
  rewrite Hs, Hm, Hmin, Href.
  replace ((20 + -100 - 20 - -100) / - -100) with 0 by (field; lra).
  replace ((20 - 20 - -100) / - -100) with 1 by (field; lra).
  replace ((20 + - -100 - 20 - -100) / - -100) with 2 by (field; lra).
  destruct (clip_norm c).
  - split; [|split].
    + rewrite np_clip_inside; lra.
    + rewrite np_clip_inside; lra.
    + rewrite np_clip_above; lra.
  - split; [|split]; lra.
Qed.

Lemma normalize_scenario_witness :
  Scalar.normalize default_config
    (ref_level_db default_config + min_level_db default_config)
  = - max_norm default_config /\
  Scalar.normalize default_config (ref_level_db default_config)
  = max_norm default_config /\
  Scalar.normalize default_config
    (ref_level_db default_config + - min_level_db default_config)
  = max_norm default_config.
Proof.
  exact (normalize_scenario default_config eq_refl eq_refl eq_refl eq_refl).
Defined.

(** Before clipping, [ref_level_db] normalises to [+max_norm], not
    [-max_norm], and [ref_level_db + (-min_level_db)] to [3 * max_norm]. *)
Lemma normalize_scenario_counterexample :
  Scalar.normalize (with_clip_norm false default_config)
    (ref_level_db default_config)
  <> - max_norm default_config /\
  Scalar.normalize (with_clip_norm false default_config)
    (ref_level_db default_config + - min_level_db default_config)
  <> max_norm default_config.
Proof.
  unfold Scalar.normalize. simpl.
  replace ((20 - 20 - -100) / - -100) with 1 by (field; lra).
  replace ((20 + - -100 - 20 - -100) / - -100) with 2 by (field; lra).
  split; lra.
Qed.

Section Unclipped.
Context {L : Lib}.
Implicit Types (w : world L).

(** C2, at the code. With [clip_norm] off, [denormalize] reads the local
    [mel_denorm] before any assignment to it, in both modes: it raises
    [UnboundLocalError] on every input, on a float as on an array, and leaves
    the store as it was.  There is no round trip to speak of. *)
Theorem denormalize_unclipped_raises (c : AudioConfig) (x : R) :
  clip_norm c = false ->
  Scalar.denormalize c (Scalar.normalize c x) = Raise UnboundLocalError /\
  (forall self mel_db w o,
     heap w !! self = Some (Object o) -> fields o = c ->
     denormalize self mel_db w = (Raise UnboundLocalError, w)).
Proof.
  intros Hclip. split.
  - unfold Scalar.denormalize. rewrite Hclip. by destruct (symmetric_norm c).
  - intros self mel_db w o Hself <-.
    rewrite denormalize_eq, Hself. cbv zeta.
    rewrite !clip_scale_shift_eq, Hclip. by destruct (symmetric_norm (fields o)).
Qed.

End Unclipped.

Lemma denormalize_unclipped_raises_witness :
  Scalar.denormalize (with_clip_norm false default_config)
    (Scalar.normalize (with_clip_norm false default_config) 0)
  = Raise UnboundLocalError /\
  denormalize 0%nat 3%nat (stub_world (with_clip_norm false default_config) 0 [])
  = (Raise UnboundLocalError,
     stub_world (with_clip_norm false default_config) 0 []).
Proof.
  destruct (denormalize_unclipped_raises (L:=stub [[1]])
              (with_clip_norm false default_config) 0 eq_refl) as [H1 H2].
  split; [exact H1|].
  exact (H2 0%nat 3%nat (stub_world (with_clip_norm false default_config) 0 [])
           _ eq_refl eq_refl).
Defined.

(** X1. The round trip the code does make: with [clip_norm] on,
    [denormalize] undoes [normalize] on the range that normalisation does not
    clip, [ref_level_db + min_level_db .. ref_level_db], in both modes. *)
Theorem denormalize_normalize_clipped (c : AudioConfig) (x : R) :
  clip_norm c = true -> 0 < max_norm c -> min_level_db c < 0 ->
  ref_level_db c + min_level_db c <= x <= ref_level_db c ->
  Scalar.denormalize c (Scalar.normalize c x) = Ok x.
Proof.
  intros Hclip Hm Hmin [Hlo Hhi].
  unfold Scalar.denormalize, Scalar.normalize. rewrite Hclip.
  set (t := ((x - ref_level_db c) - min_level_db c) / (- min_level_db c)).
  assert (Ht : 0 <= t <= 1).
  { unfold t. split.
    - apply Rmult_le_pos; [lra|]. left. apply Rinv_0_lt_compat. lra.
    - apply (Rmult_le_reg_r (- min_level_db c)); [lra|].
      unfold Rdiv. rewrite Rmult_assoc, Rinv_l by lra. lra. }
  assert (Hx : t * - min_level_db c = (x - ref_level_db c) - min_level_db c).
  { unfold t, Rdiv. rewrite Rmult_assoc, Rinv_l by lra. lra. }
  destruct (symmetric_norm c); simpl.
  - assert (Hy : - max_norm c <= 2 * max_norm c * t - max_norm c <= max_norm c)
      by (split; nra).
    rewrite !(np_clip_inside _ _ _ Hy). f_equal.
    replace ((2 * max_norm c * t - max_norm c + max_norm c) * - min_level_db c
             / (2 * max_norm c)) with (t * - min_level_db c) by (field; lra).
    lra.
  - assert (Hy : 0 <= max_norm c * t <= max_norm c) by (split; nra).
    rewrite !(np_clip_inside _ _ _ Hy). f_equal.
    replace (max_norm c * t * - min_level_db c / max_norm c)
      with (t * - min_level_db c) by (field; lra).
    lra.
Qed.

Lemma denormalize_normalize_clipped_witness :
  Scalar.denormalize default_config (Scalar.normalize default_config 0) = Ok 0.
Proof.
  apply (denormalize_normalize_clipped default_config 0);
    [reflexivity | simpl; lra | simpl; lra | simpl; lra].
Defined.

Lemma ln_10_pos : 0 < ln 10.
Proof. rewrite <- ln_1. apply ln_increasing; lra. Qed.

Lemma np_power_log10 a : 0 < a -> np_power 10 (np_log10 a) = a.
Proof.
  intros Ha. unfold np_power, np_log10, Rpower.
  replace (ln a / ln 10 * ln 10) with (ln a).
  - by apply exp_ln.
  - field. apply Rgt_not_eq, ln_10_pos.
Qed.

(** C7. Over the reals, for a positive gain and an amplitude above the floor
    [1e-5], [db_to_amp] undoes [amp_to_db]. *)
Theorem db_to_amp_amp_to_db (c : AudioConfig) (a : R) :
  0 < spec_gain c -> amp_floor < a ->
  Scalar.db_to_amp c (Scalar.amp_to_db c a amp_floor) default_power = a.
Proof.
  intros Hg Ha.
  assert (Hpos : 0 < a) by (unfold amp_floor in Ha; lra).
  unfold Scalar.db_to_amp, Scalar.amp_to_db, np_maximum, default_power.
  rewrite Rmax_right by lra.
  replace (spec_gain c * np_log10 a / spec_gain c) with (np_log10 a)
    by (field; lra).
  by apply np_power_log10.
Qed.

Lemma db_to_amp_amp_to_db_witness :
  Scalar.db_to_amp default_config (Scalar.amp_to_db default_config 1 amp_floor)
    default_power = 1.
Proof.
  apply (db_to_amp_amp_to_db default_config 1); simpl; unfold amp_floor; lra.
Defined.

(** ** Further properties of the arithmetic *)

Lemma np_clip_below x lo hi : lo <= hi -> x <= lo -> np_clip x lo hi = lo.
Proof.
  intros Hb Hx. unfold np_clip.
  rewrite Rmax_right by lra. by rewrite Rmin_left.
Qed.

Lemma np_clip_range x lo hi : lo <= hi -> lo <= np_clip x lo hi <= hi.
Proof.
  intros Hb. unfold np_clip. split.
  - apply Rmin_glb; [apply Rmax_r | exact Hb].
  - apply Rmin_r.
Qed.

(** X2. Clipping is lossy: with [clip_norm] on, a decibel value at or above
    [ref_level_db] comes back from the round trip as [ref_level_db], and one
    at or below [ref_level_db + min_level_db] as that bound. *)
Theorem denormalize_normalize_saturates (c : AudioConfig) (x : R) :
  clip_norm c = true -> 0 < max_norm c -> min_level_db c < 0 ->
  (ref_level_db c <= x ->
   Scalar.denormalize c (Scalar.normalize c x) = Ok (ref_level_db c)) /\
  (x <= ref_level_db c + min_level_db c ->
   Scalar.denormalize c (Scalar.normalize c x)
   = Ok (ref_level_db c + min_level_db c)).
Proof.
  intros Hclip Hm Hmin.
  unfold Scalar.denormalize, Scalar.normalize. rewrite Hclip.
  set (t := ((x - ref_level_db c) - min_level_db c) / (- min_level_db c)).
  assert (Hx : t * - min_level_db c = (x - ref_level_db c) - min_level_db c).
  { unfold t, Rdiv. rewrite Rmult_assoc, Rinv_l by lra. lra. }
  split; intros Hr.
  - assert (Ht : 1 <= t) by nra.
    destruct (symmetric_norm c); simpl.
    + rewrite (np_clip_above (2 * max_norm c * t - max_norm c)) by nra.
      rewrite np_clip_inside by lra. f_equal. field. lra.
    + rewrite (np_clip_above (max_norm c * t)) by nra.
      rewrite np_clip_inside by lra. f_equal. field. lra.
  - assert (Ht : t <= 0) by nra.
    destruct (symmetric_norm c); simpl.
    + rewrite (np_clip_below (2 * max_norm c * t - max_norm c)) by nra.
      rewrite np_clip_inside by lra. f_equal. field. lra.
    + rewrite (np_clip_below (max_norm c * t)) by nra.
      rewrite np_clip_inside by lra. f_equal. field. lra.
Qed.

Lemma denormalize_normalize_saturates_witness :
  Scalar.denormalize default_config (Scalar.normalize default_config 50) = Ok 20 /\
  Scalar.denormalize default_config (Scalar.normalize default_config (-90))
  = Ok (20 + -100).
Proof.
  split.
  - apply (denormalize_normalize_saturates default_config 50);
      [reflexivity | simpl; lra | simpl; lra | simpl; lra].
  - apply (denormalize_normalize_saturates default_config (-90));
      [reflexivity | simpl; lra | simpl; lra | simpl; lra].
Defined.

(** X3. The docstring of [normalize]: with [clip_norm] on, a non-negative
    [max_norm] and [min_level_db < 0] (the method divides by
    [- min_level_db]), the result lies in [[-max_norm, max_norm]] (symmetric)
    or [[0, max_norm]] (asymmetric), whatever the input. *)
Theorem normalize_range (c : AudioConfig) (x : R) :
  clip_norm c = true -> 0 <= max_norm c -> min_level_db c < 0 ->
  (if symmetric_norm c then - max_norm c else 0) <= Scalar.normalize c x
  <= max_norm c.
Proof.
  intros Hclip Hm _. unfold Scalar.normalize. rewrite Hclip.
  destruct (symmetric_norm c); apply np_clip_range; lra.
Qed.

Lemma normalize_range_witness :
  -1 <= Scalar.normalize default_config 1000 <= 1.
Proof.
  pose proof (normalize_range default_config 1000 eq_refl) as H.
  simpl in H. apply H; lra.
Defined.

Lemma log10_floor : np_log10 amp_floor = -5.
Proof.
  unfold np_log10, amp_floor.
  replace (1 / 100000) with (/ 10 ^ 5) by (simpl; lra).
  rewrite ln_Rinv by (apply pow_lt; lra).
  rewrite ln_pow by lra. simpl INR.
  field. apply Rgt_not_eq, ln_10_pos.
Qed.

(** X4. Below the floor the amplitude is lost: every amplitude at or below
    [1e-5] has the decibel value [-5 * spec_gain]. *)
Theorem amp_to_db_floor (c : AudioConfig) (a : R) :
  a <= amp_floor -> Scalar.amp_to_db c a amp_floor = spec_gain c * -5.
Proof.
  intros Ha. unfold Scalar.amp_to_db, np_maximum.
  rewrite Rmax_left by exact Ha. by rewrite log10_floor.
Qed.

Lemma amp_to_db_floor_witness :
  Scalar.amp_to_db default_config 0 amp_floor = spec_gain default_config * -5.
Proof. apply (amp_to_db_floor default_config 0). unfold amp_floor. lra. Defined.

Section Views.
Context {L : Lib}.
Implicit Types (w : world L).

Lemma slice_array_cell a start stop w v :
  heap w !! a = Some (Array (Vec v)) ->
  slice a start stop w
  = alloc (View a (slice_bounds (Z.of_nat (length v)) start stop).1
                  (slice_bounds (Z.of_nat (length v)) start stop).2) w.
Proof.
  intros Ha. unfold slice. rewrite Ha.
  by destruct (slice_bounds (Z.of_nat (length v)) start stop).
Qed.

Lemma slice_view_cell a start stop w b o k v :
  heap w !! a = Some (View b o k) ->
  heap w !! b = Some (Array (Vec v)) ->
  slice a start stop w
  = alloc (View b
             (o + (slice_bounds (Z.of_nat (length (window o k v))) start stop).1)
             (slice_bounds (Z.of_nat (length (window o k v))) start stop).2) w.
Proof.
  intros Ha Hb. unfold slice. rewrite Ha, Hb.
  by destruct (slice_bounds (Z.of_nat (length (window o k v))) start stop).
Qed.

Lemma trim_silence_cells self wav trim_db margin_sec keep_sec w o v l w' :
  heap w !! self = Some (Object o) ->
  heap w !! wav = Some (Array (Vec v)) ->
  trim_silence self wav trim_db margin_sec keep_sec w = (Ok l, w') ->
  let c := fields o in
  let margin := py_int (IZR (sample_rate c) * margin_sec) in
  let keep := py_int (IZR (sample_rate c) * keep_sec) in
  let b1 := slice_bounds (Z.of_nat (length v)) margin (- margin) in
  let y := window b1.1 b1.2 v in
  exists t0 t1,
    librosa_effects_trim L y trim_db (win_length c) (hop_length c) = Ok (t0, t1) /\
    let b2 := slice_bounds (Z.of_nat (length y)) (Z.max 0 (t0 - keep))
                (Z.min (Z.of_nat (length y)) (t1 + keep)) in
    (b1.1 + b1.2 <= length v)%nat /\
    (b2.1 + b2.2 <= length y)%nat /\
    l = S (length (heap w)) /\
    heap w' = heap w ++ [View wav b1.1 b1.2; View wav (b1.1 + b2.1) b2.2] /\
    trace w' = trace w ++ [call_trim y].
Proof.
  intros Hself Hwav Hrun c margin keep b1 y. revert Hrun. unfold trim_silence.
  rewrite (bind_ok _ _ _ _ _ (getobj_ok _ _ _ Hself)). fold c margin keep.
  pose proof (slice_bounds_inside (Z.of_nat (length v)) margin (- margin)
                ltac:(lia)) as Hin1.
  rewrite (bind_ok _ _ _ _ _ (slice_array_cell wav margin (- margin) w v Hwav)).
  fold b1 in Hin1. fold b1.
  set (w1 := set_heap (heap w ++ [View wav b1.1 b1.2]) w).
  assert (H1 : heap w1 !! length (heap w) = Some (View wav b1.1 b1.2))
    by (simpl; apply list_lookup_middle; done).
  assert (Hw1 : heap w1 !! wav = Some (Array (Vec v)))
    by (simpl; apply lookup_app_l_Some; done).
  assert (D1 : deref (heap w1) (length (heap w)) = Some (Vec y))
    by (unfold deref; rewrite H1, Hw1; done).
  rewrite (bind_ok _ _ _ _ _ (load_vec_ok _ _ _ D1)).
  destruct (librosa_effects_trim L y trim_db (win_length c) (hop_length c))
    as [[t0 t1]|e] eqn:Hlib; [|discriminate].
  unfold extern at 1. unfold bind at 1.
  set (w2 := mkWorld (heap w1) (rng w1) (trace w1 ++ [call_trim y])).
  assert (D2 : deref (heap w2) (length (heap w)) = Some (Vec y)) by exact D1.
  rewrite (bind_ok _ _ _ _ _ (len_ok _ _ _ D2)).
  set (a := Z.max 0 (t0 - keep)).
  set (b := Z.min (Z.of_nat (length y)) (t1 + keep)).
  pose proof (slice_bounds_inside (Z.of_nat (length y)) a b ltac:(lia)) as Hin2.
  rewrite (slice_view_cell (length (heap w)) a b w2 wav b1.1 b1.2 v H1 Hw1).
  fold y. intros [= <- <-].
  exists t0, t1. split; [reflexivity|]. cbv zeta. fold a b.
  split; [lia|]. split; [rewrite Nat2Z.id in Hin2; exact Hin2|].
  split; [|split].
  - simpl. rewrite length_app. simpl. lia.
  - simpl. rewrite <- app_assoc. reflexivity.
  - reflexivity.
Qed.

End Views.

(** ** Further properties of the arithmetic, continued *)

Lemma np_clip_mono x y lo hi : x <= y -> np_clip x lo hi <= np_clip y lo hi.
Proof.
  intros H. unfold np_clip.
  apply Rle_min_compat_r, Rle_max_compat_r, H.
Qed.

Lemma np_clip_idem x lo hi : np_clip (np_clip x lo hi) lo hi = np_clip x lo hi.
Proof.
  unfold np_clip.
  destruct (Rle_dec lo hi) as [H|H].
  - rewrite (Rmax_left (Rmin _ _) lo).
    + apply Rmin_left, Rmin_r.
    + apply Rmin_glb; [apply Rmax_r|exact H].
  - assert (Hi : Rmin (Rmax x lo) hi = hi).
    { apply Rmin_right. pose proof (Rmax_r x lo). lra. }
    rewrite Hi, Rmax_right by lra. apply Rmin_right. lra.
Qed.

Lemma amp_floor_power : np_power 10 (-5) = amp_floor.
Proof.
  assert (Hpos : 0 < amp_floor) by (unfold amp_floor; lra).
  unfold np_power, Rpower.
  transitivity (exp (ln amp_floor)); [|exact (exp_ln _ Hpos)]. f_equal.
  pose proof log10_floor as H. unfold np_log10 in H.
  pose proof ln_10_pos.
  apply (Rmult_eq_compat_r (ln 10)) in H.
  unfold Rdiv in H. rewrite Rmult_assoc, Rinv_l, Rmult_1_r in H by lra.
  lra.
Qed.

Lemma np_log10_power x : np_log10 (np_power 10 x) = x.
Proof.
  unfold np_log10, np_power, Rpower. rewrite ln_exp.
  field. apply Rgt_not_eq, ln_10_pos.
Qed.

Lemma np_log10_mono x y : 0 < x -> x <= y -> np_log10 x <= np_log10 y.
Proof.
  intros Hx Hxy. unfold np_log10, Rdiv.
  apply Rmult_le_compat_r.
  - left. apply Rinv_0_lt_compat, ln_10_pos.
  - destruct Hxy as [Hlt| ->]; [left; by apply ln_increasing | right; reflexivity].
Qed.

Lemma normalize_within (c : AudioConfig) (x : R) :
  clip_norm c = true -> 0 <= max_norm c -> min_level_db c < 0 ->
  norm_floor c <= Scalar.normalize c x <= max_norm c.
Proof.
  intros Hclip Hm _. unfold Scalar.normalize, norm_floor. rewrite Hclip.
  destruct (symmetric_norm c); apply np_clip_range; lra.
Qed.

Lemma amp_to_db_bounded_below (c : AudioConfig) (a : R) :
  0 <= spec_gain c -> spec_gain c * -5 <= Scalar.amp_to_db c a amp_floor.
Proof.
  intros Hg. unfold Scalar.amp_to_db, np_maximum.
  apply Rmult_le_compat_l; [exact Hg|].
  rewrite <- log10_floor. apply np_log10_mono.
  - unfold amp_floor. lra.
  - apply Rmax_l.
Qed.

Lemma denorm_value_normalize (c : AudioConfig) (x : R) :
  clip_norm c = true -> 0 < max_norm c -> min_level_db c < 0 ->
  ref_level_db c + min_level_db c <= x <= ref_level_db c ->
  denorm_value c (Scalar.normalize c x) = x.
Proof.
  intros Hclip Hm Hmin [Hlo Hhi].
  rewrite denorm_value_clipped by exact Hclip.
  unfold Scalar.normalize. rewrite Hclip.
  set (t := ((x - ref_level_db c) - min_level_db c) / (- min_level_db c)).
  assert (Hx : t * - min_level_db c = (x - ref_level_db c) - min_level_db c).
  { unfold t, Rdiv. rewrite Rmult_assoc, Rinv_l by lra. lra. }
  assert (Ht : 0 <= t <= 1) by (split; nra).
  destruct (symmetric_norm c).
  - rewrite np_clip_idem, np_clip_inside by (split; nra).
    replace ((2 * max_norm c * t - max_norm c + max_norm c) * - min_level_db c
             / (2 * max_norm c)) with (t * - min_level_db c) by (field; lra).
    lra.
  - rewrite np_clip_idem, np_clip_inside by (split; nra).
    replace (max_norm c * t * - min_level_db c / max_norm c)
      with (t * - min_level_db c) by (field; lra).
    lra.
Qed.

(** X14. The other direction of the decibel round trip: for a positive gain,
    [amp_to_db] undoes [db_to_amp] on every decibel value at or above
    [-5 * spec_gain], the value of the amplitude floor [1e-5] (over the
    reals). *)
Theorem amp_to_db_db_to_amp (c : AudioConfig) (d : R) :
  0 < spec_gain c -> spec_gain c * -5 <= d ->
  Scalar.amp_to_db c (Scalar.db_to_amp c d default_power) amp_floor = d.
Proof.
  intros Hg Hd.
  assert (Hq : -5 <= d / spec_gain c).
  { apply (Rmult_le_reg_r (spec_gain c)); [exact Hg|].
    unfold Rdiv. rewrite Rmult_assoc, Rinv_l by lra. lra. }
  unfold Scalar.amp_to_db, Scalar.db_to_amp, np_maximum, default_power.
  rewrite Rmax_right.
  - rewrite np_log10_power. field. lra.
  - rewrite <- amp_floor_power. apply Rle_Rpower; [lra|exact Hq].
Qed.

Lemma amp_to_db_db_to_amp_witness :
  Scalar.amp_to_db default_config
    (Scalar.db_to_amp default_config (-3) default_power) amp_floor = -3.
Proof. apply (amp_to_db_db_to_amp default_config (-3)); simpl; lra. Defined.

(** X15. [normalize] keeps the order of decibel values: for
    [min_level_db < 0] and [max_norm >= 0] it is non-decreasing, in both
    modes, clipped or not. *)
Theorem normalize_monotone (c : AudioConfig) (x y : R) :
  min_level_db c < 0 -> 0 <= max_norm c -> x <= y ->
  Scalar.normalize c x <= Scalar.normalize c y.
Proof.
  intros Hmin Hm Hxy. unfold Scalar.normalize.
  set (t := fun v => ((v - ref_level_db c) - min_level_db c) / (- min_level_db c)).
  assert (Ht : t x <= t y).
  { unfold t, Rdiv. apply Rmult_le_compat_r; [|lra].
    left. apply Rinv_0_lt_compat. lra. }
  fold (t x) (t y).
  assert (H1 : 2 * max_norm c * t x - max_norm c
               <= 2 * max_norm c * t y - max_norm c) by nra.
  assert (H2 : max_norm c * t x <= max_norm c * t y) by nra.
  destruct (symmetric_norm c), (clip_norm c); simpl;
    try apply np_clip_mono; assumption.
Qed.

Lemma normalize_monotone_witness :
  Scalar.normalize default_config (-40) <= Scalar.normalize default_config 10.
Proof. apply (normalize_monotone default_config); simpl; lra. Defined.

(** X16. What [denormalize] can return: with [clip_norm] on,
    [0 < max_norm] and [min_level_db < 0] the result lies in
    [[ref_level_db + min_level_db, ref_level_db]], whatever the input. *)
Theorem denormalize_range (c : AudioConfig) (x : R) :
  clip_norm c = true -> 0 < max_norm c -> min_level_db c < 0 ->
  exists y, Scalar.denormalize c x = Ok y /\
            ref_level_db c + min_level_db c <= y <= ref_level_db c.
Proof.
  intros Hclip Hm Hmin. unfold Scalar.denormalize. rewrite Hclip.
  destruct (symmetric_norm c); simpl; eexists; (split; [reflexivity|]).
  - pose proof (np_clip_range x (- max_norm c) (max_norm c) ltac:(lra)) as Hv.
    set (v := np_clip x (- max_norm c) (max_norm c)) in *.
    replace ((v + max_norm c) * - min_level_db c / (2 * max_norm c))
      with ((v + max_norm c) / (2 * max_norm c) * - min_level_db c)
      by (field; lra).
    assert (Hu : 0 <= (v + max_norm c) / (2 * max_norm c) <= 1).
    { split.
      - apply Rmult_le_pos; [lra|]. left. apply Rinv_0_lt_compat. lra.
      - apply (Rmult_le_reg_r (2 * max_norm c)); [lra|].
        unfold Rdiv. rewrite Rmult_assoc, Rinv_l by lra. lra. }
    split; nra.
  - pose proof (np_clip_range x 0 (max_norm c) ltac:(lra)) as Hv.
    set (v := np_clip x 0 (max_norm c)) in *.
    replace (v * - min_level_db c / max_norm c)
      with (v / max_norm c * - min_level_db c) by (field; lra).
    assert (Hu : 0 <= v / max_norm c <= 1).
    { split.
      - apply Rmult_le_pos; [lra|]. left. apply Rinv_0_lt_compat. lra.
      - apply (Rmult_le_reg_r (max_norm c)); [lra|].
        unfold Rdiv. rewrite Rmult_assoc, Rinv_l by lra. lra. }
    split; nra.
Qed.

Lemma denormalize_range_witness :
  exists y, Scalar.denormalize default_config 7 = Ok y /\ 20 + -100 <= y <= 20.
Proof.
  apply (denormalize_range default_config 7); [reflexivity|simpl; lra|simpl; lra].
Defined.

(** ** Slices are views *)

Section ViewsOfInput.
Context {L : Lib}.
Implicit Types (w : world L).

(** X17. [trim_silence] copies no samples: on an array that owns its data,
    a call that returns has allocated exactly two cells, both views of the
    caller's own array -- first the margin slice [wav[margin:-margin]], then
    the slice of it that the trimmer's interval, widened by the padding,
    selects -- and returns the second, a window that lies inside the array;
    the array itself is left as it was. *)
Theorem trim_silence_returns_view (self wav : loc)
    (trim_db margin_sec keep_sec : R) (w w' : world L) (o : object)
    (v : list R) (l : loc) :
  heap w !! self = Some (Object o) ->
  heap w !! wav = Some (Array (Vec v)) ->
  trim_silence self wav trim_db margin_sec keep_sec w = (Ok l, w') ->
  let c := fields o in
  let margin := py_int (IZR (sample_rate c) * margin_sec) in
  let keep := py_int (IZR (sample_rate c) * keep_sec) in
  let b1 := slice_bounds (Z.of_nat (length v)) margin (- margin) in
  let y := window b1.1 b1.2 v in
  exists t0 t1,
    librosa_effects_trim L y trim_db (win_length c) (hop_length c) = Ok (t0, t1) /\
    let b2 := slice_bounds (Z.of_nat (length y)) (Z.max 0 (t0 - keep))
                (Z.min (Z.of_nat (length y)) (t1 + keep)) in
    heap w' = heap w ++ [View wav b1.1 b1.2; View wav (b1.1 + b2.1) b2.2] /\
    l = S (length (heap w)) /\
    heap w' !! l = Some (View wav (b1.1 + b2.1) b2.2) /\
    (b1.1 + b2.1 + b2.2 <= length v)%nat /\
    deref (heap w') l = Some (Vec (window (b1.1 + b2.1) b2.2 v)) /\
    heap w' !! wav = Some (Array (Vec v)).
Proof.
  intros Hself Hwav Hrun c margin keep b1 y.
  destruct (trim_silence_cells self wav trim_db margin_sec keep_sec w o v l w'
              Hself Hwav Hrun) as (t0 & t1 & Hlib & H1 & H2 & -> & Hh & _).
  fold c margin keep b1 y in Hlib, H1, H2, Hh.
  exists t0, t1. split; [exact Hlib|]. cbv zeta.
  set (b2 := slice_bounds (Z.of_nat (length y)) (Z.max 0 (t0 - keep))
               (Z.min (Z.of_nat (length y)) (t1 + keep))) in *.
  assert (Hl : heap w' !! S (length (heap w))
               = Some (View wav (b1.1 + b2.1) b2.2))
    by (rewrite Hh; apply lookup_snoc2').
  assert (Hw : heap w' !! wav = Some (Array (Vec v)))
    by (rewrite Hh; apply lookup_app_l_Some; exact Hwav).
  split; [exact Hh|]. split; [reflexivity|]. split; [exact Hl|].
  split.
  - unfold y in H2. rewrite length_window in H2. lia.
  - split; [unfold deref; by rewrite Hl, Hw|exact Hw].
Qed.

Lemma py_int_small (x : R) : -1 < x < 1 -> py_int x = 0%Z.
Proof.
  intros [Hlo Hhi]. unfold py_int. destruct (Rle_dec 0 x) as [Hx|Hx].
  - apply Zfloor_eq. simpl. lra.
  - apply Zceil_eq. simpl. lra.
Qed.

Lemma py_slice_stop_0 {A} (v : list A) (start : Z) :
  (0 <= start)%Z -> py_slice v start 0 = [].
Proof.
  intros Hs. unfold py_slice, slice_bounds, slice_index, window.
  destruct (start <? 0)%Z eqn:E1; [lia|].
  change (0 <? 0)%Z with false. cbv iota.
  replace (Z.to_nat _) with 0%nat by lia. apply take_0.
Qed.

Lemma py_slice_nil {A} (start stop : Z) : py_slice (@nil A) start stop = [].
Proof.
  pose proof (length_py_slice (@nil A) start stop) as H.
  destruct (py_slice [] start stop); [reflexivity|simpl in H; lia].
Qed.

(** X18. A margin shorter than one sample drops the whole signal: when
    [int(sample_rate * margin_sec)] is 0 ([margin_sec = 0] included) the slice
    [wav[margin:-margin]] is [wav[0:0]], so the library's trimmer is given an
    empty signal and the call returns an empty array whenever the trimmer
    returns, whatever the samples were. *)
Theorem trim_silence_zero_margin (self wav : loc)
    (trim_db margin_sec keep_sec : R) (w : world L) (o : object) (v : list R) :
  heap w !! self = Some (Object o) ->
  deref (heap w) wav = Some (Vec v) ->
  -1 < IZR (sample_rate (fields o)) * margin_sec < 1 ->
  match librosa_effects_trim L [] trim_db (win_length (fields o))
          (hop_length (fields o)) with
  | Ok _ =>
      exists l w',
        trim_silence self wav trim_db margin_sec keep_sec w = (Ok l, w') /\
        deref (heap w') l = Some (Vec []) /\
        trace w' = trace w ++ [call_trim []]
  | Raise e =>
      (trim_silence self wav trim_db margin_sec keep_sec w).1 = Raise e
  end.
Proof.
  intros Hself Hwav Hm.
  assert (Hy : py_slice v (py_int (IZR (sample_rate (fields o)) * margin_sec))
                 (- py_int (IZR (sample_rate (fields o)) * margin_sec)) = []).
  { rewrite (py_int_small _ Hm). change (- 0)%Z with 0%Z.
    apply py_slice_stop_0. lia. }
  destruct (librosa_effects_trim L [] trim_db (win_length (fields o))
              (hop_length (fields o))) as [[t0 t1]|e] eqn:Hlib.
  - pose proof (trim_silence_run self wav trim_db margin_sec keep_sec w o v t0 t1
                  Hself Hwav) as Hrun.
    cbv zeta in Hrun. rewrite Hy in Hrun.
    destruct (Hrun Hlib) as (l & w' & E & D & _ & _ & Ht).
    exists l, w'. split; [exact E|]. split; [|exact Ht].
    rewrite D, py_slice_nil. reflexivity.
  - pose proof (trim_silence_raise self wav trim_db margin_sec keep_sec w o v e
                  Hself Hwav) as Hrun.
    cbv zeta in Hrun. rewrite Hy in Hrun. exact (Hrun Hlib).
Qed.

End ViewsOfInput.

Lemma trim_silence_returns_view_witness :
  exists l w' off1 n1 off n,
    trim_silence 0%nat 4%nat 60 (1 / 100) (1 / 10)
      (stub_world (with_rate 100 (Some 50) default_config) 0 []) = (Ok l, w') /\
    heap w'
    = stub_heap (with_rate 100 (Some 50) default_config)
        ++ [View 4%nat off1 n1; View 4%nat off n] /\
    l = 6%nat /\
    (off + n <= 5)%nat.
Proof.
  destruct (trim_silence_run (L:=stub [[1]]) 0%nat 4%nat 60 (1 / 100) (1 / 10)
              (stub_world (with_rate 100 (Some 50) default_config) 0 [])
              _ [0; 0; 0; 0; 0] 0%Z 0%Z eq_refl eq_refl eq_refl)
    as (l & w' & E & _).
  destruct (trim_silence_returns_view (L:=stub [[1]]) 0%nat 4%nat 60 (1 / 100)
              (1 / 10) (stub_world (with_rate 100 (Some 50) default_config) 0 [])
              w' _ [0; 0; 0; 0; 0] l eq_refl eq_refl E)
    as (t0 & t1 & _ & Hh & Hl & _ & Hb & _).
  eexists l, w', _, _, _, _. split; [exact E|]. split; [exact Hh|].
  split; [exact Hl|exact Hb].
Defined.

Lemma trim_silence_zero_margin_witness :
  exists l w',
    trim_silence 0%nat 4%nat 60 0 (1 / 10) (stub_world default_config 0 [])
    = (Ok l, w') /\
    deref (heap w') l = Some (Vec []).
Proof.
  pose proof (trim_silence_zero_margin (L:=stub [[1]]) 0%nat 4%nat 60 0 (1 / 10)
                (stub_world default_config 0 []) _ [0; 0; 0; 0; 0]
                eq_refl eq_refl) as H.
  simpl in H. destruct H as (l & w' & E & D & _); [lra|].
  exists l, w'. split; [exact E|exact D].
Defined.

(** ** What [wav2mel] returns *)

Section MelRange.
Context {L : Lib}.
Implicit Types (w : world L).

Lemma bind_inv {A B} (m : M L A) (k : A -> M L B) w b w' :
  bind m k w = (Ok b, w') ->
  exists a w1, m w = (Ok a, w1) /\ k a w1 = (Ok b, w').
Proof.
  unfold bind. destruct (m w) as [[a|e] w1]; [|discriminate]. eauto.
Qed.

Lemma tidy_prefix {A} (m : M L A) w r w' :
  tidy m -> m w = (r, w') -> heap w `prefix_of` heap w'.
Proof.
  intros Hm Hr. destruct (tidy_run m w Hm) as [Hp _]. by rewrite Hr in Hp.
Qed.

Lemma np_unary_inv f a w l w' :
  np_unary f a w = (Ok l, w') ->
  exists x, is_real x = true /\ deref (heap w) a = Some x /\
            deref (heap w') l = Some (amap f x).
Proof.
  rewrite np_unary_eq. destruct (deref (heap w) a) as [x|]; [|discriminate].
  destruct (is_real x) eqn:Hr; [|discriminate].
  intros [= <- <-]. exists x. split; [exact Hr|]. split; [reflexivity|].
  apply deref_fresh.
Qed.

Lemma entries_amap f x :
  is_real x = true -> entries (amap f x) = map f (entries x).
Proof.
  destruct x as [v|m|m]; [reflexivity| |discriminate].
  intros _. simpl. unfold mmap. induction m as [|r m IH]; [reflexivity|].
  simpl. by rewrite map_app, IH.
Qed.

(** The array [wav2mel] returns is the last elementwise step applied to some
    float array: [normalize] when [signal_norm] is set, [amp_to_db]
    otherwise. *)
Lemma wav2mel_last_step self wav w o l w' :
  heap w !! self = Some (Object o) ->
  wav2mel self wav w = (Ok l, w') ->
  exists x, is_real x = true /\
    deref (heap w') l
    = Some (amap (if signal_norm (fields o)
                  then Scalar.normalize (fields o)
                  else fun v => Scalar.amp_to_db (fields o) v amp_floor) x).
Proof.
  intros Hself Hrun. unfold wav2mel in Hrun.
  rewrite (bind_ok _ _ _ _ _ (getobj_ok _ _ _ Hself)) in Hrun.
  apply bind_inv in Hrun as (wav1 & w1 & E1 & Hrun).
  apply bind_inv in Hrun as (l2 & w2 & E2 & Hrun).
  apply bind_inv in Hrun as (l3 & w3 & E3 & Hrun).
  apply bind_inv in Hrun as (l4 & w4 & E4 & Hrun).
  apply bind_inv in Hrun as (l5 & w5 & E5 & Hrun).
  assert (P1 : heap w `prefix_of` heap w1).
  { destruct (do_trim_silence (fields o)).
    - exact (tidy_prefix _ _ _ _ (tidy_trim_silence _ _ _ _ _) E1).
    - injection E1 as _ <-. reflexivity. }
  pose proof (tidy_prefix _ _ _ _ (tidy_stft _ _) E2) as P2.
  pose proof (tidy_prefix _ _ _ _ (tidy_np_abs _) E3) as P3.
  pose proof (tidy_prefix _ _ _ _ (tidy_linear_to_mel _ _) E4) as P4.
  assert (H4 : heap w4 !! self = Some (Object o)).
  { eapply prefix_lookup_Some; [|exact P4].
    eapply prefix_lookup_Some; [|exact P3].
    eapply prefix_lookup_Some; [|exact P2].
    eapply prefix_lookup_Some; [exact Hself|exact P1]. }
  unfold amp_to_db in E5.
  rewrite (bind_ok _ _ _ _ _ (getobj_ok _ _ _ H4)) in E5.
  destruct (np_unary_inv _ _ _ _ _ E5) as (x & Hx & _ & D5).
  destruct (signal_norm (fields o)).
  - pose proof (tidy_prefix _ _ _ _ (tidy_np_unary _ _) E5) as P5.
    unfold normalize in Hrun.
    rewrite (bind_ok _ _ _ _ _
               (getobj_ok _ _ _ (prefix_lookup_Some _ _ _ _ H4 P5))) in Hrun.
    destruct (np_unary_inv _ _ _ _ _ Hrun) as (y & Hy & _ & D6).
    exists y. split; [exact Hy|exact D6].
  - injection Hrun as <- <-. exists x. split; [exact Hx|exact D5].
Qed.

(** X19. With [signal_norm] and [clip_norm] on, a non-negative [max_norm]
    and [min_level_db < 0], every entry of the mel spectrogram [wav2mel]
    returns lies in [[-max_norm, max_norm]] (symmetric) or [[0, max_norm]]
    (asymmetric), whatever the samples, the trimming and the library's
    transform were. *)
Theorem wav2mel_normalized_range (self wav : loc) (w w' : world L) (o : object)
    (l : loc) :
  heap w !! self = Some (Object o) ->
  signal_norm (fields o) = true -> clip_norm (fields o) = true ->
  0 <= max_norm (fields o) -> min_level_db (fields o) < 0 ->
  wav2mel self wav w = (Ok l, w') ->
  exists out, deref (heap w') l = Some out /\ is_real out = true /\
    Forall (fun v => norm_floor (fields o) <= v <= max_norm (fields o))
      (entries out).
Proof.
  intros Hself Hs Hc Hm Hmin Hrun.
  destruct (wav2mel_last_step self wav w o l w' Hself Hrun) as (x & Hx & D).
  rewrite Hs in D. eexists. split; [exact D|].
  split; [by rewrite is_real_amap|].
  rewrite entries_amap by exact Hx. apply Forall_map, Forall_forall.
  intros v _. simpl. by apply normalize_within.
Qed.

(** X20. Without normalisation ([signal_norm] off) and with a non-negative
    gain, no entry of the mel spectrogram [wav2mel] returns is below
    [-5 * spec_gain], the decibel value of the amplitude floor. *)
Theorem wav2mel_decibel_floor (self wav : loc) (w w' : world L) (o : object)
    (l : loc) :
  heap w !! self = Some (Object o) ->
  signal_norm (fields o) = false -> 0 <= spec_gain (fields o) ->
  wav2mel self wav w = (Ok l, w') ->
  exists out, deref (heap w') l = Some out /\ is_real out = true /\
    Forall (fun v => spec_gain (fields o) * -5 <= v) (entries out).
Proof.
  intros Hself Hs Hg Hrun.
  destruct (wav2mel_last_step self wav w o l w' Hself Hrun) as (x & Hx & D).
  rewrite Hs in D. eexists. split; [exact D|].
  split; [by rewrite is_real_amap|].
  rewrite entries_amap by exact Hx. apply Forall_map, Forall_forall.
  intros v _. simpl. by apply amp_to_db_bounded_below.
Qed.

(** X21. With [do_trim_silence] set, [wav2mel] is the mel spectrogram of the
    trimmed signal: it trims with the threshold [trim_silence_db] and the
    default margin (0.01 s) and padding (0.1 s), analyses what is left, and
    makes exactly these two library calls, in this order. *)
Theorem wav2mel_trims_first (self wav : loc) (w : world L) (o : object)
    (v : list R) (t0 t1 : Z) (s : cmatrix) (b : loc) (m d : matrix) :
  heap w !! self = Some (Object o) ->
  let c := fields o in
  do_trim_silence c = true ->
  deref (heap w) wav = Some (Vec v) ->
  let margin := py_int (IZR (sample_rate c) * default_margin_sec) in
  let keep := py_int (IZR (sample_rate c) * default_keep_sec) in
  let y0 := py_slice v margin (- margin) in
  librosa_effects_trim L y0 (trim_silence_db c) (win_length c) (hop_length c)
  = Ok (t0, t1) ->
  let y := py_slice y0 (Z.max 0 (t0 - keep))
             (Z.min (Z.of_nat (length y0)) (t1 + keep)) in
  librosa_stft L y (filter_length c) (hop_length c) (win_length c) = Ok s ->
  _mel_basis o = Some b -> deref (heap w) b = Some (Mat m) ->
  np_dot m (mmap Cabs s) = Ok d ->
  exists l w', wav2mel self wav w = (Ok l, w') /\
    deref (heap w') l
    = Some (Mat (mmap (fun a =>
                         let db := Scalar.amp_to_db c a amp_floor in
                         if signal_norm c then Scalar.normalize c db else db) d)) /\
    grows w w' (rng w) [call_trim y0; call_stft y].
Proof.
  intros Hself c Htrim Hwav margin keep y0 Hlib y Hstft Hb Hm Hd.
  unfold wav2mel.
  rewrite (bind_ok _ _ _ _ _ (getobj_ok _ _ _ Hself)). fold c. rewrite Htrim.
  destruct (trim_silence_run self wav (trim_silence_db c) default_margin_sec
              default_keep_sec w o v t0 t1 Hself Hwav Hlib)
    as (l0 & w0 & E0 & D0 & G0).
  fold c margin keep y0 in D0, G0. fold y in D0.
  rewrite (bind_ok _ _ _ _ _ E0).
  destruct (stft_run self l0 w0 o y s (grows_lookup _ _ _ _ _ _ G0 Hself) D0 Hstft)
    as (l1 & w1 & E1 & D1 & G1).
  rewrite (bind_ok _ _ _ _ _ E1).
  assert (G01 : grows w w1 (rng w) [call_trim y0; call_stft y]).
  { destruct G0 as (P0 & R0 & T0), G1 as (P1 & R1 & T1).
    repeat split.
    - by etrans.
    - congruence.
    - rewrite T1, T0, <- app_assoc. reflexivity. }
  destruct (np_abs_cmat_run l1 w1 s D1) as (l2 & w2 & E2 & D2 & G2).
  rewrite (bind_ok _ _ _ _ _ E2).
  destruct (linear_to_mel_run self l2 w2 o b m (mmap Cabs s) d
              (grows_lookup _ _ _ _ _ _ G2 (grows_lookup _ _ _ _ _ _ G01 Hself)) Hb
              (grows_deref _ _ _ _ _ _ G2 (grows_deref _ _ _ _ _ _ G01 Hm)) D2 Hd)
    as (l3 & w3 & E3 & D3 & G3).
  rewrite (bind_ok _ _ _ _ _ E3).
  pose proof (grows_quiet _ _ _ _ _ _ G2 G3 eq_refl) as G23.
  destruct (amp_to_db_run self l3 amp_floor w3 o (Mat d)
              (grows_lookup _ _ _ _ _ _ G23 (grows_lookup _ _ _ _ _ _ G01 Hself))
              D3 eq_refl)
    as (l4 & w4 & E4 & D4 & G4).
  rewrite (bind_ok _ _ _ _ _ E4).
  pose proof (grows_quiet _ _ _ _ _ _ G23 G4 eq_refl) as G24.
  fold c in D4. simpl in D4.
  assert (Hend : forall w5, grows w1 w5 (rng w1) [] ->
            grows w w5 (rng w) [call_trim y0; call_stft y]).
  { intros w5 (P5 & R5 & T5). destruct G01 as (P1 & R1 & T1).
    repeat split.
    - by etrans.
    - congruence.
    - rewrite T5, app_nil_r. exact T1. }
  destruct (signal_norm c) eqn:Hn.
  - destruct (normalize_run self l4 w4 o _
                (grows_lookup _ _ _ _ _ _ G24
                   (grows_lookup _ _ _ _ _ _ G01 Hself)) D4 eq_refl)
      as (l5 & w5 & E5 & D5 & G5).
    exists l5, w5. split; [exact E5|]. split.
    + rewrite D5. simpl. unfold mmap. rewrite map_map. f_equal. f_equal.
      apply map_ext. intros r. by rewrite map_map.
    + apply Hend. by eapply grows_quiet.
  - exists l4, w4. split; [reflexivity|]. split; [exact D4|].
    apply Hend. exact G24.
Qed.

End MelRange.

Lemma wav2mel_normalized_range_witness :
  exists l w' out,
    wav2mel 0%nat 4%nat (stub_world default_config 0 []) = (Ok l, w') /\
    deref (heap w') l = Some out /\
    Forall (fun v => norm_floor default_config <= v <= max_norm default_config)
      (entries out).
Proof.
  destruct (wav2mel_run (L:=stub [[1]]) 0%nat 4%nat
              (stub_world default_config 0 []) _ [0; 0; 0; 0; 0]
              [[of_real 0]] 1%nat [[1]] [[1 * Cabs (of_real 0) + 0]]
              eq_refl eq_refl eq_refl eq_refl eq_refl eq_refl eq_refl)
    as (l & w' & E & _).
  destruct (wav2mel_normalized_range (L:=stub [[1]]) 0%nat 4%nat
              (stub_world default_config 0 []) w' _ l eq_refl eq_refl eq_refl
              ltac:(simpl; lra) ltac:(simpl; lra) E) as (out & D & _ & H).
  exists l, w', out. split; [exact E|]. split; [exact D|exact H].
Defined.

Lemma wav2mel_decibel_floor_witness :
  exists l w' out,
    wav2mel 0%nat 4%nat
      (stub_world (with_signal_norm false default_config) 0 []) = (Ok l, w') /\
    deref (heap w') l = Some out /\
    Forall (fun v => spec_gain default_config * -5 <= v) (entries out).
Proof.
  destruct (wav2mel_run (L:=stub [[1]]) 0%nat 4%nat
              (stub_world (with_signal_norm false default_config) 0 []) _
              [0; 0; 0; 0; 0]
              [[of_real 0]] 1%nat [[1]] [[1 * Cabs (of_real 0) + 0]]
              eq_refl eq_refl eq_refl eq_refl eq_refl eq_refl eq_refl)
    as (l & w' & E & _).
  destruct (wav2mel_decibel_floor (L:=stub [[1]]) 0%nat 4%nat
              (stub_world (with_signal_norm false default_config) 0 []) w' _ l
              eq_refl eq_refl ltac:(simpl; lra) E) as (out & D & _ & H).
  exists l, w', out. split; [exact E|]. split; [exact D|exact H].
Defined.

Lemma wav2mel_trims_first_witness :
  exists l w' y0 y,
    wav2mel 0%nat 4%nat
      (stub_world (with_trim_silence true default_config) 0 []) = (Ok l, w') /\
    trace w' = [call_trim y0; call_stft y].
Proof.
  destruct (wav2mel_trims_first (L:=stub [[1]]) 0%nat 4%nat
              (stub_world (with_trim_silence true default_config) 0 []) _
              [0; 0; 0; 0; 0] 0%Z 0%Z _ 1%nat [[1]] _
              eq_refl eq_refl eq_refl eq_refl eq_refl eq_refl eq_refl eq_refl)
    as (l & w' & E & _ & _ & _ & Ht).
  eexists l, w', _, _. split; [exact E|exact Ht].
Defined.

(** ** Round trips on arrays *)

Section ArrayRoundTrip.
Context {L : Lib}.
Implicit Types (w : world L).

Lemma amap_fixed f x :
  is_real x = true -> Forall (fun v => f v = v) (entries x) -> amap f x = x.
Proof.
  destruct x as [v|m|m]; [| |discriminate]; intros _ H; simpl in *.
  - f_equal. induction H as [|a v Ha _ IH]; simpl; [reflexivity|].
    by rewrite Ha, IH.
  - f_equal. unfold mmap. induction m as [|r m IH]; [reflexivity|].
    simpl in H. apply Forall_app in H as [Hr Hm]. simpl. rewrite (IH Hm).
    f_equal. induction Hr as [|a r Ha _ IHr]; simpl; [reflexivity|].
    by rewrite Ha, IHr.
Qed.

(** X22. The round trip on arrays: with [clip_norm] on, [0 < max_norm] and
    [min_level_db < 0], [denormalize] of [normalize] of an array whose entries
    all lie in [[ref_level_db + min_level_db, ref_level_db]] is an array with
    the entries of the input; the input and the normalised array are what
    they were, the in-place addition of [denormalize] notwithstanding. *)
Theorem denormalize_normalize_arrays (self a : loc) (w : world L) (o : object)
    (x : ndarray) :
  heap w !! self = Some (Object o) ->
  let c := fields o in
  clip_norm c = true -> 0 < max_norm c -> min_level_db c < 0 ->
  deref (heap w) a = Some x -> is_real x = true ->
  Forall (fun v => ref_level_db c + min_level_db c <= v <= ref_level_db c)
    (entries x) ->
  exists l1 w1 l2 w2,
    normalize self a w = (Ok l1, w1) /\
    denormalize self l1 w1 = (Ok l2, w2) /\
    deref (heap w2) l2 = Some x /\
    deref (heap w2) a = Some x /\
    deref (heap w2) l1 = Some (amap (Scalar.normalize c) x).
Proof.
  intros Hself c Hclip Hm Hmin Hx Hr Hin.
  destruct (normalize_run self a w o x Hself Hx Hr) as (l1 & w1 & E1 & D1 & G1).
  fold c in D1.
  destruct (denormalize_run self l1 w1 o _ (grows_lookup _ _ _ _ _ _ G1 Hself)
              Hclip D1 ltac:(by rewrite is_real_amap))
    as (l2 & w2 & E2 & D2 & G2).
  exists l1, w1, l2, w2. split; [exact E1|]. split; [exact E2|].
  split; [|split].
  - rewrite D2. f_equal. fold c. rewrite amap_amap. apply amap_fixed; [exact Hr|].
    eapply Forall_impl; [exact Hin|]. intros v Hv. simpl.
    by apply denorm_value_normalize.
  - exact (grows_deref _ _ _ _ _ _ G2 (grows_deref _ _ _ _ _ _ G1 Hx)).
  - exact (grows_deref _ _ _ _ _ _ G2 D1).
Qed.

Lemma denorm_value_norm_clip c v :
  clip_norm c = true -> denorm_value c (norm_clip c v) = denorm_value c v.
Proof.
  intros Hc. rewrite !denorm_value_clipped by exact Hc.
  unfold norm_clip, norm_floor.
  destruct (symmetric_norm c); by rewrite np_clip_idem.
Qed.

Lemma mmap_mmap {A B C} (f : A -> B) (g : B -> C) (m : list (list A)) :
  mmap g (mmap f m) = mmap (fun v => g (f v)) m.
Proof.
  unfold mmap. rewrite map_map. apply map_ext. intros r. apply map_map.
Qed.

Lemma mmap_ext {A B} (f g : A -> B) (m : list (list A)) :
  (forall v, f v = g v) -> mmap f m = mmap g m.
Proof.
  intros H. unfold mmap. apply map_ext. intros r. by apply map_ext.
Qed.

Lemma mel2wav_magnitude_clipped c inv x x' power :
  signal_norm c = true -> clip_norm c = true ->
  mmap (norm_clip c) x = mmap (norm_clip c) x' ->
  mel2wav_magnitude c inv x power = mel2wav_magnitude c inv x' power.
Proof.
  intros Hs Hc Hx. unfold mel2wav_magnitude. rewrite Hs.
  assert (H : forall m, mmap (denorm_value c) m
                        = mmap (denorm_value c) (mmap (norm_clip c) m)).
  { intros m. rewrite mmap_mmap. apply mmap_ext. intros v.
    symmetry. by apply denorm_value_norm_clip. }
  by rewrite (H x), (H x'), Hx.
Qed.

(** X23. [mel2wav] does not see what lies beyond the clipping range: with
    [signal_norm] and [clip_norm] on, two mel spectrograms that agree once
    clipped to [[-max_norm, max_norm]] (or [[0, max_norm]]) give, from the same
    state of the generator, the same waveform. *)
Theorem mel2wav_ignores_overshoot (self a a' : loc) (num_iters : Z) (power : R)
    (w : world L) (o : object) (b : loc) (inv x x' lin : matrix) :
  heap w !! self = Some (Object o) ->
  let c := fields o in
  signal_norm c = true -> clip_norm c = true ->
  _inv_mel_basis o = Some b ->
  deref (heap w) b = Some (Mat inv) ->
  deref (heap w) a = Some (Mat x) ->
  deref (heap w) a' = Some (Mat x') ->
  mmap (norm_clip c) x = mmap (norm_clip c) x' ->
  mel2wav_magnitude c inv x power = Ok lin ->
  rectangular lin ->
  well_behaved L c (shape lin) ->
  exists l l' w1 w2 y,
    mel2wav self a num_iters power w = (Ok l, w1) /\
    mel2wav self a' num_iters power w = (Ok l', w2) /\
    deref (heap w1) l = Some (Vec y) /\
    deref (heap w2) l' = Some (Vec y) /\
    rng w1 = rng w2.
Proof.
  intros Hself c Hs Hc Hb Hinv Ha Ha' Hx Hmag Hrect Hwb.
  pose proof Hmag as Hmag'.
  rewrite (mel2wav_magnitude_clipped c inv x x' power Hs Hc Hx) in Hmag'.
  destruct (mel2wav_run self a num_iters power w o b inv x lin Hself
              (fun _ => Hc) Hb Hinv Ha Hmag Hrect Hwb)
    as (l & w1 & E1 & D1 & (_ & R1 & _)).
  destruct (mel2wav_run self a' num_iters power w o b inv x' lin Hself
              (fun _ => Hc) Hb Hinv Ha' Hmag' Hrect Hwb)
    as (l' & w2 & E2 & D2 & (_ & R2 & _)).
  eexists l, l', w1, w2, _. split; [exact E1|]. split; [exact E2|].
  split; [exact D1|]. split; [exact D2|]. congruence.
Qed.

End ArrayRoundTrip.

Lemma denormalize_normalize_arrays_witness :
  exists l1 w1 l2 w2,
    normalize 0%nat 3%nat (stub_world default_config 0 []) = (Ok l1, w1) /\
    denormalize 0%nat l1 w1 = (Ok l2, w2) /\
    deref (heap w2) l2 = Some (Mat [[0]]) /\
    deref (heap w2) 3%nat = Some (Mat [[0]]).
Proof.
  destruct (denormalize_normalize_arrays (L:=stub [[1]]) 0%nat 3%nat
              (stub_world default_config 0 []) _ (Mat [[0]])
              eq_refl eq_refl ltac:(simpl; lra) ltac:(simpl; lra) eq_refl eq_refl
              ltac:(repeat constructor; simpl; lra))
    as (l1 & w1 & l2 & w2 & E1 & E2 & D2 & Da & _).
  exists l1, w1, l2, w2. split; [exact E1|]. split; [exact E2|].
  split; [exact D2|exact Da].
Defined.

Lemma overshoot_clipped :
  mmap (norm_clip default_config) [[5]] = mmap (norm_clip default_config) [[1]].
Proof.
  unfold mmap, norm_clip, norm_floor. simpl.
  rewrite np_clip_above by lra. rewrite np_clip_inside by lra. reflexivity.
Qed.

Lemma overshoot_magnitude :
  exists m, mel2wav_magnitude default_config [[1]] [[5]] 1 = Ok [[m]].
Proof. eexists. reflexivity. Qed.

Lemma mel2wav_ignores_overshoot_witness :
  exists l l' w1 w2 y,
    mel2wav 0%nat 5%nat 2 1 (overshoot_world default_config) = (Ok l, w1) /\
    mel2wav 0%nat 1%nat 2 1 (overshoot_world default_config) = (Ok l', w2) /\
    deref (heap w1) l = Some (Vec y) /\
    deref (heap w2) l' = Some (Vec y).
Proof.
  destruct overshoot_magnitude as (m & Hmag).
  destruct (mel2wav_ignores_overshoot (L:=stub [[1]]) 0%nat 5%nat 1%nat 2 1
              (overshoot_world default_config) _ 2%nat [[1]] [[5]] [[1]] [[m]]
              eq_refl eq_refl eq_refl eq_refl eq_refl eq_refl eq_refl
              overshoot_clipped Hmag eq_refl (stub_well_behaved _ _))
    as (l & l' & w1 & w2 & y & E1 & E2 & D1 & D2 & _).
  exists l, l', w1, w2, y.
  split; [exact E1|]. split; [exact E2|]. split; [exact D1|exact D2].
Defined.

(** ** Shapes that do not fit *)

Section Mismatch.
Context {L : Lib}.
Implicit Types (w : world L).

Lemma nrows_mmap {A B} (f : A -> B) (m : list (list A)) :
  nrows (mmap f m) = nrows m.
Proof. unfold nrows, mmap. apply length_map. Qed.

Lemma np_dot_mismatch (a b : matrix) :
  rows_have (nrows b) a = false -> np_dot a b = Raise ValueError.
Proof. intros H. unfold np_dot. by rewrite H. Qed.

(** X24. [wav2mel] checks no shape itself: when the spectrogram the library
    returns has another number of frequency bins than the filterbank built at
    construction has columns (the dataclass is mutable: [filter_length] may
    have been changed since), the call ends in the [ValueError] of [np.dot],
    after the transform has run. *)
Theorem wav2mel_shape_mismatch (self wav : loc) (w : world L) (o : object)
    (y : list R) (s : cmatrix) (b : loc) (m : matrix) :
  heap w !! self = Some (Object o) ->
  let c := fields o in
  do_trim_silence c = false ->
  deref (heap w) wav = Some (Vec y) ->
  librosa_stft L y (filter_length c) (hop_length c) (win_length c) = Ok s ->
  _mel_basis o = Some b -> deref (heap w) b = Some (Mat m) ->
  rows_have (nrows s) m = false ->
  (wav2mel self wav w).1 = Raise ValueError /\
  trace (wav2mel self wav w).2 = trace w ++ [call_stft y].
Proof.
  intros Hself c Htrim Hwav Hlib Hb Hm Hrows.
  cut (exists w', wav2mel self wav w = (Raise ValueError, w') /\
                  trace w' = trace w ++ [call_stft y]).
  { intros (w' & -> & Ht). split; [reflexivity|exact Ht]. }
  unfold wav2mel.
  rewrite (bind_ok _ _ _ _ _ (getobj_ok _ _ _ Hself)). fold c. rewrite Htrim.
  unfold ret at 1. unfold bind at 1.
  destruct (stft_run self wav w o y s Hself Hwav Hlib) as (l1 & w1 & E1 & D1 & G1).
  rewrite (bind_ok _ _ _ _ _ E1).
  destruct (np_abs_cmat_run l1 w1 s D1) as (l2 & w2 & E2 & D2 & G2).
  rewrite (bind_ok _ _ _ _ _ E2).
  pose proof (grows_quiet _ _ _ _ _ _ G1 G2 eq_refl) as G12.
  assert (E3 : linear_to_mel self l2 w2 = (Raise ValueError, w2)).
  { unfold linear_to_mel.
    rewrite (bind_ok _ _ _ _ _
               (getattr_ok _ _ _ _ _ (grows_lookup _ _ _ _ _ _ G12 Hself) Hb)).
    rewrite (bind_ok _ _ _ _ _
               (load_mat_ok _ _ _ (grows_deref _ _ _ _ _ _ G12 Hm))).
    rewrite (bind_ok _ _ _ _ _ (load_mat_ok _ _ _ D2)).
    rewrite np_dot_mismatch by (by rewrite nrows_mmap). reflexivity. }
  rewrite (bind_raise _ _ _ _ _ E3).
  exists w2. split; [reflexivity|]. destruct G12 as (_ & _ & Ht). exact Ht.
Qed.

(** X25. Nor does [mel2wav] check its argument: a mel spectrogram whose
    number of rows is not the number of columns of the pseudo-inverse ends in
    the [ValueError] of [np.dot], before any random draw or library call. *)
Theorem mel2wav_shape_mismatch (self mel_db : loc) (num_iters : Z) (power : R)
    (w : world L) (o : object) (b : loc) (inv x : matrix) :
  heap w !! self = Some (Object o) ->
  let c := fields o in
  (signal_norm c = true -> clip_norm c = true) ->
  _inv_mel_basis o = Some b ->
  deref (heap w) b = Some (Mat inv) ->
  deref (heap w) mel_db = Some (Mat x) ->
  rows_have (nrows x) inv = false ->
  (mel2wav self mel_db num_iters power w).1 = Raise ValueError /\
  trace (mel2wav self mel_db num_iters power w).2 = trace w /\
  rng (mel2wav self mel_db num_iters power w).2 = rng w.
Proof.
  intros Hself c Hnorm Hb Hinv Hx Hrows.
  cut (exists w', mel2wav self mel_db num_iters power w = (Raise ValueError, w') /\
                  trace w' = trace w /\ rng w' = rng w).
  { intros (w' & -> & Ht & Hr). split; [reflexivity|]. split; [exact Ht|exact Hr]. }
  unfold mel2wav.
  rewrite (bind_ok _ _ _ _ _ (getobj_ok _ _ _ Hself)). fold c.
  set (x1 := if signal_norm c then mmap (denorm_value c) x else x).
  assert (Hden : exists l1 w1,
             (if signal_norm c then denormalize self mel_db else ret mel_db) w
             = (Ok l1, w1) /\
             deref (heap w1) l1 = Some (Mat x1) /\ grows w w1 (rng w) []).
  { unfold x1. destruct (signal_norm c) eqn:Hs.
    - destruct (denormalize_run self mel_db w o (Mat x) Hself (Hnorm eq_refl)
                  Hx eq_refl) as (l1 & w1 & E1 & D1 & G1).
      by exists l1, w1.
    - exists mel_db, w. split; [reflexivity|]. split; [exact Hx|apply grows_refl]. }
  destruct Hden as (l1 & w1 & E1 & D1 & G1).
  rewrite (bind_ok _ _ _ _ _ E1).
  destruct (db_to_amp_run self l1 default_power w1 o (Mat x1)
              (grows_lookup _ _ _ _ _ _ G1 Hself) D1 eq_refl)
    as (l2 & w2 & E2 & D2 & G2).
  rewrite (bind_ok _ _ _ _ _ E2). simpl in D2. fold c in D2.
  pose proof (grows_quiet _ _ _ _ _ _ G1 G2 eq_refl) as G12.
  assert (E3 : mel_to_linear self l2 linear_floor w2 = (Raise ValueError, w2)).
  { unfold mel_to_linear.
    rewrite (bind_ok _ _ _ _ _
               (getattr_ok _ _ _ _ _ (grows_lookup _ _ _ _ _ _ G12 Hself) Hb)).
    rewrite (bind_ok _ _ _ _ _
               (load_mat_ok _ _ _ (grows_deref _ _ _ _ _ _ G12 Hinv))).
    rewrite (bind_ok _ _ _ _ _ (load_mat_ok _ _ _ D2)).
    rewrite np_dot_mismatch; [reflexivity|].
    rewrite nrows_mmap. unfold x1. destruct (signal_norm c); [|exact Hrows].
    by rewrite nrows_mmap. }
  rewrite (bind_raise _ _ _ _ _ E3).
  destruct G12 as (_ & Hr & Ht). rewrite app_nil_r in Ht.
  exists w2. split; [reflexivity|]. split; [exact Ht|exact Hr].
Qed.

End Mismatch.

Lemma wav2mel_shape_mismatch_witness :
  (wav2mel 0%nat 4%nat (mismatch_world default_config)).1 = Raise ValueError.
Proof.
  exact (proj1 (wav2mel_shape_mismatch (L:=stub [[1]]) 0%nat 4%nat
                  (mismatch_world default_config) _ [0; 0; 0; 0; 0]
                  [[of_real 0]] 1%nat [[1; 1]]
                  eq_refl eq_refl eq_refl eq_refl eq_refl eq_refl eq_refl)).
Defined.

Lemma mel2wav_shape_mismatch_witness :
  (mel2wav 0%nat 3%nat 60 1 (mismatch_world default_config)).1 = Raise ValueError.
Proof.
  exact (proj1 (mel2wav_shape_mismatch (L:=stub [[1]]) 0%nat 3%nat 60 1
                  (mismatch_world default_config) _ 2%nat [[1]; [1]] [[0]; [0]]
                  eq_refl (fun _ => eq_refl) eq_refl eq_refl eq_refl eq_refl)).
Defined.

(** ** Overlaying configuration files *)

(** ** Dictionaries *)

Lemma json_dict_ind (P : json -> Prop) :
  (forall items, Forall (fun kv => P kv.2) items -> P (JDict items)) ->
  (forall j, is_mapping j = false -> P j) ->
  forall j, P j.
Proof.
  intros Hd Hs. fix IH 1. intros [ | | | | | |items]; try (apply Hs; reflexivity).
  apply Hd. induction items as [|[k v] rest IHr]; constructor;
    [exact (IH v) | exact IHr].
Qed.

Lemma dict_get_set k v d : dict_get k (dict_set k v d) = Some v.
Proof.
  induction d as [|[k' v'] d IH]; simpl.
  - rewrite decide_True; auto.
  - destruct (decide (k = k')) as [->|Hne]; simpl.
    + rewrite decide_True; auto.
    + rewrite decide_False; auto.
Qed.

Lemma dict_get_set_ne k k' v d :
  k <> k' -> dict_get k (dict_set k' v d) = dict_get k d.
Proof.
  intros Hne. induction d as [|[k0 v0] d IH]; simpl.
  - rewrite decide_False; auto.
  - destruct (decide (k' = k0)) as [->|Hne']; simpl.
    + rewrite !decide_False; auto.
    + destruct (decide (k = k0)); auto.
Qed.

Lemma dict_get_None k d : dict_get k d = None <-> k ∉ dict_keys d.
Proof.
  induction d as [|[k' v'] d IH]; simpl.
  - split; auto. intros _ H. inversion H.
  - destruct (decide (k = k')) as [->|Hne].
    + split; [discriminate|]. intros H. exfalso. apply H. left.
    + rewrite IH. rewrite not_elem_of_cons. tauto.
Qed.

Lemma dict_get_Some k v d :
  NoDup (dict_keys d) -> (k, v) ∈ d -> dict_get k d = Some v.
Proof.
  induction d as [|[k' v'] d IH]; simpl; intros Hnd Hin.
  - inversion Hin.
  - apply NoDup_cons in Hnd as [Hk Hnd].
    apply elem_of_cons in Hin as [[= -> ->]|Hin].
    + rewrite decide_True; auto.
    + destruct (decide (k = k')) as [->|Hne]; auto.
      exfalso. apply Hk. unfold dict_keys.
      apply list_elem_of_fmap. exists (k', v). auto.
Qed.

Lemma dict_get_elem k v d : dict_get k d = Some v -> (k, v) ∈ d.
Proof.
  induction d as [|[k' v'] d IH]; simpl; [discriminate|].
  destruct (decide (k = k')) as [->|Hne].
  - intros [= ->]. left.
  - intros H. right. auto.
Qed.

Lemma dict_set_same k v d : dict_get k d = Some v -> dict_set k v d = d.
Proof.
  induction d as [|[k' v'] d IH]; simpl; [discriminate|].
  destruct (decide (k = k')) as [->|Hne].
  - intros [= ->]. reflexivity.
  - intros H. rewrite IH; auto.
Qed.

Lemma dict_keys_set k v d :
  dict_keys (dict_set k v d) =
  if decide (k ∈ dict_keys d) then dict_keys d else dict_keys d ++ [k].
Proof.
  induction d as [|[k' v'] d IH].
  - destruct (decide (k ∈ dict_keys [])) as [H|_]; [inversion H|reflexivity].
  - change (dict_keys ((k', v') :: d)) with (k' :: dict_keys d).
    cbn [dict_set]. destruct (decide (k = k')) as [->|Hne].
    + rewrite decide_True; [reflexivity|left].
    + change (dict_keys ((k', v') :: dict_set k v d))
        with (k' :: dict_keys (dict_set k v d)).
      rewrite IH. destruct (decide (k ∈ dict_keys d)) as [Hin|Hout].
      * rewrite decide_True; auto. right; auto.
      * rewrite decide_False; auto. rewrite not_elem_of_cons. auto.
Qed.

Lemma dict_set_values (P : json -> Prop) k v d :
  P v -> Forall (fun kv => P kv.2) d ->
  Forall (fun kv => P kv.2) (dict_set k v d).
Proof.
  intros Hv. induction 1 as [|[k' v'] d Hx Hd IH]; simpl.
  - repeat constructor; auto.
  - destruct (decide (k = k')); constructor; auto.
Qed.

Lemma dict_set_NoDup k v d :
  NoDup (dict_keys d) -> NoDup (dict_keys (dict_set k v d)).
Proof.
  intros H. rewrite dict_keys_set. destruct (decide (k ∈ dict_keys d)); auto.
  apply NoDup_app. split; [auto|]. split.
  - intros x Hx Hx'. apply list_elem_of_singleton in Hx'. subst. auto.
  - apply NoDup_singleton.
Qed.

(** ** The loop of [recursive_update], one key at a time *)

Lemma recursive_update_nil base : recursive_update base (JDict []) = Ok base.
Proof. reflexivity. Qed.

Lemma recursive_update_cons b k v rest :
  recursive_update (JDict b) (JDict ((k, v) :: rest)) =
  match update_key b k v with
  | Ok b' => recursive_update (JDict b') (JDict rest)
  | Raise e => Raise e
  end.
Proof.
  unfold update_key. destruct v as [ | | | | | |items]; try reflexivity.
  change (recursive_update (JDict b) (JDict ((k, JDict items) :: rest)))
    with (match dict_get k b with
          | Some bk =>
              if is_not_none (Some bk) then
                match recursive_update bk (JDict items) with
                | Ok bk' => recursive_update (JDict (dict_set k bk' b)) (JDict rest)
                | Raise e => Raise e
                end
              else recursive_update (JDict (dict_set k (JDict items) b)) (JDict rest)
          | None => recursive_update (JDict (dict_set k (JDict items) b)) (JDict rest)
          end).
  cbn [is_mapping andb].
  destruct (dict_get k b) as [bk|]; [|reflexivity].
  destruct (is_not_none (Some bk)); [|reflexivity].
  destruct (recursive_update bk (JDict items)); reflexivity.
Qed.

Lemma recursive_update_not_dict base k v rest :
  is_mapping base = false ->
  recursive_update base (JDict ((k, v) :: rest)) =
  Raise (if is_mapping v then AttributeError else TypeError).
Proof. destruct base; try discriminate; destruct v; reflexivity. Qed.

Lemma recursive_update_not_mapping base new_dict :
  is_mapping new_dict = false ->
  recursive_update base new_dict = Raise AttributeError.
Proof. destruct new_dict; try discriminate; reflexivity. Qed.

Lemma update_key_plain b k v :
  is_mapping v && is_not_none (dict_get k b) = false ->
  update_key b k v = Ok (dict_set k v b).
Proof. unfold update_key. intros ->. reflexivity. Qed.

Lemma update_key_nested b k v bk :
  is_mapping v = true -> dict_get k b = Some bk -> bk <> JNull ->
  update_key b k v =
  match recursive_update bk v with
  | Ok bk' => Ok (dict_set k bk' b)
  | Raise e => Raise e
  end.
Proof.
  unfold update_key. intros -> -> Hnn. destruct bk; try reflexivity. congruence.
Qed.

Lemma update_key_cases b k v b' :
  update_key b k v = Ok b' ->
  exists x, b' = dict_set k x b /\
    ((is_mapping v && is_not_none (dict_get k b) = false /\ x = v) \/
     (exists bk, is_mapping v = true /\ dict_get k b = Some bk /\ bk <> JNull /\
        recursive_update bk v = Ok x)).
Proof.
  unfold update_key.
  destruct (is_mapping v && is_not_none (dict_get k b)) eqn:E.
  - apply andb_prop in E as [Hm Hn].
    destruct (dict_get k b) as [bk|]; [|discriminate].
    destruct (recursive_update bk v) as [x|e] eqn:Hr; [|discriminate].
    intros [= <-]. exists x. split; auto. right. exists bk.
    repeat split; auto. intros ->. discriminate.
  - intros [= <-]. exists v. auto.
Qed.

Lemma recursive_update_dict b n r :
  recursive_update (JDict b) (JDict n) = Ok r -> exists b', r = JDict b'.
Proof.
  revert b. induction n as [|[k v] n IH]; intros b.
  - rewrite recursive_update_nil. intros [= <-]. eauto.
  - rewrite recursive_update_cons. destruct (update_key b k v); [|discriminate].
    apply IH.
Qed.

Lemma recursive_update_not_none base new_dict r :
  recursive_update base new_dict = Ok r -> base <> JNull -> r <> JNull.
Proof.
  destruct new_dict as [ | | | | | |n]; try discriminate.
  destruct n as [|[k v] n].
  - rewrite recursive_update_nil. congruence.
  - destruct base as [ | | | | | |b];
      try (rewrite recursive_update_not_dict by reflexivity; discriminate).
    intros H _. apply recursive_update_dict in H as [b' ->]. discriminate.
Qed.

Lemma recursive_update_other k b n b' :
  recursive_update (JDict b) (JDict n) = Ok (JDict b') ->
  k ∉ dict_keys n -> dict_get k b' = dict_get k b.
Proof.
  revert b. induction n as [|[k0 v] n IH]; intros b.
  - rewrite recursive_update_nil. intros [= <-]. auto.
  - rewrite recursive_update_cons.
    destruct (update_key b k0 v) as [b1|] eqn:Hs; [|discriminate].
    intros Hr Hk. simpl in Hk. apply not_elem_of_cons in Hk as [Hne Hk].
    rewrite (IH _ Hr Hk).
    apply update_key_cases in Hs as (x & -> & _).
    apply dict_get_set_ne. auto.
Qed.

Lemma recursive_update_keys b n b' :
  recursive_update (JDict b) (JDict n) = Ok (JDict b') ->
  exists added, dict_keys b' = dict_keys b ++ added /\
    NoDup added /\
    forall k, k ∈ added <-> k ∈ dict_keys n /\ k ∉ dict_keys b.
Proof.
  revert b. induction n as [|[k0 v] n IH]; intros b.
  - rewrite recursive_update_nil. intros [= <-]. exists [].
    rewrite app_nil_r. split; auto. split; [constructor|].
    intros k. split; [intros H; inversion H|intros [H _]; inversion H].
  - rewrite recursive_update_cons.
    destruct (update_key b k0 v) as [b1|] eqn:Hs; [|discriminate].
    intros Hr. destruct (IH _ Hr) as (added & Hk & Hnd & Hadd).
    apply update_key_cases in Hs as (x & -> & _).
    rewrite dict_keys_set in Hk, Hadd.
    destruct (decide (k0 ∈ dict_keys b)) as [Hin|Hout].
    + exists added. split; auto. split; auto. intros k. rewrite Hadd. simpl.
      rewrite elem_of_cons. split; [tauto|].
      intros [[->|H] Hn]; [contradiction|auto].
    + exists (k0 :: added). rewrite Hk, <- app_assoc. split; auto. split.
      * constructor; auto. rewrite Hadd, elem_of_app, list_elem_of_singleton.
        tauto.
      * intros k. simpl. rewrite !elem_of_cons, Hadd, elem_of_app,
          list_elem_of_singleton.
        destruct (decide (k = k0)) as [->|Hne]; [tauto|]. tauto.
Qed.

Lemma unique_keys_dict items :
  unique_keys (JDict items) <->
  NoDup (dict_keys items) /\ Forall (fun kv => unique_keys kv.2) items.
Proof. split; [inversion 1; auto | intros []; constructor; auto]. Qed.

Lemma update_key_depends b1 b k v :
  dict_get k b1 = dict_get k b ->
  is_ok (update_key b1 k v) = is_ok (update_key b k v).
Proof.
  unfold update_key. intros ->.
  destruct (is_mapping v && is_not_none (dict_get k b)); [|reflexivity].
  destruct (dict_get k b); [|reflexivity].
  destruct (recursive_update j v); reflexivity.
Qed.

Lemma recursive_update_lookup k v b n b' :
  NoDup (dict_keys n) -> (k, v) ∈ n ->
  recursive_update (JDict b) (JDict n) = Ok (JDict b') ->
  exists x, dict_get k b' = Some x /\
    ((is_mapping v && is_not_none (dict_get k b) = false /\ x = v) \/
     (exists bk, is_mapping v = true /\ dict_get k b = Some bk /\
        bk <> JNull /\ recursive_update bk v = Ok x)).
Proof.
  revert b. induction n as [|[k0 v0] n IH]; intros b Hnd Hin.
  - inversion Hin.
  - change (dict_keys ((k0, v0) :: n)) with (k0 :: dict_keys n) in Hnd.
    apply NoDup_cons in Hnd as [Hk0 Hnd].
    rewrite recursive_update_cons.
    destruct (update_key b k0 v0) as [b1|] eqn:Hs; [|discriminate].
    intros Hr. apply elem_of_cons in Hin as [[= -> ->]|Hin].
    + apply update_key_cases in Hs as (x & -> & Hx). exists x. split; auto.
      rewrite (recursive_update_other _ _ _ _ Hr Hk0). apply dict_get_set.
    + assert (Hne : k <> k0).
      { intros ->. apply Hk0. apply list_elem_of_fmap. exists (k0, v). auto. }
      destruct (IH _ Hnd Hin Hr) as (x & Hx & Hc).
      apply update_key_cases in Hs as (y & -> & _).
      rewrite dict_get_set_ne in Hc by auto. eauto.
Qed.

Lemma recursive_update_stops k v b n :
  NoDup (dict_keys n) -> (k, v) ∈ n ->
  is_ok (update_key b k v) = false ->
  is_ok (recursive_update (JDict b) (JDict n)) = false.
Proof.
  revert b. induction n as [|[k0 v0] n IH]; intros b Hnd Hin Hf.
  - inversion Hin.
  - change (dict_keys ((k0, v0) :: n)) with (k0 :: dict_keys n) in Hnd.
    apply NoDup_cons in Hnd as [Hk0 Hnd].
    rewrite recursive_update_cons.
    apply elem_of_cons in Hin as [[= -> ->]|Hin].
    + destruct (update_key b k0 v0); [discriminate|reflexivity].
    + destruct (update_key b k0 v0) as [b1|] eqn:Hs; [|reflexivity].
      apply (IH _ Hnd Hin).
      rewrite <- Hf. apply update_key_depends.
      apply update_key_cases in Hs as (y & -> & _).
      apply dict_get_set_ne. intros ->. apply Hk0.
      apply list_elem_of_fmap. exists (k0, v). auto.
Qed.

Lemma recursive_update_noop b n :
  (forall k v, (k, v) ∈ n -> update_key b k v = Ok b) ->
  recursive_update (JDict b) (JDict n) = Ok (JDict b).
Proof.
  induction n as [|[k v] n IH]; intros H.
  - apply recursive_update_nil.
  - rewrite recursive_update_cons, (H k v) by left.
    apply IH. intros k' v' Hin. apply H. right. auto.
Qed.

Lemma recursive_update_self v :
  unique_keys v -> is_mapping v = true -> recursive_update v v = Ok v.
Proof.
  induction v as [items IH|j Hj] using json_dict_ind; [|congruence].
  intros Hu _. apply unique_keys_dict in Hu as [Hnd Hu].
  apply recursive_update_noop. intros k v Hin.
  pose proof (dict_get_Some _ _ _ Hnd Hin) as Hg.
  rewrite Forall_forall in IH, Hu.
  specialize (IH _ Hin). specialize (Hu _ Hin). simpl in IH, Hu.
  destruct (is_mapping v) eqn:Hm.
  - rewrite (update_key_nested _ _ _ v Hm Hg) by (destruct v; discriminate).
    rewrite IH by auto. rewrite dict_set_same; auto.
  - rewrite update_key_plain by (rewrite Hm; reflexivity).
    rewrite dict_set_same; auto.
Qed.

Lemma fits_cons b k v rest :
  fits (JDict b) (JDict ((k, v) :: rest)) =
  (if is_mapping v && is_not_none (dict_get k b) then
     match dict_get k b with Some bk => fits bk v | None => true end
   else true) && fits (JDict b) (JDict rest).
Proof.
  change (fits (JDict b) (JDict ((k, v) :: rest)))
    with ((if is_mapping v then
             match dict_get k b with
             | Some bk => if is_not_none (Some bk) then fits bk v else true
             | None => true
             end
           else true) && fits (JDict b) (JDict rest)).
  destruct (is_mapping v); [|reflexivity]. cbn [andb].
  destruct (dict_get k b) as [bk|]; reflexivity.
Qed.

Lemma fits_depends b1 b n :
  (forall k, k ∈ dict_keys n -> dict_get k b1 = dict_get k b) ->
  fits (JDict b1) (JDict n) = fits (JDict b) (JDict n).
Proof.
  induction n as [|[k v] n IH]; intros H; [reflexivity|].
  rewrite !fits_cons, (H k) by left. f_equal.
  apply IH. intros k' Hk'. apply H. right. auto.
Qed.

Lemma merge_all_app base l1 l2 :
  merge_all base (l1 ++ l2) =
  match merge_all base l1 with
  | Ok base' => merge_all base' l2
  | Raise e => Raise e
  end.
Proof.
  revert base. induction l1 as [|d l1 IH]; intros base; simpl; [reflexivity|].
  destruct (recursive_update base d); auto.
Qed.

Lemma unique_keysb_sound : forall j, unique_keysb j = true -> unique_keys j.
Proof.
  fix IH 1. intros [ | | | | |l|items] H; try constructor.
  - induction l as [|x l IHl]; constructor.
    + apply IH. apply andb_prop in H as [H _]. exact H.
    + apply IHl. apply andb_prop in H as [_ H]. exact H.
  - apply andb_prop in H as [H _]. apply bool_decide_eq_true in H. exact H.
  - apply andb_prop in H as [_ H].
    induction items as [|[k v] items IHi]; constructor.
    + apply IH. apply andb_prop in H as [H _]. exact H.
    + apply IHi. apply andb_prop in H as [_ H]. exact H.
Qed.

Lemma example_merge :
  recursive_update (JDict example_base) (JDict example_overlay)
  = Ok (JDict example_merged).
Proof. vm_compute. reflexivity. Qed.

(** X5. An overlay never removes or reorders a key: the keys of the base stay
    where they were, the keys only the overlay has are appended, each once,
    and a key the overlay does not name keeps its value. *)
Theorem recursive_update_keeps_keys (b n : list (string * json)) (r : json) :
  recursive_update (JDict b) (JDict n) = Ok r ->
  exists b' added,
    r = JDict b' /\
    dict_keys b' = dict_keys b ++ added /\
    NoDup added /\
    (forall k, k ∈ added <-> k ∈ dict_keys n /\ k ∉ dict_keys b) /\
    (forall k, k ∉ dict_keys n -> dict_get k b' = dict_get k b).
Proof.
  intros Hr. destruct (recursive_update_dict _ _ _ Hr) as [b' ->].
  destruct (recursive_update_keys _ _ _ Hr) as (added & Hk & Hnd & Hadd).
  exists b', added.
  split; [reflexivity|]. split; [exact Hk|]. split; [exact Hnd|].
  split; [exact Hadd|].
  intros k Hk'. exact (recursive_update_other _ _ _ _ Hr Hk').
Qed.

Lemma recursive_update_keeps_keys_witness :
  exists b' added,
    JDict example_merged = JDict b' /\
    dict_keys b' = dict_keys example_base ++ added /\
    NoDup added /\
    (forall k, k ∈ added <->
               k ∈ dict_keys example_overlay /\ k ∉ dict_keys example_base) /\
    (forall k, k ∉ dict_keys example_overlay ->
               dict_get k b' = dict_get k example_base).
Proof.
  apply (recursive_update_keeps_keys example_base example_overlay).
  vm_compute. reflexivity.
Defined.

(** X6. The overlay wins wherever it does not merge: a value of the overlay
    that is not an object (a number, a string, a list, null), or any value at
    a key the base lacks or holds [None] at, is the value of that key
    afterwards. *)
Theorem recursive_update_overrides (b n : list (string * json)) (r : json)
    (k : string) (v : json) :
  NoDup (dict_keys n) -> (k, v) ∈ n ->
  is_mapping v = false \/ is_not_none (dict_get k b) = false ->
  recursive_update (JDict b) (JDict n) = Ok r ->
  exists b', r = JDict b' /\ dict_get k b' = Some v.
Proof.
  intros Hnd Hin Hc Hr. destruct (recursive_update_dict _ _ _ Hr) as [b' ->].
  exists b'. split; [reflexivity|].
  destruct (recursive_update_lookup _ _ _ _ _ Hnd Hin Hr)
    as (x & Hx & [[_ ->]|(bk & Hm & Hbk & Hnn & _)]); [exact Hx|].
  exfalso. destruct Hc as [Hc|Hc]; [congruence|].
  rewrite Hbk in Hc. destruct bk; try discriminate. congruence.
Qed.

Lemma recursive_update_overrides_witness :
  exists b', JDict example_merged = JDict b' /\
             dict_get "seed"%string b' = Some (JInt 1).
Proof.
  apply (recursive_update_overrides example_base example_overlay).
  - apply (bool_decide_eq_true_1 _). vm_compute. reflexivity.
  - right. left.
  - left. reflexivity.
  - vm_compute. reflexivity.
Defined.

(** X7. Where both sides hold an object the two are merged, not replaced:
    the key holds the recursive update of the base's object, so the settings
    of that object which the overlay does not name survive. *)
Theorem recursive_update_merges_nested (b n : list (string * json)) (r : json)
    (k : string) (nk bk : list (string * json)) :
  NoDup (dict_keys n) -> (k, JDict nk) ∈ n ->
  dict_get k b = Some (JDict bk) ->
  recursive_update (JDict b) (JDict n) = Ok r ->
  exists b' bk',
    r = JDict b' /\ dict_get k b' = Some (JDict bk') /\
    recursive_update (JDict bk) (JDict nk) = Ok (JDict bk') /\
    forall k2, k2 ∉ dict_keys nk -> dict_get k2 bk' = dict_get k2 bk.
Proof.
  intros Hnd Hin Hb Hr. destruct (recursive_update_dict _ _ _ Hr) as [b' ->].
  destruct (recursive_update_lookup _ _ _ _ _ Hnd Hin Hr)
    as (x & Hx & [[Hp _]|(bk0 & _ & Hbk & _ & Hx')]).
  - rewrite Hb in Hp. discriminate.
  - rewrite Hb in Hbk. injection Hbk as <-.
    destruct (recursive_update_dict _ _ _ Hx') as [bk' ->].
    exists b', bk'. split; [reflexivity|]. split; [exact Hx|].
    split; [exact Hx'|].
    intros k2 Hk2. exact (recursive_update_other _ _ _ _ Hx' Hk2).
Qed.

Lemma recursive_update_merges_nested_witness :
  exists b' bk',
    JDict example_merged = JDict b' /\
    dict_get "audio"%string b' = Some (JDict bk') /\
    recursive_update
      (JDict [("sample_rate", JInt 22050); ("mel_channels", JInt 80)]%string)
      (JDict [("sample_rate", JInt 16000)]%string) = Ok (JDict bk') /\
    forall k2, k2 ∉ dict_keys [("sample_rate", JInt 16000)]%string ->
      dict_get k2 bk'
      = dict_get k2 [("sample_rate", JInt 22050); ("mel_channels", JInt 80)]%string.
Proof.
  apply (recursive_update_merges_nested example_base example_overlay).
  - apply (bool_decide_eq_true_1 _). vm_compute. reflexivity.
  - left.
  - reflexivity.
  - vm_compute. reflexivity.
Defined.

(** X8. An object of the overlay with at least one key, met by a value of
    the base that is present, not [None] and not a dict (a number, a string, a
    list), makes the update raise: the recursive call treats that value as a
    dict.  With that key alone the exception is [AttributeError] when the
    first nested value is itself an object ([.get] on the scalar) and
    [TypeError] otherwise (item assignment on the scalar). *)
Theorem recursive_update_clash (b n : list (string * json)) (k k2 : string)
    (v2 bk : json) (nk : list (string * json)) :
  NoDup (dict_keys n) -> (k, JDict ((k2, v2) :: nk)) ∈ n ->
  dict_get k b = Some bk -> bk <> JNull -> is_mapping bk = false ->
  is_ok (recursive_update (JDict b) (JDict n)) = false /\
  recursive_update (JDict b) (JDict [(k, JDict ((k2, v2) :: nk))])
  = Raise (if is_mapping v2 then AttributeError else TypeError).
Proof.
  intros Hnd Hin Hb Hnn Hbk.
  assert (Hs : update_key b k (JDict ((k2, v2) :: nk))
               = Raise (if is_mapping v2 then AttributeError else TypeError)).
  { rewrite (update_key_nested b k (JDict ((k2, v2) :: nk)) bk eq_refl Hb Hnn).
    rewrite recursive_update_not_dict by exact Hbk. reflexivity. }
  split.
  - apply (recursive_update_stops _ _ _ _ Hnd Hin). rewrite Hs. reflexivity.
  - rewrite recursive_update_cons, Hs. reflexivity.
Qed.

Lemma recursive_update_clash_witness :
  is_ok (recursive_update (JDict example_base) (JDict example_clash)) = false /\
  recursive_update (JDict example_base)
    (JDict [("seed", JDict [("value", JInt 1)])]%string)
  = Raise TypeError.
Proof.
  apply (recursive_update_clash example_base example_clash "seed"%string
           "value"%string (JInt 1) (JInt 1234) []).
  - apply (bool_decide_eq_true_1 _). vm_compute. reflexivity.
  - left.
  - reflexivity.
  - discriminate.
  - reflexivity.
Defined.

(** X9. An empty object in the overlay clears nothing: at a key where the
    base holds a value that is present and not [None] -- a dict or a scalar --
    that value stays as it is, and no error is raised for it. *)
Theorem recursive_update_empty_mapping (b n : list (string * json)) (r : json)
    (k : string) (bk : json) :
  NoDup (dict_keys n) -> (k, JDict []) ∈ n ->
  dict_get k b = Some bk -> bk <> JNull ->
  recursive_update (JDict b) (JDict n) = Ok r ->
  exists b', r = JDict b' /\ dict_get k b' = Some bk.
Proof.
  intros Hnd Hin Hb Hnn Hr. destruct (recursive_update_dict _ _ _ Hr) as [b' ->].
  exists b'. split; [reflexivity|].
  destruct (recursive_update_lookup _ _ _ _ _ Hnd Hin Hr)
    as (x & Hx & [[Hp _]|(bk0 & _ & Hbk & _ & Hx')]).
  - rewrite Hb in Hp. destruct bk; try discriminate. congruence.
  - rewrite Hb in Hbk. injection Hbk as <-.
    rewrite recursive_update_nil in Hx'. congruence.
Qed.

Lemma recursive_update_empty_mapping_witness :
  exists b',
    JDict [("seed", JInt 1234)]%string = JDict b' /\
    dict_get "seed"%string b' = Some (JInt 1234).
Proof.
  apply (recursive_update_empty_mapping [("seed", JInt 1234)]%string
           [("seed", JDict [])]%string).
  - apply (bool_decide_eq_true_1 _). vm_compute. reflexivity.
  - left.
  - reflexivity.
  - discriminate.
  - vm_compute. reflexivity.
Defined.

(** X10. Laying the same overlay over the result a second time changes
    nothing (every object of the overlay having each key once, as
    [json.load] gives it). *)
Theorem recursive_update_idempotent (base new_dict r : json) :
  unique_keys new_dict ->
  recursive_update base new_dict = Ok r ->
  recursive_update r new_dict = Ok r.
Proof.
  intros Hu. revert base r.
  induction new_dict as [items IH|j Hj] using json_dict_ind;
    [|intros base r; rewrite recursive_update_not_mapping by auto;
      discriminate].
  intros base r Hr. apply unique_keys_dict in Hu as [Hnd Hu].
  destruct (is_mapping base) eqn:Hb.
  - destruct base as [ | | | | | |b]; try discriminate.
    destruct (recursive_update_dict _ _ _ Hr) as [b' ->].
    apply recursive_update_noop. intros k v Hin.
    destruct (recursive_update_lookup _ _ _ _ _ Hnd Hin Hr)
      as (x & Hx & [[Hp ->]|(bk & Hm & Hbk & Hnn & Hx')]).
    + destruct (is_mapping v) eqn:Hm.
      * rewrite (update_key_nested _ _ _ v Hm Hx) by (destruct v; discriminate).
        rewrite Forall_forall in Hu. specialize (Hu _ Hin). simpl in Hu.
        rewrite recursive_update_self by auto.
        rewrite dict_set_same; auto.
      * rewrite update_key_plain by (rewrite Hm; reflexivity).
        rewrite dict_set_same; auto.
    + rewrite (update_key_nested _ _ _ x Hm Hx)
        by (eapply recursive_update_not_none; eauto).
      rewrite Forall_forall in IH, Hu.
      pose proof (IH _ Hin (Hu _ Hin) _ _ Hx') as Hi. cbn [snd] in Hi.
      rewrite Hi, dict_set_same; auto.
  - destruct items as [|[k v] items].
    + rewrite recursive_update_nil in Hr. injection Hr as <-.
      apply recursive_update_nil.
    + rewrite recursive_update_not_dict in Hr by auto. discriminate.
Qed.

Lemma recursive_update_idempotent_witness :
  recursive_update (JDict example_merged) (JDict example_overlay)
  = Ok (JDict example_merged).
Proof.
  apply (recursive_update_idempotent (JDict example_base)).
  - apply unique_keysb_sound. vm_compute. reflexivity.
  - vm_compute. reflexivity.
Defined.

(** X11. The update keeps dictionaries well formed: if every dict of the
    base and every object of the overlay has each key once, so has every dict
    of the result. *)
Theorem recursive_update_unique_keys (base new_dict r : json) :
  unique_keys base -> unique_keys new_dict ->
  recursive_update base new_dict = Ok r ->
  unique_keys r.
Proof.
  intros Hbase Hu. revert base r Hbase.
  induction new_dict as [items IH|j Hj] using json_dict_ind;
    [|intros base r _; rewrite recursive_update_not_mapping by auto;
      discriminate].
  intros base. apply unique_keys_dict in Hu as [_ Hu].
  destruct (is_mapping base) eqn:Hb.
  - destruct base as [ | | | | | |b]; try discriminate. clear Hb.
    revert b. induction items as [|[k v] items IHi]; intros b r Hb.
    + rewrite recursive_update_nil. intros [= <-]. auto.
    + rewrite recursive_update_cons.
      destruct (update_key b k v) as [b1|] eqn:Hs; [|discriminate].
      apply Forall_cons in IH as [IHv IH]. apply Forall_cons in Hu as [Hv Hu].
      simpl in IHv, Hv. apply (IHi IH Hu).
      apply unique_keys_dict in Hb as [Hnd Hvals].
      apply update_key_cases in Hs as (x & -> & Hx).
      apply unique_keys_dict. split; [apply dict_set_NoDup; auto|].
      apply dict_set_values; auto.
      destruct Hx as [[_ ->]|(bk & _ & Hbk & _ & Hx)]; auto.
      apply (IHv Hv bk); auto.
      rewrite Forall_forall in Hvals.
      apply (Hvals (k, bk)). apply dict_get_elem; auto.
  - intros r Hbase. destruct items as [|[k v] items].
    + rewrite recursive_update_nil. intros [= <-]. auto.
    + rewrite recursive_update_not_dict by auto. discriminate.
Qed.

Lemma recursive_update_unique_keys_witness : unique_keys (JDict example_merged).
Proof.
  apply (recursive_update_unique_keys (JDict example_base) (JDict example_overlay)).
  - apply unique_keysb_sound. vm_compute. reflexivity.
  - apply unique_keysb_sound. vm_compute. reflexivity.
  - vm_compute. reflexivity.
Defined.

(** X12. When the update raises can be read off the two documents before
    running it: it returns exactly when the overlay [fits] the base, that is,
    when the overlay is an object and none of its non-empty objects meets,
    at any depth, a value that is present, not [None] and not a dict. *)
Theorem recursive_update_returns_iff_fits (base new_dict : json) :
  unique_keys new_dict ->
  is_ok (recursive_update base new_dict) = fits base new_dict.
Proof.
  intros Hu. revert base.
  induction new_dict as [items IH|j Hj] using json_dict_ind;
    [|intros base; rewrite recursive_update_not_mapping by auto;
      destruct j; try discriminate; reflexivity].
  intros base. apply unique_keys_dict in Hu as [Hnd Hu].
  destruct (is_mapping base) eqn:Hb.
  - destruct base as [ | | | | | |b]; try discriminate. clear Hb.
    revert b. induction items as [|[k v] items IHi]; intros b; [reflexivity|].
    change (dict_keys ((k, v) :: items)) with (k :: dict_keys items) in Hnd.
    apply NoDup_cons in Hnd as [Hk Hnd].
    apply Forall_cons in IH as [IHv IH]. apply Forall_cons in Hu as [Hv Hu].
    simpl in IHv, Hv.
    rewrite recursive_update_cons, fits_cons.
    assert (Hstep : is_ok (update_key b k v) =
      if is_mapping v && is_not_none (dict_get k b) then
        match dict_get k b with Some bk => fits bk v | None => true end
      else true).
    { unfold update_key.
      destruct (is_mapping v && is_not_none (dict_get k b)); [|reflexivity].
      destruct (dict_get k b) as [bk|]; [|reflexivity].
      rewrite <- (IHv Hv bk). destruct (recursive_update bk v); reflexivity. }
    rewrite <- Hstep.
    destruct (update_key b k v) as [b1|] eqn:Hs; [|reflexivity].
    cbn [is_ok andb]. rewrite (IHi IH Hnd Hu b1).
    apply update_key_cases in Hs as (x & -> & _).
    apply fits_depends. intros k' Hk'. apply dict_get_set_ne.
    intros ->. contradiction.
  - destruct items as [|[k v] items].
    + destruct base; reflexivity.
    + rewrite recursive_update_not_dict by auto.
      destruct base; try discriminate; reflexivity.
Qed.

Lemma recursive_update_returns_iff_fits_witness :
  is_ok (recursive_update (JDict example_base) (JDict example_clash))
  = fits (JDict example_base) (JDict example_clash).
Proof.
  apply recursive_update_returns_iff_fits.
  apply unique_keysb_sound. vm_compute. reflexivity.
Defined.

(** X13. Configuration files are applied in the order given and the last one
    wins: when [load_and_merge] returns, the dictionary handed to [from_dict]
    holds, at every key the last file sets to a value that is not an object,
    that value, whatever the configuration and the earlier files said. *)
Theorem load_and_merge_last_wins {Cfg : Type} (to_dict : Cfg -> json)
    (from_dict : json -> result Cfg) (config cfg : Cfg) (docs : list json)
    (n : list (string * json)) (k : string) (v : json) :
  NoDup (dict_keys n) -> (k, v) ∈ n -> is_mapping v = false ->
  load_and_merge to_dict from_dict config (docs ++ [JDict n]) = Ok cfg ->
  exists d, from_dict (JDict d) = Ok cfg /\ dict_get k d = Some v /\
            merge_all (to_dict config) (docs ++ [JDict n]) = Ok (JDict d).
Proof.
  intros Hnd Hin Hv Hf. unfold load_and_merge in Hf.
  destruct (merge_all (to_dict config) (docs ++ [JDict n])) as [r|] eqn:Hall;
    [|discriminate].
  rewrite merge_all_app in Hall.
  destruct (merge_all (to_dict config) docs) as [base|]; [|discriminate].
  cbn [merge_all] in Hall.
  destruct (recursive_update base (JDict n)) as [r'|] eqn:Hr; [|discriminate].
  injection Hall as ->.
  destruct (is_mapping base) eqn:Hb.
  - destruct base as [ | | | | | |b]; try discriminate.
    destruct (recursive_update_dict _ _ _ Hr) as [b' ->].
    exists b'. split; [exact Hf|]. split; [|reflexivity].
    destruct (recursive_update_lookup _ _ _ _ _ Hnd Hin Hr)
      as (x & Hx & [[_ ->]|(bk & Hm' & _)]); [exact Hx|congruence].
  - destruct n as [|[k0 v0] n]; [inversion Hin|].
    rewrite recursive_update_not_dict in Hr by exact Hb. discriminate.
Qed.

Lemma load_and_merge_last_wins_witness :
  exists d, Ok (JDict d) = Ok (JDict example_merged) /\
            dict_get "seed"%string d = Some (JInt 1) /\
            merge_all (JDict example_base)
              ([JDict [("seed", JInt 7)]%string] ++ [JDict example_overlay])
            = Ok (JDict d).
Proof.
  apply (load_and_merge_last_wins (fun c : json => c) Ok (JDict example_base)
           (JDict example_merged) [JDict [("seed", JInt 7)]%string]
           example_overlay "seed"%string (JInt 1)).
  - apply (bool_decide_eq_true_1 _). vm_compute. reflexivity.
  - right. left.
  - reflexivity.
  - vm_compute. reflexivity.
Defined.
